(** * ModuleContentsWriter: the dependency-aware declaration emitter

    A shallow embedding of [lib/PrintAsClang/ModuleContentsWriter.cpp]
    (class [ReferencedTypeFinder] and class [ModuleWriter]) together with
    the properties of its scheduler, ledger, import resolver and ordering
    engine.

    Conventions of the embedding.
    - A declaration is identified by a [DeclId]; the AST is the table
      [decls] of the configuration, which answers the queries the C++ code
      asks of a [Decl *].
    - The external collaborators (the [DeclAndTypePrinter], name
      translation, the Clang value type printer) are not part of the file:
      what they write to the stream is recorded as one [Out] event each.
    - [llvm_unreachable] and a failed [assert] end the pass: [Abort].
    - A [std::vector] is a list in vector order: [back] is the last
      element. *)

From stdpp Require Import gmap list strings sorting.
From Stdlib Require Import ZArith Lia Permutation Sorted.

Set Warnings "-register-all".
Local Open Scope Z_scope.
Local Open Scope nat_scope.

(** ** Results of a pass that can abort *)

Inductive Res (A : Type) : Type :=
| Ok (a : A)
| Abort (why : string).
Arguments Ok {A} a.
Arguments Abort {A} why.

(** ** The declaration graph, as the emitter queries it *)

Definition DeclId := nat.

Inductive DeclKind :=
| KEnum | KStruct | KClass | KProtocol
| KTypeAlias | KGenericTypeParam | KAssociatedType
| KFunc
| KOtherValue      (* any other ValueDecl: a property, an initializer ... *)
| KExtension
| KOtherDecl.      (* any other Decl that is not a ValueDecl *)

#[global] Instance DeclKind_eq_dec : EqDecision DeclKind.
Proof. solve_decision. Defined.

Definition isValueDecl (k : DeclKind) : bool :=
  match k with KExtension | KOtherDecl => false | _ => true end.

Definition isTypeDecl (k : DeclKind) : bool :=
  match k with
  | KEnum | KStruct | KClass | KProtocol
  | KTypeAlias | KGenericTypeParam | KAssociatedType => true
  | _ => false
  end.

Definition isNominalTypeDecl (k : DeclKind) : bool :=
  match k with KEnum | KStruct | KClass | KProtocol => true | _ => false end.

Record ModuleDecl := {
  modName : string;
  isStdlibModule : bool;
  isBuiltinModule : bool
}.

#[global] Instance ModuleDecl_eq_dec : EqDecision ModuleDecl.
Proof. solve_decision. Defined.

(** [clang::Module]: [IsExplicit] and the [Parent] chain (a top-level
    module has no parent). *)
Inductive ClangModule :=
| ClangTopLevelModule (cmName : string) (IsExplicit : bool)
| ClangSubmodule (cmName : string) (IsExplicit : bool) (Parent : ClangModule).

#[global] Instance ClangModule_eq_dec : EqDecision ClangModule.
Proof. solve_decision. Defined.

Definition cmIsExplicit (c : ClangModule) : bool :=
  match c with
  | ClangTopLevelModule _ e => e
  | ClangSubmodule _ e _ => e
  end.

(** [ImportModuleTy] is a pointer union of a Swift module and a Clang
    module. *)
Inductive ImportModuleTy :=
| ImportSwift (m : ModuleDecl)
| ImportClang (c : ClangModule).

#[global] Instance ImportModuleTy_eq_dec : EqDecision ImportModuleTy.
Proof. solve_decision. Defined.

(** Types, as far as the [TypeDeclFinder] walk tells them apart. *)
Inductive Ty :=
| NominalType (d : DeclId)
| TypeAliasType (d : DeclId) (underlying : Ty)
| BoundGenericType (d : DeclId) (args : list Ty)
| OtherType (children : list Ty).

(** One generic parameter of a signature, with what [isConstrained]
    asks about it. *)
Record GenericParam := {
  superclassBound : option DeclId;
  requiredProtocols : list DeclId
}.

Record DeclAttribute := {
  isObjCAttr : bool;
  isImplicit : bool
}.

Record Decl := {
  kind : DeclKind;
  moduleContext : ModuleDecl;
  (* [getClangNode]: [None] when there is none, otherwise what
     [getClangOwningModule] answers for it *)
  clangNode : option (option ClangModule);
  declName : string;
  attrs : list DeclAttribute;
  interfaceType : Ty;
  members : list DeclId;
  declContext : DeclId;
  superclassDecl : option DeclId;
  localProtocols : list DeclId;
  inheritedProtocols : list DeclId;
  selfClassDecl : option DeclId;
  extendedNominal : DeclId;
  genericParams : list GenericParam;
  isCompatibilityAlias : bool;
  isGeneric : bool;
  isObjC : bool;
  isForeign : bool;
  isForeignCFType : bool;
  isOSObject : bool;
  isErrorProtocol : bool;
  rawType : Ty;
  conformsToError : bool;
  hasDomainCase : bool
}.

Definition hasClangNode (d : Decl) : bool :=
  match clangNode d with Some _ => true | None => false end.

Inductive OutputLanguageMode := ObjC | Cxx.

#[global] Instance OutputLanguageMode_eq_dec : EqDecision OutputLanguageMode.
Proof. solve_decision. Defined.

(** The queries answered by the external [DeclAndTypePrinter]. *)
Record Printer := {
  shouldInclude : DeclId → bool;
  isEmptyExtensionDecl : DeclId → bool;
  getObjCTypeDecl : DeclId → DeclId
}.

(** Everything that is fixed during one pass. *)
Record Config := {
  M : ModuleDecl;
  decls : DeclId → Decl;
  topLevelDecls : list DeclId;
  outputLangMode : OutputLanguageMode;
  printer : Printer;
  Id_simd : string;
  CLANG_HEADER_MODULE_NAME : string
}.

(** ** The output stream *)

Inductive Out :=
| OStr (s : string)                         (* os << "..." *)
| ONameForObjC (D : DeclId)                 (* os << getNameForObjC(D) *)
| OErrorDomain (D : DeclId)                 (* getErrorDomainStringForObjC *)
| OPrintType (t : Ty)                       (* printer.print(Type) *)
| OPrintDecl (D : DeclId)                   (* printer.print(D) *)
| OPrintAdHocCategory (ms : list DeclId)    (* printer.printAdHocCategory *)
| OClangTypeSwiftGenericTraits (D : DeclId)
| OForwardDeclType (D : DeclId)             (* ClangValueTypePrinter *)
| OOutOfLineDefinitions.                    (* os << outOfLineDefinitionsOS.str() *)

(** ** The state of a [ModuleWriter] *)

Inductive EmissionState :=
| NotYetDefined
| DefinitionRequested
| Defined.

#[global] Instance EmissionState_eq_dec : EqDecision EmissionState.
Proof. solve_decision. Defined.

Definition EmissionState_rank (s : EmissionState) : nat :=
  match s with
  | NotYetDefined => 0
  | DefinitionRequested => 1
  | Defined => 2
  end.

Record ModuleWriter := {
  os : list Out;
  imports : list ImportModuleTy;
  seenTypes : gmap DeclId (EmissionState * bool);
  seenClangTypes : list DeclId;
  declsToWrite : list DeclId;
  delayedMembers : list DeclId;
  recordedExtensions : list (DeclId * DeclId);
  dependsOnStdlib : bool
}.

Definition initialWriter : ModuleWriter :=
  {| os := []; imports := []; seenTypes := ∅; seenClangTypes := [];
     declsToWrite := []; delayedMembers := []; recordedExtensions := [];
     dependsOnStdlib := false |}.

Definition with_os (f : list Out → list Out) (σ : ModuleWriter) : ModuleWriter :=
  {| os := f (os σ); imports := imports σ; seenTypes := seenTypes σ;
     seenClangTypes := seenClangTypes σ; declsToWrite := declsToWrite σ;
     delayedMembers := delayedMembers σ;
     recordedExtensions := recordedExtensions σ;
     dependsOnStdlib := dependsOnStdlib σ |}.

Definition with_imports (f : list ImportModuleTy → list ImportModuleTy)
    (σ : ModuleWriter) : ModuleWriter :=
  {| os := os σ; imports := f (imports σ); seenTypes := seenTypes σ;
     seenClangTypes := seenClangTypes σ; declsToWrite := declsToWrite σ;
     delayedMembers := delayedMembers σ;
     recordedExtensions := recordedExtensions σ;
     dependsOnStdlib := dependsOnStdlib σ |}.

Definition with_seenTypes
    (f : gmap DeclId (EmissionState * bool) → gmap DeclId (EmissionState * bool))
    (σ : ModuleWriter) : ModuleWriter :=
  {| os := os σ; imports := imports σ; seenTypes := f (seenTypes σ);
     seenClangTypes := seenClangTypes σ; declsToWrite := declsToWrite σ;
     delayedMembers := delayedMembers σ;
     recordedExtensions := recordedExtensions σ;
     dependsOnStdlib := dependsOnStdlib σ |}.

Definition with_seenClangTypes (f : list DeclId → list DeclId)
    (σ : ModuleWriter) : ModuleWriter :=
  {| os := os σ; imports := imports σ; seenTypes := seenTypes σ;
     seenClangTypes := f (seenClangTypes σ); declsToWrite := declsToWrite σ;
     delayedMembers := delayedMembers σ;
     recordedExtensions := recordedExtensions σ;
     dependsOnStdlib := dependsOnStdlib σ |}.

Definition with_declsToWrite (f : list DeclId → list DeclId)
    (σ : ModuleWriter) : ModuleWriter :=
  {| os := os σ; imports := imports σ; seenTypes := seenTypes σ;
     seenClangTypes := seenClangTypes σ; declsToWrite := f (declsToWrite σ);
     delayedMembers := delayedMembers σ;
     recordedExtensions := recordedExtensions σ;
     dependsOnStdlib := dependsOnStdlib σ |}.

Definition with_delayedMembers (f : list DeclId → list DeclId)
    (σ : ModuleWriter) : ModuleWriter :=
  {| os := os σ; imports := imports σ; seenTypes := seenTypes σ;
     seenClangTypes := seenClangTypes σ; declsToWrite := declsToWrite σ;
     delayedMembers := f (delayedMembers σ);
     recordedExtensions := recordedExtensions σ;
     dependsOnStdlib := dependsOnStdlib σ |}.

Definition with_recordedExtensions
    (f : list (DeclId * DeclId) → list (DeclId * DeclId))
    (σ : ModuleWriter) : ModuleWriter :=
  {| os := os σ; imports := imports σ; seenTypes := seenTypes σ;
     seenClangTypes := seenClangTypes σ; declsToWrite := declsToWrite σ;
     delayedMembers := delayedMembers σ;
     recordedExtensions := f (recordedExtensions σ);
     dependsOnStdlib := dependsOnStdlib σ |}.

Definition with_dependsOnStdlib (b : bool) (σ : ModuleWriter) : ModuleWriter :=
  {| os := os σ; imports := imports σ; seenTypes := seenTypes σ;
     seenClangTypes := seenClangTypes σ; declsToWrite := declsToWrite σ;
     delayedMembers := delayedMembers σ;
     recordedExtensions := recordedExtensions σ;
     dependsOnStdlib := b |}.

(** A set that keeps insertion order ([SmallPtrSet] as the import set,
    [SetVector] as the delayed member set, [DenseSet]): inserting an
    element that is present changes nothing. *)
Definition set_insert {A} `{EqDecision A} (x : A) (l : list A) : list A :=
  if bool_decide (x ∈ l) then l else l ++ [x].

(** [DenseMap::lookup], and [operator[]] read: an absent key has the
    value-initialized entry. *)
Definition stateOf (σ : ModuleWriter) (D : DeclId) : EmissionState * bool :=
  default (NotYetDefined, false) (seenTypes σ !! D).

(** [std::vector::back] together with the vector without it. *)
Fixpoint unsnoc {A} (l : list A) : option (list A * A) :=
  match l with
  | [] => None
  | x :: l' =>
      match unsnoc l' with
      | None => Some ([], x)
      | Some (r, y) => Some (x :: r, y)
      end
  end.

(** ** The writer monad: state passing with abort *)

Definition W (A : Type) : Type := ModuleWriter → Res (A * ModuleWriter).

Definition ret {A} (a : A) : W A := λ σ, Ok (a, σ).

Definition bind {A B} (m : W A) (k : A → W B) : W B :=
  λ σ, match m σ with
       | Ok (a, σ') => k a σ'
       | Abort w => Abort w
       end.

Notation "'let*' x := c 'in' k" := (bind c (λ x, k))
  (at level 10, x name, c at level 100, k at level 200,
   format "'let*'  x  :=  c  'in' '//' k").
Notation "c ;;; k" := (bind c (λ _, k))
  (at level 100, k at level 200, right associativity).

Definition endl : string := String (Ascii.ascii_of_nat 10) "".

Definition get : W ModuleWriter := λ σ, Ok (σ, σ).
Definition modify (f : ModuleWriter → ModuleWriter) : W unit := λ σ, Ok (tt, f σ).
Definition abort {A} (why : string) : W A := λ _, Abort why.
Definition emit (o : list Out) : W unit := modify (with_os (λ l, l ++ o)).
Definition when (b : bool) (m : W unit) : W unit := if b then m else ret tt.

(** [for (auto x : l) body(x)] *)
Fixpoint forEach {A} (l : list A) (body : A → W unit) : W unit :=
  match l with
  | [] => ret tt
  | x :: l' => body x ;;; forEach l' body
  end.

(** ** ReferencedTypeFinder *)

Section ReferencedTypeFinder.
Context (cfg : Config).

(** [isConstrained]: a superclass bound, or some required protocol. *)
Definition isConstrained (paramTy : GenericParam) : bool :=
  match superclassBound paramTy with
  | Some _ => true
  | None => negb (bool_decide (requiredProtocols paramTy = []))
  end.

(** The walk of a type by the finder. The finder's only state is
    [NeedsDefinition]; the callback cannot change it, so the walk is
    given as the sequence of callback invocations [(TD, NeedsDefinition
    at the call)] and the value of [NeedsDefinition] when the walk
    returns.

    Modelled from the spec: the dispatch of [TypeDeclFinder] and the
    pre-order traversal of [Type::walk] (swift/AST/TypeDeclFinder.h,
    not among the sources): "structural walk of the type", a nominal
    type yields its declaration, children of any other type are walked
    in order. The three [visit...] bodies are those of the source. *)
Section Walk.
Context (walk : Ty → bool → list (DeclId * bool) * bool).

(** The [for_each] over the generic arguments and the innermost generic
    parameters in [visitBoundGenericType]. *)
Fixpoint for_each_genericArg (isObjCGeneric : bool) (args : list Ty)
    (params : list GenericParam) (NeedsDefinition : bool)
    : list (DeclId * bool) * bool :=
  match args, params with
  | argTy :: args', paramTy :: params' =>
      (* if (isObjCGeneric && isConstrained(sig, paramTy))
           NeedsDefinition = true; *)
      let nd := if isObjCGeneric && isConstrained paramTy
                then true else NeedsDefinition in
      (* argTy.walk( *this); NeedsDefinition = false; *)
      let r := walk argTy nd in
      let rest := for_each_genericArg isObjCGeneric args' params' false in
      (r.1 ++ rest.1, rest.2)
  | _, _ => ([], NeedsDefinition)
  end.

(** The children of a type that is none of the three visited kinds. *)
Fixpoint walkChildren (children : list Ty) (NeedsDefinition : bool)
    : list (DeclId * bool) * bool :=
  match children with
  | [] => ([], NeedsDefinition)
  | c :: children' =>
      let r := walk c NeedsDefinition in
      let rest := walkChildren children' r.2 in
      (r.1 ++ rest.1, rest.2)
  end.

End Walk.

Fixpoint walkTy (ty : Ty) (NeedsDefinition : bool)
    : list (DeclId * bool) * bool :=
  match ty with
  | NominalType d =>
      (* visitNominalType *)
      ([(d, NeedsDefinition)], NeedsDefinition)
  | TypeAliasType d underlying =>
      (* visitTypeAliasType *)
      if hasClangNode (decls cfg d) && negb (isCompatibilityAlias (decls cfg d))
      then ([(d, NeedsDefinition)], NeedsDefinition)
      else walkTy underlying NeedsDefinition
  | BoundGenericType d args =>
      (* visitBoundGenericType: NeedsDefinition = true; Callback;
         NeedsDefinition = false; then the arguments *)
      let isObjCGeneric := hasClangNode (decls cfg d) in
      let rest :=
        for_each_genericArg walkTy isObjCGeneric args
          (genericParams (decls cfg d)) false in
      ((d, true) :: rest.1, rest.2)
  | OtherType children => walkChildren walkTy children NeedsDefinition
  end.

(** [ReferencedTypeFinder::walk]: a fresh finder, [NeedsDefinition =
    false]. *)
Definition ReferencedTypeFinder_walk (ty : Ty) : list (DeclId * bool) :=
  (walkTy ty false).1.

End ReferencedTypeFinder.

(** ** ModuleWriter: imports, the ledger and forward declarations *)

Section ModuleWriter.
Context (cfg : Config).

Local Abbreviation decl D := (decls cfg D).
Local Abbreviation inCxx := (bool_decide (outputLangMode cfg = Cxx)).

(** The loop of [addImport] that looks through implicit submodules. *)
Fixpoint nearestExplicitModule (clangModule : ClangModule)
    : option ClangModule :=
  if cmIsExplicit clangModule then Some clangModule
  else match clangModule with
       | ClangTopLevelModule _ _ => None
       | ClangSubmodule _ _ Parent => nearestExplicitModule Parent
       end.

Definition addImport (D : DeclId) : W bool :=
  let otherModule := moduleContext (decl D) in
  if bool_decide (otherModule = M cfg) then ret false
  else if isStdlibModule otherModule then
    modify (with_dependsOnStdlib true) ;;; ret true
  else if isBuiltinModule otherModule then ret true
  else if bool_decide (modName otherModule = Id_simd cfg) then ret true
  else
    match
      match clangNode (decl D) with
      | Some (Some clangModule) => nearestExplicitModule clangModule
      | _ => None
      end
    with
    | Some clangModule =>
        modify (with_imports (set_insert (ImportClang clangModule))) ;;;
        ret true
    | None =>
        if inCxx && (negb (hasClangNode (decl D)) ||
                     bool_decide (modName otherModule =
                                  CLANG_HEADER_MODULE_NAME cfg))
        then ret true
        else
          modify (with_imports (set_insert (ImportSwift otherModule))) ;;;
          ret true
    end.

Definition hasBeenRequested (σ : ModuleWriter) (D : DeclId) : bool :=
  bool_decide (EmissionState_rank DefinitionRequested ≤
               EmissionState_rank (stateOf σ D).1).

Definition setSeen (D : DeclId) (st : EmissionState * bool) : W unit :=
  modify (with_seenTypes (insert D st)).

Definition tryRequire (D : DeclId) : W bool :=
  let* imported := addImport D in
  if imported then
    setSeen D (Defined, true) ;;; ret true
  else
    let* σ := get in
    ret (bool_decide ((stateOf σ D).1 = Defined)).

Definition require (D : DeclId) : W bool :=
  let* imported := addImport D in
  if imported then
    setSeen D (Defined, true) ;;; ret true
  else
    let* σ := get in
    let state := stateOf σ D in
    match state.1 with
    | NotYetDefined
    | DefinitionRequested =>
        setSeen D (DefinitionRequested, state.2) ;;;
        modify (with_declsToWrite (λ l, l ++ [D])) ;;;
        ret false
    | Defined => ret true
    end.

(** [forwardDeclare(NTD, Printer)]; [Printer] is what the callback
    writes. *)
Definition forwardDeclare (NTD : DeclId) (Printer : list Out) : W unit :=
  if isStdlibModule (moduleContext (decl NTD)) &&
     (negb inCxx || negb (shouldInclude (printer cfg) NTD))
  then ret tt
  else
    let* σ := get in
    let state := stateOf σ NTD in
    if state.2 then ret tt
    else
      emit Printer ;;;
      setSeen NTD (state.1, true).

Definition forwardDeclareClass (CD : DeclId) : W bool :=
  if negb (isObjC (decl CD)) || isForeignCFType (decl CD) ||
     isOSObject (decl CD)
  then ret false
  else
    forwardDeclare CD [OStr "@class "; ONameForObjC CD; OStr (";" +:+ endl)] ;;;
    ret true.

Definition forwardDeclareProtocol (PD : DeclId) : W unit :=
  if negb (isObjC (decl PD) || isErrorProtocol (decl PD))
  then abort "assert(PD->isObjC() || Error protocol)"
  else forwardDeclare PD [OStr "@protocol "; ONameForObjC PD; OStr (";" +:+ endl)].

Definition forwardDeclareEnum (ED : DeclId) : W unit :=
  if negb (isObjC (decl ED) || hasClangNode (decl ED))
  then abort "assert(ED->isObjC() || ED->hasClangNode())"
  else forwardDeclare ED
         [OStr "enum "; ONameForObjC ED; OStr " : ";
          OPrintType (rawType (decl ED)); OStr (";" +:+ endl)].

Definition emitReferencedClangTypeMetadata (typeDecl : DeclId) : W unit :=
  let* σ := get in
  if bool_decide (typeDecl ∈ seenClangTypes σ) then ret tt
  else
    modify (with_seenClangTypes (λ l, l ++ [typeDecl])) ;;;
    emit [OClangTypeSwiftGenericTraits typeDecl].

Definition forwardDeclareCxxValueTypeIfNeeded (NTD : DeclId) : W unit :=
  forwardDeclare NTD [OForwardDeclType NTD].

Definition forwardDeclareType (TD : DeclId) : W unit :=
  let k := kind (decl TD) in
  if inCxx then
    if bool_decide (k = KStruct) || bool_decide (k = KEnum) then
      let* imported := addImport TD in
      if negb imported then forwardDeclareCxxValueTypeIfNeeded TD
      else if bool_decide (k = KStruct) && hasClangNode (decl TD)
      then emitReferencedClangTypeMetadata TD
      else ret tt
    else ret tt
  else
    match k with
    | KClass =>
        let* declared := forwardDeclareClass TD in
        if negb declared then (let* _ := addImport TD in ret tt) else ret tt
    | KProtocol => forwardDeclareProtocol TD
    | KTypeAlias =>
        let* imported :=
          (if hasClangNode (decl TD) then addImport TD else ret false) in
        if negb (imported || negb (isGeneric (decl TD)))
        then abort "referencing non-imported generic typealias?"
        else ret tt
    | _ =>
        let* imported := addImport TD in
        if imported then ret tt
        else
          match k with
          | KEnum => forwardDeclareEnum TD
          | KGenericTypeParam => abort "should not see generic parameters here"
          | KAssociatedType => abort "should not see associated types here"
          | KStruct =>
              if isStdlibModule (moduleContext (decl TD)) then ret tt
              else abort "unknown local type decl"
          | _ => abort "unknown local type decl"
          end
    end.

(** *** forwardDeclareMemberTypes *)

(** The two locals the callback of [forwardDeclareMemberTypes] captures
    by reference. *)
Record MemberFlags := {
  needsToBeIndividuallyDelayed : bool;
  hadAnyDelayedMembers : bool
}.

(** The lambda passed to [ReferencedTypeFinder::walk], called with the
    declaration [TD] and [finder.needsDefinition()]. *)
Definition memberTypeCallback (container : DeclId) (fl : MemberFlags)
    (needsDefinition : bool) (TD : DeclId) : W MemberFlags :=
  if bool_decide (TD = container) then ret fl
  else
    (* Bridge, if necessary. *)
    let TD := if negb inCxx then getObjCTypeDecl (printer cfg) TD else TD in
    let giveUp := forwardDeclareType TD ;;; ret fl in
    if needsDefinition && isNominalTypeDecl (kind (decl TD)) then
      match kind (decl container) with
      | KClass =>
          (* We can delay individual members of classes. *)
          let* ok := tryRequire TD in
          ret (if ok then fl
               else {| needsToBeIndividuallyDelayed := true;
                       hadAnyDelayedMembers := true |})
      | KExtension =>
          (* Extensions can always be delayed wholesale. *)
          let* ok := require TD in
          ret (if ok then fl
               else {| needsToBeIndividuallyDelayed :=
                         needsToBeIndividuallyDelayed fl;
                       hadAnyDelayedMembers := true |})
      | KProtocol =>
          (* Protocols should be delayed wholesale unless we might have
             a cycle. *)
          let* σ := get in
          if negb (hasBeenRequested σ container) ||
             negb (hasBeenRequested σ TD)
          then
            let* ok := require TD in
            ret (if ok then fl
                 else {| needsToBeIndividuallyDelayed :=
                           needsToBeIndividuallyDelayed fl;
                         hadAnyDelayedMembers := true |})
          else giveUp
      | _ => giveUp
      end
    else giveUp.

Fixpoint walkCallbacks (container : DeclId)
    (reports : list (DeclId * bool)) (fl : MemberFlags) : W MemberFlags :=
  match reports with
  | [] => ret fl
  | (TD, needsDefinition) :: rest =>
      let* fl' := memberTypeCallback container fl needsDefinition TD in
      walkCallbacks container rest fl'
  end.

Definition hasExplicitObjCAttr (D : DeclId) : bool :=
  existsb (λ attr, isObjCAttr attr && negb (isImplicit attr)) (attrs (decl D)).

(** The [for (auto member : members)] loop; it returns
    [hadAnyDelayedMembers] and [nestedTypes]. *)
Fixpoint forMembers (members : list DeclId) (container : DeclId)
    (hadAny : bool) (nestedTypes : list DeclId) : W (bool * list DeclId) :=
  match members with
  | [] => ret (hadAny, nestedTypes)
  | member :: rest =>
      if negb (isValueDecl (kind (decl member))) ||
         negb (shouldInclude (printer cfg) member)
      then forMembers rest container hadAny nestedTypes
      else if isTypeDecl (kind (decl member)) then
        (* Catch nested types and emit their definitions /after/ this
           class; not those that are just implicitly @objc. *)
        forMembers rest container hadAny
          (if hasExplicitObjCAttr member then nestedTypes ++ [member]
           else nestedTypes)
      else
        let* fl :=
          walkCallbacks container
            (ReferencedTypeFinder_walk cfg (interfaceType (decl member)))
            {| needsToBeIndividuallyDelayed := false;
               hadAnyDelayedMembers := hadAny |} in
        (if needsToBeIndividuallyDelayed fl then
           if bool_decide (kind (decl container) = KClass)
           then modify (with_delayedMembers (set_insert member))
           else abort "assert(isa<ClassDecl>(container))"
         else ret tt) ;;;
        forMembers rest container (hadAnyDelayedMembers fl) nestedTypes
  end.

(** [declsToWrite.insert(declsToWrite.end()-1, first, last)] *)
Definition insertBeforeBack (xs : list DeclId) : W unit :=
  let* σ := get in
  match unsnoc (declsToWrite σ) with
  | None => abort "declsToWrite.end()-1 of an empty vector"
  | Some (front, back) =>
      modify (with_declsToWrite (λ _, front ++ xs ++ [back]))
  end.

Definition forwardDeclareMemberTypes (members : list DeclId)
    (container : DeclId) : W bool :=
  let containerOk :=
    match kind (decl container) with
    | KClass | KProtocol | KExtension => true
    | KStruct | KEnum => inCxx
    | _ => false
    end in
  if negb containerOk then abort "unexpected container kind"
  else
    let* r := forMembers members container false [] in
    insertBeforeBack (rev r.2) ;;;
    ret (negb r.1).

(** *** One writer per kind of declaration *)

(** [allRequirementsSatisfied &= require(proto)] for every included
    protocol of the list; [mustBeObjC] is the assertion of
    [writeProtocol]. *)
Fixpoint requireProtocols (mustBeObjC : bool) (protos : list DeclId)
    (allRequirementsSatisfied : bool) : W bool :=
  match protos with
  | [] => ret allRequirementsSatisfied
  | proto :: rest =>
      if shouldInclude (printer cfg) proto then
        if mustBeObjC && negb (isObjC (decl proto))
        then abort "assert(proto->isObjC())"
        else
          let* ok := require proto in
          requireProtocols mustBeObjC rest (allRequirementsSatisfied && ok)
      else requireProtocols mustBeObjC rest allRequirementsSatisfied
  end.

Definition writeClass (CD : DeclId) : W bool :=
  let* imported := addImport CD in
  if imported then ret true
  else
    let* σ := get in
    if bool_decide ((stateOf σ CD).1 = Defined) then ret true
    else
      let* sat1 :=
        match superclassDecl (decl CD) with
        | Some superclass => require superclass
        | None => ret true
        end in
      let* sat2 :=
        (if negb inCxx
         then requireProtocols false (localProtocols (decl CD)) sat1
         else ret sat1) in
      if negb sat2 then ret false
      else
        let* _ := forwardDeclareMemberTypes (members (decl CD)) CD in
        setSeen CD (Defined, true) ;;;
        emit [OStr endl] ;;;
        emit [OPrintDecl CD] ;;;
        ret true.

Definition writeFunc (FD : DeclId) : W bool :=
  let* imported := addImport FD in
  if imported then ret true
  else
    forEach (ReferencedTypeFinder_walk cfg (interfaceType (decl FD)))
      (λ r, forwardDeclareType r.1) ;;;
    emit [OStr endl] ;;;
    emit [OPrintDecl FD] ;;;
    ret true.

(** [SwiftToClangInteropContext::getExtensionsForNominalType], over what
    [recordExtensions] has recorded. *)
Definition getExtensionsForNominalType (σ : ModuleWriter) (SD : DeclId)
    : list DeclId :=
  (filter (λ p, p.1 = SD) (recordedExtensions σ)).*2.

Definition writeStruct (SD : DeclId) : W bool :=
  let* imported := addImport SD in
  if imported then ret true
  else
    (if inCxx then
       let* _ := forwardDeclareMemberTypes (members (decl SD)) SD in
       let* σ := get in
       forEach (getExtensionsForNominalType σ SD)
         (λ ed, let* _ := forwardDeclareMemberTypes (members (decl ed)) SD in
                ret tt) ;;;
       forwardDeclareCxxValueTypeIfNeeded SD
     else ret tt) ;;;
    emit [OPrintDecl SD] ;;;
    ret true.

Definition writeProtocol (PD : DeclId) : W bool :=
  let* imported := addImport PD in
  if imported then ret true
  else
    let* σ := get in
    if bool_decide ((stateOf σ PD).1 = Defined) then ret true
    else
      let* sat := requireProtocols true (inheritedProtocols (decl PD)) true in
      if negb sat then ret false
      else
        let* ok := forwardDeclareMemberTypes (members (decl PD)) PD in
        if negb ok then ret false
        else
          setSeen PD (Defined, true) ;;;
          emit [OStr endl] ;;;
          emit [OPrintDecl PD] ;;;
          ret true.

Definition writeExtension (ED : DeclId) : W bool :=
  if isEmptyExtensionDecl (printer cfg) ED then ret true
  else
    match selfClassDecl (decl ED) with
    | None => abort "require(nullptr)"
    | Some CD =>
        let* sat1 := require CD in
        let* sat2 := requireProtocols false (localProtocols (decl ED)) sat1 in
        if negb sat2 then ret false
        else
          let* ok := forwardDeclareMemberTypes (members (decl ED)) ED in
          if negb ok then ret false
          else
            emit [OStr endl] ;;;
            emit [OPrintDecl ED] ;;;
            ret true
    end.

Definition dquote : string := String (Ascii.ascii_of_nat 34) "".

Definition writeEnum (ED : DeclId) : W bool :=
  let* imported := addImport ED in
  if imported then ret true
  else
    (if inCxx then
       let* _ := forwardDeclareMemberTypes (members (decl ED)) ED in
       forwardDeclareCxxValueTypeIfNeeded ED
     else ret tt) ;;;
    let* σ := get in
    if bool_decide ((stateOf σ ED).1 = Defined) then ret true
    else
      setSeen ED (Defined, true) ;;;
      emit [OPrintDecl ED] ;;;
      (if negb inCxx && conformsToError (decl ED) &&
          negb (hasDomainCase (decl ED))
       then emit [OStr "static NSString * _Nonnull const ";
                  ONameForObjC ED;
                  OStr ("Domain = @" +:+ dquote);
                  OErrorDomain ED;
                  OStr (dquote +:+ ";" +:+ endl)]
       else ret tt) ;;;
      ret true.

End ModuleWriter.

(** ** ModuleWriter::write: ordering, the drain loop, delayed members *)

Section Write.
Context (cfg : Config).

Local Abbreviation decl D := (decls cfg D).
Local Abbreviation inCxx := (bool_decide (outputLangMode cfg = Cxx)).

(** The predicate of [std::remove_if]: [true] removes the declaration. *)
Definition removedFromTopLevel (D : DeclId) : bool :=
  if isValueDecl (kind (decl D)) then negb (shouldInclude (printer cfg) D)
  else if bool_decide (kind (decl D) = KExtension) then
    if inCxx then false
    else
      match selfClassDecl (decl D) with
      | None => true
      | Some baseClass =>
          negb (shouldInclude (printer cfg) baseClass) ||
          isForeign (decl baseClass)
      end
  else true.

(** What is left of the list [M.getTopLevelDecls] returned. *)
Definition filteredDecls (top : list DeclId) : list DeclId :=
  List.filter (λ D, negb (removedFromTopLevel D)) top.

Definition filteredTopLevelDecls : list DeclId :=
  filteredDecls (topLevelDecls cfg).

(** [StringRef::compare]: -1, 0 or 1. *)
Definition StringRef_compare (a b : string) : Z :=
  match String.compare a b with
  | Lt => (-1)%Z
  | Eq => 0%Z
  | Gt => 1%Z
  end.

Definition Ascending : Z := (-1)%Z.
Definition Equivalent : Z := 0%Z.
Definition Descending : Z := 1%Z.

Definition getSortName (D : DeclId) : Res string :=
  if isValueDecl (kind (decl D)) then Ok (declName (decl D))
  else if bool_decide (kind (decl D) = KExtension) then
    match selfClassDecl (decl D) with
    | None => Ok (declName (decl (extendedNominal (decl D))))
    | Some baseClass => Ok (declName (decl baseClass))
    end
  else Abort "unknown top-level ObjC decl".

(** [std::mismatch(first1, last1, first2, pred)]: the first position at
    which [pred] does not hold. *)
Fixpoint std_mismatch {A} (pred : A → A → bool) (l1 l2 : list A)
    : option (A * A) :=
  match l1, l2 with
  | x :: l1', y :: l2' =>
      if pred x y then std_mismatch pred l1' l2' else Some (x, y)
  | _, _ => None
  end.

(** The comparator handed to [llvm::array_pod_sort]: negative when [lhs]
    is to come first. *)
Definition compareDecls (lhs rhs : DeclId) : Res Z :=
  if bool_decide (lhs = rhs) then Abort "duplicate top-level decl"
  else
    match getSortName rhs, getSortName lhs with
    | Abort w, _ | _, Abort w => Abort w
    | Ok rhsName, Ok lhsName =>
        (* Sort by names. *)
        let result := StringRef_compare rhsName lhsName in
        if negb (bool_decide (result = 0%Z)) then Ok result
        else
          let lhsValue := isValueDecl (kind (decl lhs)) in
          let rhsValue := isValueDecl (kind (decl rhs)) in
          (* Prefer value decls to extensions. *)
          if lhsValue && rhsValue
          then Abort "assert(!(isa<ValueDecl>(*lhs) && isa<ValueDecl>(*rhs)))"
          else if lhsValue && negb rhsValue then Ok Descending
          else if negb lhsValue && rhsValue then Ok Ascending
          else
            (* Break ties in extensions by putting smaller extensions
               last (in reverse order). *)
            let numLHSMembers := length (members (decl lhs)) in
            let numRHSMembers := length (members (decl rhs)) in
            if negb (bool_decide (numLHSMembers = numRHSMembers)) then
              Ok (if bool_decide (numLHSMembers < numRHSMembers)
                  then Descending else Ascending)
            else
              (* Or the extension with fewer protocols. *)
              let lhsProtos := localProtocols (decl lhs) in
              let rhsProtos := localProtocols (decl rhs) in
              if negb (bool_decide (length lhsProtos = length rhsProtos)) then
                Ok (if bool_decide (length lhsProtos < length rhsProtos)
                    then Descending else Ascending)
              else
                (* If that fails, arbitrarily pick the extension whose
                   protocols are alphabetically first. *)
                match
                  std_mismatch
                    (λ nextLHSProto nextRHSProto,
                       negb (bool_decide (declName (decl nextLHSProto) =
                                          declName (decl nextRHSProto))))
                    lhsProtos rhsProtos
                with
                | None => Ok Equivalent
                | Some (l, r) =>
                    Ok (StringRef_compare (declName (decl l))
                                          (declName (decl r)))
                end
    end.

(** Modelled from the spec: [llvm::array_pod_sort] (LLVM's wrapper of
    [qsort], not among the sources) as "a comparator applied during a
    stable sort": insertion from the left, an element going after those
    it does not compare less than. An aborting comparison aborts the
    sort. *)
Fixpoint insertSorted (cmp : DeclId → DeclId → Res Z) (x : DeclId)
    (sorted : list DeclId) : Res (list DeclId) :=
  match sorted with
  | [] => Ok [x]
  | y :: rest =>
      match cmp x y with
      | Abort w => Abort w
      | Ok c =>
          if bool_decide (c < 0)%Z then Ok (x :: y :: rest)
          else
            match insertSorted cmp x rest with
            | Abort w => Abort w
            | Ok r => Ok (y :: r)
            end
      end
  end.

Fixpoint array_pod_sort_from (cmp : DeclId → DeclId → Res Z)
    (todo sorted : list DeclId) : Res (list DeclId) :=
  match todo with
  | [] => Ok sorted
  | x :: rest =>
      match insertSorted cmp x sorted with
      | Abort w => Abort w
      | Ok sorted' => array_pod_sort_from cmp rest sorted'
      end
  end.

Definition array_pod_sort (cmp : DeclId → DeclId → Res Z)
    (l : list DeclId) : Res (list DeclId) :=
  array_pod_sort_from cmp l [].

(** The part of [write] up to [declsToWrite.assign]: what is on the
    stack when the drain loop starts. *)
Definition sortedDecls (top : list DeclId) : Res (list DeclId) :=
  array_pod_sort compareDecls (filteredDecls top).

Definition sortedTopLevelDecls : Res (list DeclId) :=
  sortedDecls (topLevelDecls cfg).

(** The dispatch on the kind of declaration inside the loop. *)
Definition writeDecl (D : DeclId) : W bool :=
  match kind (decl D) with
  | KEnum => writeEnum cfg D
  | KClass => writeClass cfg D
  | k =>
      if inCxx then
        match k with
        | KFunc => writeFunc cfg D
        | KStruct => writeStruct cfg D
        | _ => ret true   (* FIXME: Warn on unsupported exported decl. *)
        end
      else if isValueDecl k then
        match k with
        | KProtocol => writeProtocol cfg D
        | KFunc => writeFunc cfg D
        | _ => abort "unknown top-level ObjC value decl"
        end
      else if bool_decide (k = KExtension) then writeExtension cfg D
      else abort "unknown top-level ObjC decl"
  end.

(** One iteration of [while (!declsToWrite.empty())], for a non-empty
    stack whose back is [D]. *)
Definition drainStep (D : DeclId) : W unit :=
  let* success := writeDecl D in
  if success then
    let* σ := get in
    match unsnoc (declsToWrite σ) with
    | Some (front, back) =>
        if bool_decide (back = D) then
          emit [OStr endl] ;;;
          modify (with_declsToWrite (λ _, front))
        else abort "assert(declsToWrite.back() == D)"
    | None => abort "assert(declsToWrite.back() == D)"
    end
  else ret tt.

(** The loop, with the number of iterations it may take: [None] when
    [fuel] iterations did not empty the stack. *)
Fixpoint drain (fuel : nat) (σ : ModuleWriter) : option (Res ModuleWriter) :=
  match unsnoc (declsToWrite σ) with
  | None => Some (Ok σ)
  | Some (_, D) =>
      match fuel with
      | 0 => None
      | S fuel' =>
          match drainStep D σ with
          | Abort w => Some (Abort w)
          | Ok (_, σ') => drain fuel' σ'
          end
      end
  end.

(** The maximal runs of consecutive delayed members with one declaration
    context, each handed to [printAdHocCategory]. *)
Fixpoint delayedGroups (groupBeginCtx : DeclId) (group : list DeclId)
    (rest : list DeclId) : list (list DeclId) :=
  match rest with
  | [] => [group]
  | i :: rest' =>
      if bool_decide (declContext (decl i) = groupBeginCtx)
      then delayedGroups groupBeginCtx (group ++ [i]) rest'
      else group :: delayedGroups (declContext (decl i)) [i] rest'
  end.

Definition printDelayedMembers : W unit :=
  let* σ := get in
  match delayedMembers σ with
  | [] => ret tt
  | first :: rest =>
      emit (OPrintAdHocCategory <$>
              delayedGroups (declContext (decl first)) [first] rest)
  end.

(** The Cxx-only loop that records the extensions of structs. *)
Definition recordStructExtensions : W unit :=
  if inCxx then
    let* σ := get in
    forEach (declsToWrite σ)
      (λ D, if bool_decide (kind (decl D) = KExtension) &&
               bool_decide (kind (decl (extendedNominal (decl D))) = KStruct)
            then modify (with_recordedExtensions
                           (λ l, l ++ [(extendedNominal (decl D), D)]))
            else ret tt)
  else ret tt.

(** Everything after the loop. *)
Definition finishWrite : W unit :=
  printDelayedMembers ;;;
  emit [OOutOfLineDefinitions].

(** [ModuleWriter::write] on a fresh writer, for the list [top] of
    top-level declarations of the module. *)
Definition writeDecls (top : list DeclId) (fuel : nat)
    : option (Res ModuleWriter) :=
  match sortedDecls top with
  | Abort w => Some (Abort w)
  | Ok sorted =>
      match recordStructExtensions
              (with_declsToWrite (λ _, sorted) initialWriter) with
      | Abort w => Some (Abort w)
      | Ok (_, σ0) =>
          match drain fuel σ0 with
          | None => None
          | Some (Abort w) => Some (Abort w)
          | Some (Ok σ1) =>
              match finishWrite σ1 with
              | Abort w => Some (Abort w)
              | Ok (_, σ2) => Some (Ok σ2)
              end
          end
      end
  end.

Definition write (fuel : nat) : option (Res ModuleWriter) :=
  writeDecls (topLevelDecls cfg) fuel.

End Write.

(** ** Relations between writer states, used to state the invariants *)

(** No regression: [NotYetDefined], then [DefinitionRequested], then
    [Defined]. *)
Definition EmissionState_le (a b : EmissionState) : Prop :=
  EmissionState_rank a ≤ EmissionState_rank b.

(** The declarations handed to [printer.print], in the order of the
    output. *)
Definition printedDecl (o : Out) : option DeclId :=
  match o with
  | OPrintDecl D => Some D
  | _ => None
  end.

Definition printedDecls (σ : ModuleWriter) : list DeclId :=
  omap printedDecl (os σ).

Definition isLocal (cfg : Config) (D : DeclId) : Prop :=
  moduleContext (decls cfg D) = M cfg.

(** The kinds of declaration whose definition the ledger records. *)
Definition isLedgerKind (k : DeclKind) : bool :=
  match k with KClass | KProtocol | KEnum => true | _ => false end.

(** [σ'] is a later state of the pass than [σ]: no emission state
    regresses, no forward-declared flag is cleared, the imports, the
    output and the delayed members only grow, and the extensions recorded
    before the loop stay as they are. *)
Record extends (σ σ' : ModuleWriter) : Prop := {
  ext_state : ∀ D, EmissionState_le (stateOf σ D).1 (stateOf σ' D).1;
  ext_forwardDeclared : ∀ D, (stateOf σ D).2 = true → (stateOf σ' D).2 = true;
  ext_imports : ∀ i, i ∈ imports σ → i ∈ imports σ';
  ext_os : os σ `prefix_of` os σ';
  ext_delayedMembers : ∀ m, m ∈ delayedMembers σ → m ∈ delayedMembers σ';
  ext_dependsOnStdlib : dependsOnStdlib σ = true → dependsOnStdlib σ' = true;
  ext_recordedExtensions : recordedExtensions σ' = recordedExtensions σ
}.

(** A later state reached without printing a declaration, without
    defining a local one and without taking anything off the stack. *)
Record advances (cfg : Config) (σ σ' : ModuleWriter) : Prop := {
  adv_extends : extends σ σ';
  adv_printed : printedDecls σ' = printedDecls σ;
  adv_localDefined : ∀ D, isLocal cfg D →
    (stateOf σ' D).1 = Defined → (stateOf σ D).1 = Defined;
  adv_stack : ∀ D, D ∈ declsToWrite σ → D ∈ declsToWrite σ'
}.

(** Every successful run of [m] relates the states by [R]. *)
Definition preserves {A} (R : relation ModuleWriter) (m : W A) : Prop :=
  ∀ σ a σ', m σ = Ok (a, σ') → R σ σ'.

(** The declarations a successful writer leaves [Defined]: classes and
    enums, and protocols when the output is Objective-C. *)
Definition mustDefine (cfg : Config) (D : DeclId) : Prop :=
  kind (decls cfg D) = KClass ∨ kind (decls cfg D) = KEnum ∨
  (kind (decls cfg D) = KProtocol ∧ outputLangMode cfg = ObjC).

Definition processed (cfg : Config) (σ : ModuleWriter) (D : DeclId) : Prop :=
  mustDefine cfg D → isLocal cfg D → (stateOf σ D).1 = Defined.

(** The step of a writer that hands [D] to the printer. *)
Record printsDecl (cfg : Config) (D : DeclId) (σ σ' : ModuleWriter) : Prop := {
  pr_extends : extends σ σ';
  pr_printed : printedDecls σ' = printedDecls σ ++ [D];
  pr_ledger : isLedgerKind (kind (decls cfg D)) = true →
    (stateOf σ D).1 ≠ Defined ∧ (stateOf σ' D).1 = Defined;
  pr_localDefined : ∀ D', isLocal cfg D' →
    (stateOf σ' D').1 = Defined → (stateOf σ D').1 = Defined ∨ D' = D;
  pr_extension : kind (decls cfg D) = KExtension →
    isEmptyExtensionDecl (printer cfg) D = false;
  pr_stack : ∀ D', D' ∈ declsToWrite σ → D' ∈ declsToWrite σ'
}.

(** What one call of the writer of [D] with result [b] does. *)
Definition writes (cfg : Config) (D : DeclId) (b : bool)
    (σ σ' : ModuleWriter) : Prop :=
  (advances cfg σ σ' ∨ (b = true ∧ printsDecl cfg D σ σ')) ∧
  (b = true → processed cfg σ' D).

(** The invariant of the drain loop; [top] are the declarations the
    loop started with. *)
Record PassInvariant (cfg : Config) (top : list DeclId)
    (σ : ModuleWriter) : Prop := {
  inv_printed_defined : ∀ D, D ∈ printedDecls σ →
    isLedgerKind (kind (decls cfg D)) = true → (stateOf σ D).1 = Defined;
  inv_printed_once :
    NoDup (filter (λ D, isLedgerKind (kind (decls cfg D)) = true)
                  (printedDecls σ));
  inv_defined_printed : ∀ D, isLocal cfg D →
    isLedgerKind (kind (decls cfg D)) = true →
    (stateOf σ D).1 = Defined → D ∈ printedDecls σ;
  inv_extension : ∀ D, D ∈ printedDecls σ →
    kind (decls cfg D) = KExtension →
    isEmptyExtensionDecl (printer cfg) D = false;
  inv_top : ∀ D, D ∈ top → D ∈ declsToWrite σ ∨ processed cfg σ D
}.

(** The state after [n] iterations of the drain loop (fewer when the
    stack is empty before). *)
Fixpoint drainSteps (cfg : Config) (n : nat) (σ : ModuleWriter)
    : Res ModuleWriter :=
  match n with
  | 0 => Ok σ
  | S n' =>
      match unsnoc (declsToWrite σ) with
      | None => Ok σ
      | Some (_, D) =>
          match drainStep cfg D σ with
          | Abort w => Abort w
          | Ok (_, σ') => drainSteps cfg n' σ'
          end
      end
  end.

(** The writer as [write] has it when the loop starts, and after [n]
    iterations of the loop. *)
Definition passStart (cfg : Config) : Res ModuleWriter :=
  match sortedTopLevelDecls cfg with
  | Abort w => Abort w
  | Ok sorted =>
      match recordStructExtensions cfg
              (with_declsToWrite (λ _, sorted) initialWriter) with
      | Abort w => Abort w
      | Ok (_, σ0) => Ok σ0
      end
  end.

Definition passState (cfg : Config) (n : nat) : Res ModuleWriter :=
  match passStart cfg with
  | Abort w => Abort w
  | Ok σ0 => drainSteps cfg n σ0
  end.

(** Two states that differ at most in the recorded extensions. *)
Definition sameButRecordedExtensions (σ σ' : ModuleWriter) : Prop :=
  os σ' = os σ ∧ imports σ' = imports σ ∧ seenTypes σ' = seenTypes σ ∧
  seenClangTypes σ' = seenClangTypes σ ∧
  declsToWrite σ' = declsToWrite σ ∧ delayedMembers σ' = delayedMembers σ ∧
  dependsOnStdlib σ' = dependsOnStdlib σ.

(** How often [D] was handed to the printer. *)
Definition timesPrinted (σ : ModuleWriter) (D : DeclId) : nat :=
  length (filter (λ D', D' = D) (printedDecls σ)).

(** A state with the same schedule: the same stack and the same
    emission states. *)
Definition sameSchedule (σ σ' : ModuleWriter) : Prop :=
  declsToWrite σ' = declsToWrite σ ∧
  ∀ D, (stateOf σ' D).1 = (stateOf σ D).1.

(** The declaration the member callback works on: bridged unless the
    header is C++. *)
Definition bridged (cfg : Config) (TD : DeclId) : DeclId :=
  if negb (bool_decide (outputLangMode cfg = Cxx))
  then getObjCTypeDecl (printer cfg) TD else TD.

(** The members that [forwardDeclareMemberTypes] schedules as nested
    types. *)
Definition isScheduledNestedType (cfg : Config) (member : DeclId) : bool :=
  isValueDecl (kind (decls cfg member)) &&
  shouldInclude (printer cfg) member &&
  isTypeDecl (kind (decls cfg member)) &&
  hasExplicitObjCAttr cfg member.

Definition scheduledNestedTypes (cfg : Config) (members : list DeclId)
    : list DeclId :=
  filter (λ member, isScheduledNestedType cfg member = true) members.

(** [U] is a full-definition dependency of a member of [members] that
    is not itself a type: what the callback may [require]. *)
Definition isMemberDependency (cfg : Config) (container : DeclId)
    (members : list DeclId) (U : DeclId) : Prop :=
  ∃ member TD,
    member ∈ members ∧
    isValueDecl (kind (decls cfg member)) = true ∧
    shouldInclude (printer cfg) member = true ∧
    isTypeDecl (kind (decls cfg member)) = false ∧
    (TD, true) ∈ ReferencedTypeFinder_walk cfg
                   (interfaceType (decls cfg member)) ∧
    TD ≠ container ∧
    U = bridged cfg TD ∧
    isNominalTypeDecl (kind (decls cfg U)) = true.

(** [U] was pushed by [require] from the member callback of
    [container] between the states [σ0] and [σe]. *)
Definition pushedMember (cfg : Config) (container : DeclId)
    (σ0 σe : ModuleWriter) (U : DeclId) : Prop :=
  isLocal cfg U ∧
  (stateOf σe U).1 = DefinitionRequested ∧
  (stateOf σ0 U).1 ≠ Defined ∧
  (kind (decls cfg container) = KProtocol →
   hasBeenRequested σ0 container = false ∨ hasBeenRequested σ0 U = false).

(** ** The ordering as the specification words it

    "Comparator, evaluated in priority order until a tie is broken:
    1. descending by user-facing name; 2. a plain declaration sorts
    before an extension of the same name; 3. among two extensions, the
    one with fewer members sorts later; 4. tie-break by number of
    locally-declared conformances (fewer sorts later); 5. tie-break by
    lexicographic comparison of conformance names", "applied during a
    stable sort", the result then reversed. *)

Definition sortNameOf (cfg : Config) (D : DeclId) : string :=
  match getSortName cfg D with
  | Ok name => name
  | Abort _ => ""
  end.

Fixpoint spec_compareNames (l r : list string) : Z :=
  match l, r with
  | [], [] => 0%Z
  | [], _ :: _ => (-1)%Z
  | _ :: _, [] => 1%Z
  | x :: l', y :: r' =>
      if bool_decide (StringRef_compare x y = 0%Z) then spec_compareNames l' r'
      else StringRef_compare x y
  end.

(** Negative when [lhs] sorts before [rhs]. *)
Definition spec_compareDecls (cfg : Config) (lhs rhs : DeclId) : Z :=
  let byName := StringRef_compare (sortNameOf cfg rhs) (sortNameOf cfg lhs) in
  let lhsPlain := isValueDecl (kind (decls cfg lhs)) in
  let rhsPlain := isValueDecl (kind (decls cfg rhs)) in
  let numLHSMembers := length (members (decls cfg lhs)) in
  let numRHSMembers := length (members (decls cfg rhs)) in
  let numLHSProtos := length (localProtocols (decls cfg lhs)) in
  let numRHSProtos := length (localProtocols (decls cfg rhs)) in
  if negb (bool_decide (byName = 0%Z)) then byName
  else if lhsPlain && negb rhsPlain then (-1)%Z
  else if negb lhsPlain && rhsPlain then 1%Z
  else if bool_decide (numLHSMembers < numRHSMembers) then 1%Z
  else if bool_decide (numRHSMembers < numLHSMembers) then (-1)%Z
  else if bool_decide (numLHSProtos < numRHSProtos) then 1%Z
  else if bool_decide (numRHSProtos < numLHSProtos) then (-1)%Z
  else spec_compareNames
         ((λ p, declName (decls cfg p)) <$> localProtocols (decls cfg lhs))
         ((λ p, declName (decls cfg p)) <$> localProtocols (decls cfg rhs)).

Definition spec_stableSort (cfg : Config) (top : list DeclId)
    : Res (list DeclId) :=
  array_pod_sort (λ lhs rhs, Ok (spec_compareDecls cfg lhs rhs))
    (filteredDecls cfg top).

Definition spec_order (cfg : Config) (top : list DeclId) : Res (list DeclId) :=
  match spec_stableSort cfg top with
  | Ok l => Ok (rev l)
  | Abort w => Abort w
  end.

(** [lhs] is not placed after [rhs] by the comparator of the code. *)
Definition notAfter (cfg : Config) (lhs rhs : DeclId) : Prop :=
  ∃ c, compareDecls cfg lhs rhs = Ok c ∧ (c ≤ 0)%Z.

(** [lhs] is placed before [rhs] by the comparator of the code. *)
Definition strictlyBefore (cfg : Config) (lhs rhs : DeclId) : Prop :=
  ∃ c, compareDecls cfg lhs rhs = Ok c ∧ (c < 0)%Z.

(** The sort key the comparator of the code goes by, and its order:
    the name descending, an extension before a plain declaration, more
    members first, more conformances first. *)
Definition keyBefore (cfg : Config) (a b : DeclId) : Prop :=
  let na := sortNameOf cfg a in
  let nb := sortNameOf cfg b in
  let va := isValueDecl (kind (decls cfg a)) in
  let vb := isValueDecl (kind (decls cfg b)) in
  let ma := length (members (decls cfg a)) in
  let mb := length (members (decls cfg b)) in
  let pa := length (localProtocols (decls cfg a)) in
  let pb := length (localProtocols (decls cfg b)) in
  String.compare nb na = Lt ∨
  (na = nb ∧
   ((va = false ∧ vb = true) ∨
    (va = vb ∧ (mb < ma ∨ (ma = mb ∧ pb < pa))))).

(** ** What the termination of the loop rests on *)

(** [isMemberDependency], as a list. *)
Definition memberDependencies (cfg : Config) (container : DeclId)
    (members : list DeclId) : list DeclId :=
  members ≫= λ member,
    if isValueDecl (kind (decls cfg member)) &&
       shouldInclude (printer cfg) member &&
       negb (isTypeDecl (kind (decls cfg member)))
    then
      ReferencedTypeFinder_walk cfg (interfaceType (decls cfg member)) ≫= λ r,
        if r.2 && negb (bool_decide (r.1 = container)) &&
           isNominalTypeDecl (kind (decls cfg (bridged cfg r.1)))
        then [bridged cfg r.1] else []
    else [].

(** [U] was pushed by [require] between the states [σ0] and [σe]. *)
Definition pushedDecl (cfg : Config) (σ0 σe : ModuleWriter) (U : DeclId)
    : Prop :=
  isLocal cfg U ∧
  (stateOf σe U).1 = DefinitionRequested ∧
  (stateOf σ0 U).1 ≠ Defined.

Section WellFormed.
Context (cfg : Config) (univ : list DeclId) (rk nrk : DeclId → nat).

(** [U] is a known declaration of lower rank than [D]. *)
Definition lowerIn (D U : DeclId) : bool :=
  bool_decide (U ∈ univ) && bool_decide (rk U < rk D).

Definition protocolsLower (D : DeclId) (protos : list DeclId) : bool :=
  forallb (λ P, negb (shouldInclude (printer cfg) P) ||
                (bool_decide (kind (decls cfg P) = KProtocol) && lowerIn D P))
          protos.

Definition classLower (D : DeclId) (C : option DeclId) : bool :=
  match C with
  | Some C => bool_decide (kind (decls cfg C) = KClass) && lowerIn D C
  | None => true
  end.

(** What is assumed of one declaration [D]:
    - the superclass of a class is a class, its included protocols and
      the included protocols a protocol inherits are protocols, the
      class an extension extends is a class, and all of them are known
      and of lower rank [rk] than [D]: inheritance has no cycle;
    - the full-definition dependencies of the members of an extension
      are known and of lower rank, those of the members of a protocol
      are known (they may form cycles);
    - the nested types that are scheduled with [D] are known and nested
      more deeply ([nrk]) than [D], and those of an extension more
      deeply than the extended type. *)
Definition wellFormedDecl (D : DeclId) : bool :=
  let d := decls cfg D in
  match kind d with
  | KClass =>
      classLower D (superclassDecl d) && protocolsLower D (localProtocols d)
  | KProtocol =>
      protocolsLower D (inheritedProtocols d) &&
      forallb (λ U, bool_decide (U ∈ univ))
              (memberDependencies cfg D (members d))
  | KExtension =>
      classLower D (selfClassDecl d) &&
      protocolsLower D (localProtocols d) &&
      forallb (lowerIn D) (memberDependencies cfg D (members d)) &&
      forallb (λ N, bool_decide (N ∈ univ) &&
                    bool_decide (nrk N < nrk (extendedNominal d)))
              (scheduledNestedTypes cfg (members d))
  | _ => true
  end &&
  forallb (λ N, bool_decide (N ∈ univ) && bool_decide (nrk N < nrk D))
          (scheduledNestedTypes cfg (members d)).

Definition wellFormedGraph : bool := forallb wellFormedDecl univ.

(** The measure: how many known declarations are not yet defined, and
    how many have not been requested. *)
Definition notDefinedCount (σ : ModuleWriter) : nat :=
  length (filter (λ U, (stateOf σ U).1 ≠ Defined) univ).

Definition notYetCount (σ : ModuleWriter) : nat :=
  length (filter (λ U, (stateOf σ U).1 = NotYetDefined) univ).

(** Only known declarations are on the stack, and the recorded
    extensions are known extensions of the type they are recorded for. *)
Record Scheduled (σ : ModuleWriter) : Prop := {
  sch_stack : Forall (λ D, D ∈ univ) (declsToWrite σ);
  sch_recorded :
    Forall (λ p, p.2 ∈ univ ∧ kind (decls cfg p.2) = KExtension ∧
                 p.1 = extendedNominal (decls cfg p.2))
           (recordedExtensions σ)
}.

(** A successful writer leaves such a declaration [Defined]. *)
Definition settles (D : DeclId) : Prop :=
  kind (decls cfg D) = KClass ∨ kind (decls cfg D) = KEnum ∨
  ((kind (decls cfg D) = KProtocol ∨ kind (decls cfg D) = KStruct) ∧
   outputLangMode cfg = ObjC).

Definition settled (σ : ModuleWriter) (D : DeclId) : Prop :=
  isLocal cfg D → settles D → (stateOf σ D).1 = Defined.

(** What is pushed for a requirement of [D]: a known declaration of
    lower rank whose writer leaves it [Defined]. *)
Definition requirementOf (D : DeclId) (σ σ' : ModuleWriter) (U : DeclId)
    : Prop :=
  U ∈ univ ∧ pushedDecl cfg σ σ' U ∧ settles U ∧ rk U < rk D.

(** The loop started in [σ] aborts, or reaches a state with [Q]. *)
Definition eventually (σ : ModuleWriter) (Q : ModuleWriter → Prop) : Prop :=
  (∃ n w, drainSteps cfg n σ = Abort w) ∨
  (∃ n σ', drainSteps cfg n σ = Ok σ' ∧ Q σ').

(** What one attempt at the declaration [D] on top of [rest] leaves on
    the stack: after a success the nested types of [D] under [D];
    after a failure [D], and above it new entries the last of which,
    [U], was pushed by [require]. *)
Definition attemptResult (rest : list DeclId) (D : DeclId) (b : bool)
    (σ σ' : ModuleWriter) : Prop :=
  if b then
    ∃ ins, declsToWrite σ' = rest ++ ins ++ [D] ∧
           Forall (λ N, N ∈ univ ∧ nrk N < nrk D) ins
  else
    ∃ L U, declsToWrite σ' = rest ++ [D] ++ L ++ [U] ∧
           Forall (λ X, X ∈ univ) L ∧ U ∈ univ ∧
           pushedDecl cfg σ σ' U ∧ settles U ∧
           (hasBeenRequested σ D = false ∨ rk U < rk D ∨
            hasBeenRequested σ U = false).

(** The entry of [D] on top of [rest] has been dealt with. *)
Definition entryDone (rest : list DeclId) (D : DeclId)
    (σ σ' : ModuleWriter) : Prop :=
  ∃ ins, declsToWrite σ' = rest ++ ins ∧
         Forall (λ N, N ∈ univ ∧ nrk N < nrk D) ins ∧
         Scheduled σ' ∧ extends σ σ' ∧ settled σ' D.

(** All the entries above [rest] have been dealt with. *)
Definition entriesDone (rest : list DeclId) (σ σ' : ModuleWriter) : Prop :=
  declsToWrite σ' = rest ∧ Scheduled σ' ∧ extends σ σ'.

(** [0] once [D] has been requested, [1] before. *)
Definition requestRank (σ : ModuleWriter) (D : DeclId) : nat :=
  if hasBeenRequested σ D then 0 else 1.

(** The loop deals with the entry on top of the stack, for every state
    within the bounds: at most [nd] known declarations not yet defined,
    at most [ny] not yet requested, the top entry of request rank at
    most [st] and of rank at most [r]. *)
Definition attemptTerminates (nd ny st r : nat) : Prop :=
  ∀ σ rest D,
    Scheduled σ → declsToWrite σ = rest ++ [D] →
    notDefinedCount σ ≤ nd → notYetCount σ ≤ ny →
    requestRank σ D ≤ st → rk D ≤ r →
    eventually σ (entryDone rest D σ).

(** The loop deals with any number of entries on top of the stack. *)
Definition entriesTerminate (nd : nat) : Prop :=
  ∀ σ rest L,
    Scheduled σ → declsToWrite σ = rest ++ L →
    notDefinedCount σ ≤ nd →
    eventually σ (entriesDone rest σ).

End WellFormed.

(** ** One attempt at the back of the stack *)

(** What an attempt at [D], the back of the stack above [rest], leaves
    on the stack: after a success [D] is still the back, with nested
    types inserted below it; after a failure there are new entries above
    [D], the last of them pushed by [require]. *)
Definition attemptStack (cfg : Config) (rest : list DeclId) (D : DeclId)
    (b : bool) (σ σ' : ModuleWriter) : Prop :=
  if b then
    ∃ ins, declsToWrite σ' = rest ++ ins ++ [D] ∧
           Forall (λ N, isScheduledNestedType cfg N = true) ins
  else
    ∃ L U, declsToWrite σ' = rest ++ [D] ++ L ++ [U] ∧
           pushedDecl cfg σ σ' U.

(** ** Types that mention a bound generic type *)

(** Whether a bound generic type occurs in [ty], an alias counted with
    the type it stands for. *)
Fixpoint mentionsBoundGeneric (ty : Ty) : bool :=
  match ty with
  | NominalType _ => false
  | TypeAliasType _ underlying => mentionsBoundGeneric underlying
  | BoundGenericType _ _ => true
  | OtherType children => existsb mentionsBoundGeneric children
  end.

(** The condition under which [write] keeps a top-level declaration:
    the negation of the predicate handed to [std::remove_if]. *)
Definition keptAtTopLevel (cfg : Config) (D : DeclId) : Prop :=
  (isValueDecl (kind (decls cfg D)) = true ∧
   shouldInclude (printer cfg) D = true) ∨
  (isValueDecl (kind (decls cfg D)) = false ∧
   kind (decls cfg D) = KExtension ∧
   (outputLangMode cfg = Cxx ∨
    ∃ baseClass, selfClassDecl (decls cfg D) = Some baseClass ∧
                 shouldInclude (printer cfg) baseClass = true ∧
                 isForeign (decls cfg baseClass) = false)).

(** ** What a declaration waits for *)

(** The declarations the writer of [D] calls [require] for before it
    looks at the members: the superclass and the included protocols of
    a class (the protocols in an Objective-C header only), the included
    protocols a protocol inherits, the class and the included protocols
    of an extension. *)
Definition requirementsOf (cfg : Config) (D : DeclId) : list DeclId :=
  let d := decls cfg D in
  let included := List.filter (shouldInclude (printer cfg)) in
  match kind d with
  | KClass =>
      option_list (superclassDecl d) ++
      (if bool_decide (outputLangMode cfg = Cxx) then []
       else included (localProtocols d))
  | KProtocol => included (inheritedProtocols d)
  | KExtension =>
      option_list (selfClassDecl d) ++ included (localProtocols d)
  | _ => []
  end.

(** What one call of the writer of [D] hands to the printer: nothing,
    or [D] alone, and then [D] is local unless it is an extension, and
    the local declarations [D] waits for were [Defined] beforehand. *)
Definition printedBy (cfg : Config) (D : DeclId) (σ σ' : ModuleWriter)
    : Prop :=
  printedDecls σ' = printedDecls σ ∨
  (printedDecls σ' = printedDecls σ ++ [D] ∧
   (kind (decls cfg D) ≠ KExtension → isLocal cfg D) ∧
   ∀ R, R ∈ requirementsOf cfg D → isLocal cfg R →
        (stateOf σ R).1 = Defined).

(** ** Where imports and delayed members come from *)

(** What [addImport] can add to the import set: a Swift module other
    than the module emitted, the standard library, [Builtin] and
    [simd], in a C++ header not the Clang header module either; or an
    explicit Clang module. *)
Definition allowedImport (cfg : Config) (i : ImportModuleTy) : Prop :=
  match i with
  | ImportSwift m =>
      m ≠ M cfg ∧ isStdlibModule m = false ∧ isBuiltinModule m = false ∧
      modName m ≠ Id_simd cfg ∧
      (outputLangMode cfg = Cxx → modName m ≠ CLANG_HEADER_MODULE_NAME cfg)
  | ImportClang c => cmIsExplicit c = true
  end.

(** A member that [forwardDeclareMemberTypes] can delay individually:
    an included value member of a class that is not a type. *)
Definition delayableMember (cfg : Config) (m : DeclId) : Prop :=
  ∃ CD, kind (decls cfg CD) = KClass ∧ m ∈ members (decls cfg CD) ∧
        isValueDecl (kind (decls cfg m)) = true ∧
        shouldInclude (printer cfg) m = true ∧
        isTypeDecl (kind (decls cfg m)) = false.

(** The imports and the delayed members of [σ'] that [σ] does not have
    are of these kinds. *)
Definition provenance (cfg : Config) (σ σ' : ModuleWriter) : Prop :=
  (∀ i, i ∈ imports σ' → i ∈ imports σ ∨ allowedImport cfg i) ∧
  (∀ m, m ∈ delayedMembers σ' →
        m ∈ delayedMembers σ ∨ delayableMember cfg m).

(** ** Requests that are still open *)

(** Between [σ] and [σ'] nothing left the stack, and a declaration that
    is [DefinitionRequested] in [σ'] was so in [σ] already or is a
    local declaration on the stack of [σ']. *)
Definition requestsKept (cfg : Config) (σ σ' : ModuleWriter) : Prop :=
  (∀ D, D ∈ declsToWrite σ → D ∈ declsToWrite σ') ∧
  (∀ D, (stateOf σ' D).1 = DefinitionRequested →
        (stateOf σ D).1 = DefinitionRequested ∨
        (isLocal cfg D ∧ D ∈ declsToWrite σ')).

(** Every class, enum or (Objective-C) protocol whose definition has
    been requested and not yet given is local and on the stack. *)
Definition requestsPending (cfg : Config) (σ : ModuleWriter) : Prop :=
  ∀ D, (stateOf σ D).1 = DefinitionRequested → mustDefine cfg D →
       isLocal cfg D ∧ D ∈ declsToWrite σ.

(** ** A small module used to exercise the emitter

    [App] declares classes [A], [B], [C] and [Loop], protocols [P] and
    [Q], and extensions of [A], one of them with two nested classes;
    [Swift] and [Foundation] are foreign modules. *)

Definition ex_App : ModuleDecl :=
  {| modName := "App"; isStdlibModule := false; isBuiltinModule := false |}.
Definition ex_Swift : ModuleDecl :=
  {| modName := "Swift"; isStdlibModule := true; isBuiltinModule := false |}.
Definition ex_Foundation : ModuleDecl :=
  {| modName := "Foundation"; isStdlibModule := false;
     isBuiltinModule := false |}.
Definition ex_FoundationClang : ClangModule :=
  ClangTopLevelModule "Foundation" true.

Definition ex_decl (k : DeclKind) (m : ModuleDecl)
    (clang : option (option ClangModule)) (name : string)
    (attributes : list DeclAttribute) (ty : Ty) (mems : list DeclId)
    (super : option DeclId) (protos inherited : list DeclId)
    (self : option DeclId) (params : list GenericParam) : Decl :=
  {| kind := k; moduleContext := m; clangNode := clang; declName := name;
     attrs := attributes; interfaceType := ty; members := mems;
     declContext := default 0 self; superclassDecl := super;
     localProtocols := protos; inheritedProtocols := inherited;
     selfClassDecl := self; extendedNominal := default 0 self;
     genericParams := params; isCompatibilityAlias := false;
     isGeneric := false; isObjC := true; isForeign := false;
     isForeignCFType := false; isOSObject := false;
     isErrorProtocol := false; rawType := OtherType [];
     conformsToError := false; hasDomainCase := false |}.

Definition ex_local (k : DeclKind) (name : string) (ty : Ty)
    (mems : list DeclId) (super : option DeclId) (protos : list DeclId)
    (self : option DeclId) : Decl :=
  ex_decl k ex_App None name [] ty mems super protos [] self [].

Definition ex_decls (D : DeclId) : Decl :=
  match D with
  | 1 => ex_local KClass "A" (OtherType []) [] None [] None
  | 2 => ex_local KExtension "" (OtherType []) [20] None [] (Some 1)
  | 3 => ex_local KClass "B" (OtherType []) [] None [] None
  | 4 => ex_local KExtension "" (OtherType []) [21] None [] (Some 1)
  | 5 => ex_local KProtocol "P" (OtherType []) [22] None [] None
  | 6 => ex_local KProtocol "Q" (OtherType []) [] None [] None
  | 7 => ex_local KClass "Loop" (OtherType []) [] (Some 7) [] None
  | 8 => ex_decl KStruct ex_Swift None "Int" [] (OtherType []) []
           None [] [] None []
  | 9 => ex_local KClass "C" (OtherType []) [23] None [] None
  | 10 => ex_decl KStruct ex_Swift None "Array" [] (OtherType []) []
            None [] [] None
            [{| superclassBound := None; requiredProtocols := [] |}]
  | 12 => ex_local KExtension "" (OtherType []) [] None [] (Some 1)
  | 20 => ex_local KFunc "f" (OtherType []) [] None [] (Some 2)
  | 21 => ex_local KFunc "g" (OtherType []) [] None [] (Some 4)
  | 22 => ex_local KFunc "h"
            (OtherType [BoundGenericType 30 [NominalType 6]]) [] None []
            (Some 5)
  | 23 => ex_local KFunc "count" (OtherType [NominalType 8]) [] None []
            (Some 9)
  | 40 => ex_local KExtension "" (OtherType []) [41; 42; 43] None [] (Some 1)
  | 41 => ex_decl KClass ex_App None "Implicit"
            [{| isObjCAttr := true; isImplicit := true |}]
            (OtherType []) [] None [] [] (Some 40) []
  | 42 => ex_local KFunc "box"
            (OtherType [BoundGenericType 30 [NominalType 41]]) [] None []
            (Some 40)
  | 43 => ex_decl KClass ex_App None "Explicit"
            [{| isObjCAttr := true; isImplicit := false |}]
            (OtherType []) [] None [] [] (Some 40) []
  | 30 => ex_decl KClass ex_Foundation (Some (Some ex_FoundationClang))
            "NSBox" [] (OtherType []) [] None [] [] None
            [{| superclassBound := None; requiredProtocols := [5] |}]
  | _ => ex_local KOtherDecl "" (OtherType []) [] None [] None
  end.

Definition ex_printer : Printer :=
  {| shouldInclude := λ _, true;
     isEmptyExtensionDecl := λ D, bool_decide (D = 12);
     getObjCTypeDecl := λ D, D |}.

Definition ex_cfg (top : list DeclId) (mode : OutputLanguageMode) : Config :=
  {| M := ex_App; decls := ex_decls; topLevelDecls := top;
     outputLangMode := mode; printer := ex_printer;
     Id_simd := "simd"; CLANG_HEADER_MODULE_NAME := "__ObjC" |}.

(** A writer in which [D] has been requested and is on the stack. *)
Definition ex_requested (D : DeclId) : ModuleWriter :=
  with_seenTypes (insert D (DefinitionRequested, false))
    (with_declsToWrite (λ _, [D]) initialWriter).

(** The outcome of a pass over [top] with enough fuel. *)
Definition ex_pass (top : list DeclId) (mode : OutputLanguageMode)
    : ModuleWriter :=
  match write (ex_cfg top mode) 20 with
  | Some (Ok σ) => σ
  | _ => initialWriter
  end.

Definition ex_noFlags : MemberFlags :=
  {| needsToBeIndividuallyDelayed := false; hadAnyDelayedMembers := false |}.

(** A writer in which both [P] and [Q] have been requested. *)
Definition ex_bothRequested : ModuleWriter :=
  with_seenTypes (insert 5 (DefinitionRequested, false)) (ex_requested 6).

(** The declarations a pass over [P], the extension [40] of [A], [A]
    and [B] may meet, the foreign class [NSBox] among them; the
    extension ranks above what it requires, and the classes nested in it
    are nested more deeply than anything else. *)
Definition ex_univ : list DeclId := [1; 3; 5; 6; 30; 40; 41; 43].

Definition ex_rk (D : DeclId) : nat :=
  match D with 40 => 1 | _ => 0 end.

Definition ex_nrk (D : DeclId) : nat :=
  match D with 41 | 43 => 0 | _ => 1 end.

(** ** A second small module

    [Shop] declares the classes [Cart] and [Item], the struct [Price]
    and the protocols [Sellable] and [Plain]. The method [add] of
    [Cart] takes an [NSBox<Item>]; [NSBox] is the foreign generic class
    of the first module, whose parameter is constrained. [Plain] is not
    [@objc], and [Sellable] inherits from it. *)

Definition ex_Shop : ModuleDecl :=
  {| modName := "Shop"; isStdlibModule := false; isBuiltinModule := false |}.

Definition ex_shopDecl (k : DeclKind) (name : string) (ty : Ty)
    (mems : list DeclId) (inherited : list DeclId) (ctx : DeclId)
    (objc : bool) : Decl :=
  {| kind := k; moduleContext := ex_Shop; clangNode := None;
     declName := name; attrs := []; interfaceType := ty; members := mems;
     declContext := ctx; superclassDecl := None; localProtocols := [];
     inheritedProtocols := inherited; selfClassDecl := None;
     extendedNominal := 0; genericParams := [];
     isCompatibilityAlias := false; isGeneric := false; isObjC := objc;
     isForeign := false; isForeignCFType := false; isOSObject := false;
     isErrorProtocol := false; rawType := OtherType [];
     conformsToError := false; hasDomainCase := false |}.

Definition ex_shopDecls (D : DeclId) : Decl :=
  match D with
  | 1 => ex_shopDecl KClass "Cart" (OtherType []) [10] [] 0 true
  | 2 => ex_shopDecl KClass "Item" (OtherType []) [] [] 0 true
  | 3 => ex_shopDecl KStruct "Price" (OtherType []) [] [] 0 true
  | 4 => ex_shopDecl KProtocol "Sellable" (OtherType []) [] [5] 0 true
  | 5 => ex_shopDecl KProtocol "Plain" (OtherType []) [] [] 0 false
  | 10 => ex_shopDecl KFunc "add"
            (OtherType [BoundGenericType 30 [NominalType 2]]) [] [] 1 true
  | 30 => ex_decls 30
  | _ => ex_shopDecl KOtherDecl "" (OtherType []) [] [] 0 true
  end.

Definition ex_shop (top : list DeclId) (mode : OutputLanguageMode) : Config :=
  {| M := ex_Shop; decls := ex_shopDecls; topLevelDecls := top;
     outputLangMode := mode; printer := ex_printer;
     Id_simd := "simd"; CLANG_HEADER_MODULE_NAME := "__ObjC" |}.

(** The writer a computation leaves behind, and the writer with [l] on
    the stack and nothing else. *)
Definition ex_after {A} (r : Res (A * ModuleWriter)) : ModuleWriter :=
  match r with
  | Ok (_, σ) => σ
  | Abort _ => initialWriter
  end.

Definition ex_stack (l : list DeclId) : ModuleWriter :=
  with_declsToWrite (λ _, l) initialWriter.

(** The outcome of a pass over the second module. *)
Definition ex_shopPass (top : list DeclId) (mode : OutputLanguageMode)
    : ModuleWriter :=
  match write (ex_shop top mode) 20 with
  | Some (Ok σ) => σ
  | _ => initialWriter
  end.

(** * Properties *)

(** ** The ledger: [require] *)

Lemma unsnoc_snoc {A} (l : list A) (x : A) : unsnoc (l ++ [x]) = Some (l, x).
Proof.
  induction l as [|y l IH]; simpl; [done|].
  by rewrite IH.
Qed.

Lemma unsnoc_Some {A} (l r : list A) (x : A) :
  unsnoc l = Some (r, x) → l = r ++ [x].
Proof.
  revert r. induction l as [|y l IH]; intros r; simpl; [done|].
  destruct (unsnoc l) as [[r' z]|] eqn:E.
  - intros [= <- <-]. simpl. f_equal. by apply IH.
  - intros [= <- <-]. by destruct l as [|? l]; [|simpl in E; destruct (unsnoc l) as [[??]|]].
Qed.

Lemma unsnoc_None {A} (l : list A) : unsnoc l = None → l = [].
Proof.
  destruct l as [|x l]; [done|]. simpl. by destruct (unsnoc l) as [[??]|].
Qed.

Lemma stateOf_with_seenTypes_insert σ D st D' :
  stateOf (with_seenTypes (insert D st) σ) D' =
  if decide (D = D') then st else stateOf σ D'.
Proof.
  unfold stateOf. simpl. rewrite lookup_insert.
  by destruct (decide (D = D')).
Qed.

Lemma addImport_local cfg D σ :
  moduleContext (decls cfg D) = M cfg → addImport cfg D σ = Ok (false, σ).
Proof.
  intros H. unfold addImport. by rewrite bool_decide_eq_true_2.
Qed.

(** C1 (as the code has it). For a local declaration [D] that is already
    [DefinitionRequested], [require D] reports not-yet-satisfied and
    leaves the ledger, the output and the imports as they are; it does
    push [D] onto the work stack once more. *)
Theorem require_DefinitionRequested cfg D σ :
  moduleContext (decls cfg D) = M cfg →
  (stateOf σ D).1 = DefinitionRequested →
  ∃ σ', require cfg D σ = Ok (false, σ') ∧
        (∀ D', stateOf σ' D' = stateOf σ D') ∧
        declsToWrite σ' = declsToWrite σ ++ [D] ∧
        os σ' = os σ ∧ imports σ' = imports σ ∧
        delayedMembers σ' = delayedMembers σ.
Proof.
  intros Hlocal Hreq. unfold require, bind.
  rewrite addImport_local by done. simpl. rewrite Hreq. simpl.
  eexists. split; [reflexivity|]. repeat split.
  intros D'. unfold stateOf in *. simpl. rewrite lookup_insert.
  destruct (decide (D = D')) as [<-|]; [|done].
  simpl. rewrite <- Hreq. by destruct (default _ _).
Qed.

Lemma require_DefinitionRequested_witness :
  ∃ σ', require (ex_cfg [] ObjC) 1 (ex_requested 1) = Ok (false, σ') ∧
        (∀ D', stateOf σ' D' = stateOf (ex_requested 1) D') ∧
        declsToWrite σ' = declsToWrite (ex_requested 1) ++ [1] ∧
        os σ' = os (ex_requested 1) ∧ imports σ' = imports (ex_requested 1) ∧
        delayedMembers σ' = delayedMembers (ex_requested 1).
Proof.
  apply (require_DefinitionRequested (ex_cfg [] ObjC) 1 (ex_requested 1));
    reflexivity.
Defined.

(** C1 fails as stated: [A] is local, requested and on the stack once;
    after [require A] the stack holds it twice. *)
Lemma require_DefinitionRequested_pushes_again :
  moduleContext (decls (ex_cfg [] ObjC) 1) = M (ex_cfg [] ObjC) ∧
  (stateOf (ex_requested 1) 1).1 = DefinitionRequested ∧
  declsToWrite (ex_requested 1) = [1] ∧
  ∃ σ', require (ex_cfg [] ObjC) 1 (ex_requested 1) = Ok (false, σ') ∧
        declsToWrite σ' = [1; 1] ∧
        ¬ NoDup (declsToWrite σ').
Proof.
  repeat split. eexists. split; [vm_compute; reflexivity|].
  split; [reflexivity|].
  simpl. intros H. apply NoDup_cons in H as [H _]. apply H. by left.
Qed.

(** ** Empty extensions *)

(** C9. An extension without printable members is written successfully
    and at once: the writer comes back unchanged, so nothing was
    written, imported, required or scheduled. *)
Theorem writeExtension_empty cfg ED σ :
  isEmptyExtensionDecl (printer cfg) ED = true →
  writeExtension cfg ED σ = Ok (true, σ).
Proof.
  intros H. unfold writeExtension. by rewrite H.
Qed.

Lemma writeExtension_empty_witness :
  writeExtension (ex_cfg [1; 12] ObjC) 12 (ex_requested 1) =
  Ok (true, ex_requested 1).
Proof.
  apply (writeExtension_empty (ex_cfg [1; 12] ObjC) 12 (ex_requested 1)).
  reflexivity.
Defined.

(** ** The dependency finder: bound generic types *)

Lemma for_each_genericArg_reports cfg isObjCGeneric args params :
  (for_each_genericArg (walkTy cfg) isObjCGeneric args params false).1 =
  mjoin (zip_with
           (λ argTy paramTy,
              (walkTy cfg argTy (isObjCGeneric && isConstrained paramTy)).1)
           args params).
Proof.
  revert params. induction args as [|argTy args IH]; intros [|paramTy params];
    simpl; try done.
  rewrite IH. by destruct (isObjCGeneric && isConstrained paramTy).
Qed.

Lemma for_each_genericArg_flag cfg isObjCGeneric args params :
  (for_each_genericArg (walkTy cfg) isObjCGeneric args params false).2 = false.
Proof.
  revert params. induction args as [|argTy args IH]; intros [|paramTy params];
    simpl; auto.
Qed.

(** C5 (as the code has it). For a bound generic type the base
    declaration is reported first and as needing a full definition. The
    walk of each generic argument then starts with [NeedsDefinition] set
    exactly when the base has a Clang node and the corresponding
    parameter is constrained, and the finder ends with the flag cleared.
    So an argument that is a plain nominal reference is reported with
    exactly that flag, while an argument that is itself a bound generic
    type has its own base reported as needing a full definition whatever
    the flag. *)
Theorem visitBoundGenericType_reports cfg d args :
  let isObjCGeneric := hasClangNode (decls cfg d) in
  ReferencedTypeFinder_walk cfg (BoundGenericType d args) =
    (d, true) ::
    mjoin (zip_with
             (λ argTy paramTy,
                (walkTy cfg argTy (isObjCGeneric && isConstrained paramTy)).1)
             args (genericParams (decls cfg d))) ∧
  (walkTy cfg (BoundGenericType d args) false).2 = false ∧
  (∀ a nd, (walkTy cfg (NominalType a) nd).1 = [(a, nd)]) ∧
  (∀ d' args' nd,
     ∃ rest, (walkTy cfg (BoundGenericType d' args') nd).1 = (d', true) :: rest).
Proof.
  simpl. unfold ReferencedTypeFinder_walk. simpl.
  rewrite for_each_genericArg_reports, for_each_genericArg_flag.
  repeat split; try done. intros d' args' nd. by eexists.
Qed.

(** C5 fails as stated: in [Array<Array<B>>] the base [Array] has no
    Clang node and its parameter is unconstrained, yet the argument
    [Array<B>] is reported, through its declaration, as needing a full
    definition. *)
Lemma visitBoundGenericType_nested_argument :
  hasClangNode (decls (ex_cfg [] ObjC) 10) = false ∧
  (isConstrained <$> genericParams (decls (ex_cfg [] ObjC) 10)) = [false] ∧
  ReferencedTypeFinder_walk (ex_cfg [] ObjC)
    (BoundGenericType 10 [BoundGenericType 10 [NominalType 3]]) =
  [(10, true); (10, true); (3, false)].
Proof. done. Qed.

(** ** Later states: the generic part *)

#[global] Instance EmissionState_le_preorder : PreOrder EmissionState_le.
Proof.
  split; unfold EmissionState_le.
  - intros ?. lia.
  - intros ???. lia.
Qed.

Lemma EmissionState_le_Defined s : EmissionState_le s Defined.
Proof. unfold EmissionState_le. destruct s; simpl; lia. Qed.

Lemma EmissionState_le_Defined_inv s : EmissionState_le Defined s → s = Defined.
Proof. unfold EmissionState_le. destruct s; simpl; (done || lia). Qed.

#[global] Instance extends_preorder : PreOrder extends.
Proof.
  split.
  - intros σ. split; auto. reflexivity.
  - intros σ1 σ2 σ3 [H1 ? ? H4 ? ? H7] [H1' ? ? H4' ? ? H7']. split; auto.
    + intros D. etrans; [apply H1|apply H1'].
    + etrans; [apply H4|apply H4'].
    + congruence.
Qed.

#[global] Instance advances_preorder cfg : PreOrder (advances cfg).
Proof.
  split.
  - intros σ. split; auto. reflexivity.
  - intros σ1 σ2 σ3 [H1 H2 ? ?] [H1' H2' ? ?]. split; auto.
    + etrans; [apply H1|apply H1'].
    + congruence.
Qed.

Section Preserves.
Context (R : relation ModuleWriter) `{!PreOrder R}.

Lemma preserves_ret {A} (a : A) : preserves R (ret a).
Proof. intros σ a' σ' [= <- <-]. reflexivity. Qed.

Lemma preserves_abort {A} w : preserves R (@abort A w).
Proof. intros σ a' σ' [=]. Qed.

Lemma preserves_get : preserves R get.
Proof. intros σ a' σ' [= <- <-]. reflexivity. Qed.

Lemma preserves_bind {A B} (m : W A) (k : A → W B) :
  preserves R m → (∀ a, preserves R (k a)) → preserves R (bind m k).
Proof.
  intros Hm Hk σ b σ'. unfold bind.
  destruct (m σ) as [[a σ1]|] eqn:E; [|done].
  intros H. etrans; [by eapply Hm|by eapply Hk].
Qed.

Lemma preserves_bind_get {B} (k : ModuleWriter → W B) :
  (∀ σ b σ', k σ σ = Ok (b, σ') → R σ σ') → preserves R (bind get k).
Proof. intros Hk σ b σ'. unfold bind, get. apply Hk. Qed.

Lemma preserves_modify f : (∀ σ, R σ (f σ)) → preserves R (modify f).
Proof. intros Hf σ a σ' [= ? <-]. apply Hf. Qed.

Lemma preserves_forEach {A} (l : list A) body :
  (∀ x, preserves R (body x)) → preserves R (forEach l body).
Proof.
  intros Hb. induction l as [|x l IH]; simpl.
  - apply preserves_ret.
  - apply preserves_bind; auto.
Qed.

End Preserves.

(** ** Later states: the primitive updates *)

Lemma printedDecls_app σ o :
  printedDecls (with_os (λ l, l ++ o) σ) = printedDecls σ ++ omap printedDecl o.
Proof. unfold printedDecls. simpl. apply omap_app. Qed.

Lemma elem_of_set_insert {A} `{EqDecision A} (x y : A) l :
  y ∈ set_insert x l ↔ y = x ∨ y ∈ l.
Proof.
  unfold set_insert. destruct (bool_decide (x ∈ l)) eqn:E.
  - apply bool_decide_eq_true in E. split; [auto|]. by intros [->|].
  - rewrite elem_of_app, list_elem_of_singleton. tauto.
Qed.

Lemma extends_with_os σ o : extends σ (with_os (λ l, l ++ o) σ).
Proof. split; simpl; auto; try reflexivity. by apply prefix_app_r. Qed.

Lemma advances_with_os cfg σ o :
  omap printedDecl o = [] → advances cfg σ (with_os (λ l, l ++ o) σ).
Proof.
  intros Ho. split; auto using extends_with_os.
  by rewrite printedDecls_app, Ho, app_nil_r.
Qed.

Lemma advances_with_imports cfg σ i :
  advances cfg σ (with_imports (set_insert i) σ).
Proof.
  split; auto. split; simpl; auto; try reflexivity.
  intros j Hj. apply elem_of_set_insert. by right.
Qed.

Lemma advances_with_dependsOnStdlib cfg σ :
  advances cfg σ (with_dependsOnStdlib true σ).
Proof. split; auto. split; simpl; auto; reflexivity. Qed.

Lemma advances_with_seenClangTypes cfg σ f :
  advances cfg σ (with_seenClangTypes f σ).
Proof. split; auto. split; simpl; auto; reflexivity. Qed.

Lemma advances_with_delayedMembers cfg σ m :
  advances cfg σ (with_delayedMembers (set_insert m) σ).
Proof.
  split; auto. split; simpl; auto; try reflexivity.
  intros j Hj. apply elem_of_set_insert. by right.
Qed.

Lemma advances_with_declsToWrite cfg σ f :
  (∀ D, D ∈ declsToWrite σ → D ∈ f (declsToWrite σ)) →
  advances cfg σ (with_declsToWrite f σ).
Proof. intros Hf. split; auto. split; simpl; auto; reflexivity. Qed.

Lemma extends_setSeen σ D st :
  EmissionState_le (stateOf σ D).1 st.1 →
  ((stateOf σ D).2 = true → st.2 = true) →
  extends σ (with_seenTypes (insert D st) σ).
Proof.
  intros H1 H2. split; simpl; auto; try reflexivity.
  - intros D'. rewrite stateOf_with_seenTypes_insert.
    destruct (decide (D = D')) as [<-|]; [done|reflexivity].
  - intros D'. rewrite stateOf_with_seenTypes_insert.
    destruct (decide (D = D')) as [<-|]; auto.
Qed.

Lemma advances_setSeen cfg σ D st :
  EmissionState_le (stateOf σ D).1 st.1 →
  ((stateOf σ D).2 = true → st.2 = true) →
  (isLocal cfg D → st.1 = Defined → (stateOf σ D).1 = Defined) →
  advances cfg σ (with_seenTypes (insert D st) σ).
Proof.
  intros H1 H2 H3. split; auto using extends_setSeen.
  intros D'. rewrite stateOf_with_seenTypes_insert.
  destruct (decide (D = D')) as [<-|]; auto.
Qed.

(** ** Later states: imports and the ledger *)

Create HintDb adv.

Ltac run_W H :=
  try (cbv beta delta [bind ret modify get emit setSeen abort] in H;
       simpl in H; simplify_eq).

Lemma addImport_advances cfg D : preserves (advances cfg) (addImport cfg D).
Proof.
  intros σ b σ' H. unfold addImport in H.
  repeat (case_match; run_W H);
    auto using advances_with_dependsOnStdlib, advances_with_imports;
    reflexivity.
Qed.
#[global] Hint Resolve addImport_advances : adv.

Lemma addImport_foreign cfg D σ σ' :
  addImport cfg D σ = Ok (true, σ') → ¬ isLocal cfg D.
Proof.
  unfold addImport, isLocal. case_bool_decide; [|done]. by intros [=].
Qed.

Lemma addImport_false cfg D σ b σ' :
  addImport cfg D σ = Ok (b, σ') → b = false → isLocal cfg D ∧ σ' = σ.
Proof.
  unfold addImport, isLocal. intros H ->.
  repeat (case_match; run_W H); try done.
  by case_bool_decide.
Qed.

Lemma addImport_Ok cfg D σ : ∃ b σ', addImport cfg D σ = Ok (b, σ').
Proof.
  unfold addImport. repeat case_match; by eexists _, _.
Qed.

Lemma tryRequire_advances cfg D : preserves (advances cfg) (tryRequire cfg D).
Proof.
  intros σ b σ' H. unfold tryRequire, bind in H.
  destruct (addImport cfg D σ) as [[imp σ1]|] eqn:E; [|done].
  pose proof (addImport_advances _ _ _ _ _ E) as Hadv.
  destruct imp; run_W H; [|done].
  etrans; [done|]. apply advances_setSeen; simpl; auto.
  - apply EmissionState_le_Defined.
  - intros Hl. by apply addImport_foreign in E.
Qed.
#[global] Hint Resolve tryRequire_advances : adv.

Lemma require_advances cfg D : preserves (advances cfg) (require cfg D).
Proof.
  intros σ b σ' H. unfold require, bind in H.
  destruct (addImport cfg D σ) as [[imp σ1]|] eqn:E; [|done].
  pose proof (addImport_advances _ _ _ _ _ E) as Hadv.
  destruct imp.
  - run_W H. etrans; [done|]. apply advances_setSeen; simpl; auto.
    + apply EmissionState_le_Defined.
    + intros Hl. by apply addImport_foreign in E.
  - simpl in H. unfold get in H.
    destruct (stateOf σ1 D).1 eqn:Est; run_W H; try done.
    + etrans; [done|]. etrans.
      * apply (advances_setSeen cfg σ1 D (DefinitionRequested, (stateOf σ1 D).2));
          simpl; auto; [|done].
        rewrite Est. unfold EmissionState_le. simpl. lia.
      * apply advances_with_declsToWrite. intros D' ?. apply elem_of_app. by left.
    + etrans; [done|]. etrans.
      * apply (advances_setSeen cfg σ1 D (DefinitionRequested, (stateOf σ1 D).2));
          simpl; auto; [|done].
        rewrite Est. reflexivity.
      * apply advances_with_declsToWrite. intros D' ?. apply elem_of_app. by left.
Qed.
#[global] Hint Resolve require_advances : adv.

(** ** Later states: forward declarations and member types *)

Ltac adv_step :=
  first
    [ solve [auto with adv nocore]
    | apply (preserves_ret (advances _))
    | apply preserves_abort
    | apply (preserves_get (advances _))
    | apply (preserves_bind (advances _)); [|intros ?]
    | apply (preserves_forEach (advances _)); intros ?
    | match goal with
      | |- preserves _ (if ?b then _ else _) => destruct b eqn:?
      | |- preserves _ (match ?x with _ => _ end) => destruct x eqn:?
      end ].

Lemma forwardDeclare_advances cfg NTD Printer :
  omap printedDecl Printer = [] →
  preserves (advances cfg) (forwardDeclare cfg NTD Printer).
Proof.
  intros HP σ b σ' H. unfold forwardDeclare in H.
  repeat (case_match; run_W H); try reflexivity.
  etrans; [by apply advances_with_os|].
  apply advances_setSeen; simpl; auto. reflexivity.
Qed.
#[global] Hint Resolve forwardDeclare_advances : adv.

Lemma forwardDeclareClass_advances cfg CD :
  preserves (advances cfg) (forwardDeclareClass cfg CD).
Proof.
  unfold forwardDeclareClass. repeat adv_step.
  by apply forwardDeclare_advances.
Qed.
#[global] Hint Resolve forwardDeclareClass_advances : adv.

Lemma forwardDeclareProtocol_advances cfg PD :
  preserves (advances cfg) (forwardDeclareProtocol cfg PD).
Proof.
  unfold forwardDeclareProtocol. repeat adv_step.
  by apply forwardDeclare_advances.
Qed.
#[global] Hint Resolve forwardDeclareProtocol_advances : adv.

Lemma forwardDeclareEnum_advances cfg ED :
  preserves (advances cfg) (forwardDeclareEnum cfg ED).
Proof.
  unfold forwardDeclareEnum. repeat adv_step.
  by apply forwardDeclare_advances.
Qed.
#[global] Hint Resolve forwardDeclareEnum_advances : adv.

Lemma emitReferencedClangTypeMetadata_advances cfg typeDecl :
  preserves (advances cfg) (emitReferencedClangTypeMetadata typeDecl).
Proof.
  intros σ b σ' H. unfold emitReferencedClangTypeMetadata in H.
  run_W H. repeat (case_match; run_W H); try reflexivity.
  etrans; [apply advances_with_seenClangTypes|].
  by apply advances_with_os.
Qed.
#[global] Hint Resolve emitReferencedClangTypeMetadata_advances : adv.

Lemma forwardDeclareCxxValueTypeIfNeeded_advances cfg NTD :
  preserves (advances cfg) (forwardDeclareCxxValueTypeIfNeeded cfg NTD).
Proof. by apply forwardDeclare_advances. Qed.
#[global] Hint Resolve forwardDeclareCxxValueTypeIfNeeded_advances : adv.

Lemma forwardDeclareType_advances cfg TD :
  preserves (advances cfg) (forwardDeclareType cfg TD).
Proof.
  unfold forwardDeclareType.
  repeat adv_step;
    auto using addImport_advances, forwardDeclareClass_advances,
      forwardDeclareProtocol_advances, forwardDeclareEnum_advances,
      emitReferencedClangTypeMetadata_advances,
      forwardDeclareCxxValueTypeIfNeeded_advances.
Qed.
#[global] Hint Resolve forwardDeclareType_advances : adv.

Lemma memberTypeCallback_advances cfg container fl needsDefinition TD :
  preserves (advances cfg)
    (memberTypeCallback cfg container fl needsDefinition TD).
Proof.
  unfold memberTypeCallback.
  repeat adv_step;
    auto using forwardDeclareType_advances, tryRequire_advances,
      require_advances.
Qed.
#[global] Hint Resolve memberTypeCallback_advances : adv.

Lemma walkCallbacks_advances cfg container reports fl :
  preserves (advances cfg) (walkCallbacks cfg container reports fl).
Proof.
  revert fl. induction reports as [|[TD nd] reports IH]; intros fl; simpl.
  - apply (preserves_ret (advances _)).
  - apply (preserves_bind (advances _)); auto using memberTypeCallback_advances.
Qed.
#[global] Hint Resolve walkCallbacks_advances : adv.

Lemma forMembers_advances cfg members container hadAny nestedTypes :
  preserves (advances cfg)
    (forMembers cfg members container hadAny nestedTypes).
Proof.
  revert hadAny nestedTypes.
  induction members as [|member members IH]; intros hadAny nestedTypes; simpl.
  - apply (preserves_ret (advances _)).
  - repeat adv_step; auto using walkCallbacks_advances.
    apply (preserves_modify (advances _)). intros σ. apply advances_with_delayedMembers.
Qed.
#[global] Hint Resolve forMembers_advances : adv.

Lemma insertBeforeBack_advances cfg xs :
  preserves (advances cfg) (insertBeforeBack xs).
Proof.
  intros σ b σ' H. unfold insertBeforeBack in H. run_W H.
  destruct (unsnoc (declsToWrite σ)) as [[front back]|] eqn:E; run_W H.
  apply unsnoc_Some in E. apply advances_with_declsToWrite.
  intros D. rewrite E, !elem_of_app. tauto.
Qed.
#[global] Hint Resolve insertBeforeBack_advances : adv.

Lemma forwardDeclareMemberTypes_advances cfg members container :
  preserves (advances cfg) (forwardDeclareMemberTypes cfg members container).
Proof.
  unfold forwardDeclareMemberTypes.
  repeat adv_step; auto using forMembers_advances, insertBeforeBack_advances.
Qed.
#[global] Hint Resolve forwardDeclareMemberTypes_advances : adv.

Lemma requireProtocols_advances cfg mustBeObjC protos acc :
  preserves (advances cfg) (requireProtocols cfg mustBeObjC protos acc).
Proof.
  revert acc. induction protos as [|proto protos IH]; intros acc; simpl.
  - apply (preserves_ret (advances _)).
  - repeat adv_step; auto using require_advances.
Qed.
#[global] Hint Resolve requireProtocols_advances : adv.

(** ** What the writers do to the ledger and the output *)

Lemma bind_Ok {A B} (m : W A) (k : A → W B) σ b σ' :
  bind m k σ = Ok (b, σ') →
  ∃ a σ1, m σ = Ok (a, σ1) ∧ k a σ1 = Ok (b, σ').
Proof.
  unfold bind. destruct (m σ) as [[a σ1]|]; [|done]. by exists a, σ1.
Qed.

Lemma stateOf_seenTypes σ σ' D :
  seenTypes σ' = seenTypes σ → stateOf σ' D = stateOf σ D.
Proof. unfold stateOf. by intros ->. Qed.

Lemma printsDecl_intro cfg D σ σm σ' pre post (setDefined : bool) :
  advances cfg σ σm →
  os σ' = os σm ++ pre ++ [OPrintDecl D] ++ post →
  omap printedDecl pre = [] → omap printedDecl post = [] →
  seenTypes σ' = (if setDefined then <[D := (Defined, true)]> (seenTypes σm)
                  else seenTypes σm) →
  imports σ' = imports σm →
  declsToWrite σ' = declsToWrite σm →
  delayedMembers σ' = delayedMembers σm →
  dependsOnStdlib σ' = dependsOnStdlib σm →
  recordedExtensions σ' = recordedExtensions σm →
  (if setDefined then (stateOf σ D).1 ≠ Defined
   else isLedgerKind (kind (decls cfg D)) = false) →
  (kind (decls cfg D) = KExtension →
   isEmptyExtensionDecl (printer cfg) D = false) →
  printsDecl cfg D σ σ'.
Proof.
  intros [Hext Hpr Hloc Hst] Hos Hpre Hpost Hseen Himp Hstack Hdel Hdep Hrec
    Hnot Hemp.
  assert (∀ D', stateOf σ' D' =
                if setDefined then
                  if decide (D = D') then (Defined, true) else stateOf σm D'
                else stateOf σm D') as Hstate.
  { intros D'. unfold stateOf. rewrite Hseen. destruct setDefined; [|done].
    rewrite lookup_insert. by destruct (decide (D = D')). }
  assert (extends σm σ') as Hext'.
  { split.
    - intros D'. rewrite Hstate. destruct setDefined; [|reflexivity].
      destruct (decide (D = D')); [apply EmissionState_le_Defined|reflexivity].
    - intros D'. rewrite Hstate. destruct setDefined; [|done].
      by destruct (decide (D = D')).
    - by rewrite Himp.
    - rewrite Hos. by apply prefix_app_r.
    - by rewrite Hdel.
    - by rewrite Hdep.
    - done. }
  split.
  - by etrans.
  - unfold printedDecls in *. rewrite Hos, !omap_app, Hpre, Hpost. simpl.
    by rewrite Hpr.
  - intros Hk. destruct setDefined; [|congruence].
    split; [done|]. rewrite Hstate. by rewrite decide_True.
  - intros D' Hl. rewrite Hstate. destruct setDefined; [|by left; apply Hloc].
    destruct (decide (D = D')); [by right|]. left. by apply Hloc.
  - done.
  - intros D' HD'. rewrite Hstack. by apply Hst.
Qed.

Lemma writeClass_writes cfg CD σ b σ' :
  kind (decls cfg CD) = KClass →
  writeClass cfg CD σ = Ok (b, σ') →
  (advances cfg σ σ' ∨ (b = true ∧ printsDecl cfg CD σ σ')) ∧
  (b = true → isLocal cfg CD → (stateOf σ' CD).1 = Defined).
Proof.
  intros Hk H. unfold writeClass in H.
  apply bind_Ok in H as (imp & σ1 & E1 & H).
  pose proof (addImport_advances _ _ _ _ _ E1) as A1.
  destruct imp.
  { run_W H. split; [by left|]. intros _ Hl. by apply addImport_foreign in E1. }
  apply addImport_false in E1 as [Hl ->]; [|done].
  apply bind_Ok in H as (? & ? & [= <- <-] & H).
  destruct (bool_decide ((stateOf σ CD).1 = Defined)) eqn:Edef.
  { run_W H. apply bool_decide_eq_true in Edef. split; [by left|done]. }
  apply bool_decide_eq_false in Edef.
  apply bind_Ok in H as (sat1 & σ2 & E2 & H).
  assert (advances cfg σ σ2) as A2.
  { destruct (superclassDecl (decls cfg CD)).
    - by eapply require_advances.
    - run_W E2. reflexivity. }
  apply bind_Ok in H as (sat2 & σ3 & E3 & H).
  assert (advances cfg σ2 σ3) as A3.
  { destruct (negb (bool_decide (outputLangMode cfg = Cxx))).
    - by eapply requireProtocols_advances.
    - run_W E3. reflexivity. }
  destruct (negb sat2).
  { run_W H. split; [|done]. left. by etrans. }
  apply bind_Ok in H as (? & σ4 & E4 & H).
  apply forwardDeclareMemberTypes_advances in E4 as A4.
  run_W H. split.
  - right. split; [done|].
    eapply (printsDecl_intro cfg CD σ σ4 _ [OStr endl] [] true);
      simpl; try done.
    + by do 2 (etrans; [eassumption|]).
    + by rewrite <- app_assoc.
    + by rewrite Hk.
  - intros _ _. unfold stateOf. simpl. by rewrite lookup_insert_eq.
Qed.

Lemma writeProtocol_writes cfg PD σ b σ' :
  kind (decls cfg PD) = KProtocol →
  writeProtocol cfg PD σ = Ok (b, σ') →
  (advances cfg σ σ' ∨ (b = true ∧ printsDecl cfg PD σ σ')) ∧
  (b = true → isLocal cfg PD → (stateOf σ' PD).1 = Defined).
Proof.
  intros Hk H. unfold writeProtocol in H.
  apply bind_Ok in H as (imp & σ1 & E1 & H).
  pose proof (addImport_advances _ _ _ _ _ E1) as A1.
  destruct imp.
  { run_W H. split; [by left|]. intros _ Hl. by apply addImport_foreign in E1. }
  apply addImport_false in E1 as [Hl ->]; [|done].
  apply bind_Ok in H as (? & ? & [= <- <-] & H).
  destruct (bool_decide ((stateOf σ PD).1 = Defined)) eqn:Edef.
  { run_W H. apply bool_decide_eq_true in Edef. split; [by left|done]. }
  apply bool_decide_eq_false in Edef.
  apply bind_Ok in H as (sat & σ2 & E2 & H).
  apply requireProtocols_advances in E2 as A2.
  destruct (negb sat).
  { run_W H. split; [|done]. by left. }
  apply bind_Ok in H as (ok & σ3 & E3 & H).
  apply forwardDeclareMemberTypes_advances in E3 as A3.
  destruct (negb ok).
  { run_W H. split; [|done]. left. by etrans. }
  run_W H. split.
  - right. split; [done|].
    eapply (printsDecl_intro cfg PD σ σ3 _ [OStr endl] [] true);
      simpl; try done.
    + by etrans.
    + by rewrite <- app_assoc.
    + by rewrite Hk.
  - intros _ _. unfold stateOf. simpl. by rewrite lookup_insert_eq.
Qed.

Lemma writeEnum_writes cfg ED σ b σ' :
  kind (decls cfg ED) = KEnum →
  writeEnum cfg ED σ = Ok (b, σ') →
  (advances cfg σ σ' ∨ (b = true ∧ printsDecl cfg ED σ σ')) ∧
  (b = true → isLocal cfg ED → (stateOf σ' ED).1 = Defined).
Proof.
  intros Hk H. unfold writeEnum in H.
  apply bind_Ok in H as (imp & σ1 & E1 & H).
  pose proof (addImport_advances _ _ _ _ _ E1) as A1.
  destruct imp.
  { run_W H. split; [by left|]. intros _ Hl. by apply addImport_foreign in E1. }
  apply addImport_false in E1 as [Hl ->]; [|done].
  apply bind_Ok in H as (? & σ2 & E2 & H).
  assert (advances cfg σ σ2) as A2.
  { destruct (bool_decide (outputLangMode cfg = Cxx)).
    - apply bind_Ok in E2 as (? & σm & E2 & E2').
      apply forwardDeclareMemberTypes_advances in E2.
      apply forwardDeclareCxxValueTypeIfNeeded_advances in E2'. by etrans.
    - run_W E2. reflexivity. }
  apply bind_Ok in H as (? & ? & [= <- <-] & H).
  destruct (bool_decide ((stateOf σ2 ED).1 = Defined)) eqn:Edef.
  { run_W H. apply bool_decide_eq_true in Edef. split; [by left|done]. }
  apply bool_decide_eq_false in Edef.
  assert ((stateOf σ ED).1 ≠ Defined) as Edef'.
  { intros Hd. apply Edef. apply EmissionState_le_Defined_inv.
    rewrite <- Hd. apply A2. }
  split.
  - right. destruct (negb (bool_decide (outputLangMode cfg = Cxx)) &&
                     conformsToError (decls cfg ED) &&
                     negb (hasDomainCase (decls cfg ED))); run_W H.
    + split; [done|].
      eapply (printsDecl_intro cfg ED σ σ2 _ [] _ true); simpl; try done.
      * simpl. by rewrite <- app_assoc.
      * done.
      * by rewrite Hk.
    + split; [done|].
      eapply (printsDecl_intro cfg ED σ σ2 _ [] [] true); simpl; try done.
      by rewrite Hk.
  - intros _ _.
    destruct (negb (bool_decide (outputLangMode cfg = Cxx)) &&
              conformsToError (decls cfg ED) &&
              negb (hasDomainCase (decls cfg ED))); run_W H;
      unfold stateOf; simpl; by rewrite lookup_insert_eq.
Qed.

Lemma writeFunc_writes cfg FD σ b σ' :
  kind (decls cfg FD) = KFunc →
  writeFunc cfg FD σ = Ok (b, σ') →
  advances cfg σ σ' ∨ (b = true ∧ printsDecl cfg FD σ σ').
Proof.
  intros Hk H. unfold writeFunc in H.
  apply bind_Ok in H as (imp & σ1 & E1 & H).
  pose proof (addImport_advances _ _ _ _ _ E1) as A1.
  destruct imp.
  { run_W H. by left. }
  apply bind_Ok in H as (? & σ2 & E2 & H).
  assert (advances cfg σ1 σ2) as A2.
  { revert E2. apply (preserves_forEach (advances _)).
    intros r. apply forwardDeclareType_advances. }
  run_W H. right. split; [done|].
  eapply (printsDecl_intro cfg FD σ σ2 _ [OStr endl] [] false);
    simpl; try done.
  - by etrans.
  - by rewrite <- app_assoc.
  - by rewrite Hk.
  - by rewrite Hk.
Qed.

Lemma writeStruct_writes cfg SD σ b σ' :
  kind (decls cfg SD) = KStruct →
  writeStruct cfg SD σ = Ok (b, σ') →
  advances cfg σ σ' ∨ (b = true ∧ printsDecl cfg SD σ σ').
Proof.
  intros Hk H. unfold writeStruct in H.
  apply bind_Ok in H as (imp & σ1 & E1 & H).
  pose proof (addImport_advances _ _ _ _ _ E1) as A1.
  destruct imp.
  { run_W H. by left. }
  apply bind_Ok in H as (? & σ2 & E2 & H).
  assert (advances cfg σ1 σ2) as A2.
  { revert E2.
    assert (preserves (advances cfg)
      (if bool_decide (outputLangMode cfg = Cxx)
       then
         let* _ := forwardDeclareMemberTypes cfg (members (decls cfg SD)) SD in
         let* σ := get in
         forEach (getExtensionsForNominalType σ SD)
           (λ ed, let* _ := forwardDeclareMemberTypes cfg
                              (members (decls cfg ed)) SD in
                  ret ()) ;;;
         forwardDeclareCxxValueTypeIfNeeded cfg SD
       else ret ())) as Hp by repeat adv_step.
    apply Hp. }
  run_W H. right. split; [done|].
  eapply (printsDecl_intro cfg SD σ σ2 _ [] [] false); simpl; try done.
  - by etrans.
  - by rewrite Hk.
  - by rewrite Hk.
Qed.

Lemma writeExtension_writes cfg ED σ b σ' :
  kind (decls cfg ED) = KExtension →
  writeExtension cfg ED σ = Ok (b, σ') →
  advances cfg σ σ' ∨ (b = true ∧ printsDecl cfg ED σ σ').
Proof.
  intros Hk H. unfold writeExtension in H.
  destruct (isEmptyExtensionDecl (printer cfg) ED) eqn:Eempty.
  { run_W H. left. reflexivity. }
  destruct (selfClassDecl (decls cfg ED)) as [CD|]; [|done].
  apply bind_Ok in H as (sat1 & σ1 & E1 & H).
  apply require_advances in E1 as A1.
  apply bind_Ok in H as (sat2 & σ2 & E2 & H).
  apply requireProtocols_advances in E2 as A2.
  destruct (negb sat2).
  { run_W H. left. by etrans. }
  apply bind_Ok in H as (ok & σ3 & E3 & H).
  apply forwardDeclareMemberTypes_advances in E3 as A3.
  destruct (negb ok).
  { run_W H. left. by do 2 (etrans; [eassumption|]). }
  run_W H. right. split; [done|].
  eapply (printsDecl_intro cfg ED σ σ3 _ [OStr endl] [] false);
    simpl; try done.
  - by do 2 (etrans; [eassumption|]).
  - by rewrite <- app_assoc.
  - by rewrite Hk.
Qed.

Lemma writeDecl_writes cfg D σ b σ' :
  writeDecl cfg D σ = Ok (b, σ') → writes cfg D b σ σ'.
Proof.
  unfold writeDecl, writes, processed, mustDefine. intros H.
  destruct (kind (decls cfg D)) eqn:Hk;
    try (by eapply writeEnum_writes in H as [? ?]; [split; [done|auto]|]);
    try (by eapply writeClass_writes in H as [? ?]; [split; [done|auto]|]);
    (destruct (bool_decide (outputLangMode cfg = Cxx)) eqn:Emode;
     [apply bool_decide_eq_true in Emode|apply bool_decide_eq_false in Emode]);
    simpl in H;
    try (run_W H; split; [left; reflexivity|]; intros _ [?|[?|[? ?]]]; congruence);
    try (by eapply writeProtocol_writes in H as [? ?]; [split; [done|auto]|]);
    try (eapply writeFunc_writes in H; [|done]; split; [done|];
         intros _ [?|[?|[? ?]]]; congruence);
    try (eapply writeStruct_writes in H; [|done]; split; [done|];
         intros _ [?|[?|[? ?]]]; congruence);
    try (eapply writeExtension_writes in H; [|done]; split; [done|];
         intros _ [?|[?|[? ?]]]; congruence);
    try done.
Qed.

(** ** The invariant of the drain loop *)

Lemma extends_Defined σ σ' D :
  extends σ σ' → (stateOf σ D).1 = Defined → (stateOf σ' D).1 = Defined.
Proof.
  intros [H _ _ _ _ _ _] Hd. apply EmissionState_le_Defined_inv.
  rewrite <- Hd. apply H.
Qed.

Lemma processed_extends cfg σ σ' D :
  extends σ σ' → processed cfg σ D → processed cfg σ' D.
Proof. unfold processed. eauto using extends_Defined. Qed.

Lemma writes_invariant cfg top D b σ σ' :
  PassInvariant cfg top σ → writes cfg D b σ σ' →
  PassInvariant cfg top σ' ∧ extends σ σ'.
Proof.
  intros [I2 I3 I5 I7 I6] [[Hadv|[-> Hpr]] Hdone].
  - destruct Hadv as [Hext Hprinted Hloc Hstack]. split; [|done]. split.
    + intros D'. rewrite Hprinted. eauto using extends_Defined.
    + by rewrite Hprinted.
    + intros D' ???. rewrite Hprinted. eauto.
    + intros D'. rewrite Hprinted. eauto.
    + intros D' HD'. destruct (I6 D' HD'); eauto using processed_extends.
  - destruct Hpr as [Hext Hprinted Hledger Hloc Hempty Hstack].
    split; [|done]. split.
    + intros D'. rewrite Hprinted, elem_of_app, list_elem_of_singleton.
      intros [?| ->] Hk; [eauto using extends_Defined|]. by apply Hledger.
    + rewrite Hprinted, filter_app. apply NoDup_app. split; [done|]. split.
      * intros D'. rewrite !list_elem_of_filter. intros [Hk HD'] [_ HD].
        apply list_elem_of_singleton in HD as ->.
        destruct (Hledger Hk) as [Hnot _]. apply Hnot. by apply I2.
      * rewrite filter_cons, filter_nil. case_decide;
          [apply NoDup_singleton|apply NoDup_nil_2].
    + intros D' Hl Hk Hd. rewrite Hprinted, elem_of_app, list_elem_of_singleton.
      destruct (Hloc D' Hl Hd); [left|right]; eauto.
    + intros D'. rewrite Hprinted, elem_of_app, list_elem_of_singleton.
      intros [?| ->]; eauto.
    + intros D' HD'. destruct (I6 D' HD'); eauto using processed_extends.
Qed.

Lemma drainStep_invariant cfg top D front σ σ' :
  unsnoc (declsToWrite σ) = Some (front, D) →
  PassInvariant cfg top σ →
  drainStep cfg D σ = Ok ((), σ') →
  PassInvariant cfg top σ' ∧ extends σ σ'.
Proof.
  intros Hback Hinv H. unfold drainStep in H.
  apply bind_Ok in H as (success & σ1 & E1 & H).
  apply writeDecl_writes in E1 as Hw.
  destruct (writes_invariant _ _ _ _ _ _ Hinv Hw) as [Hinv1 Hext1].
  destruct success; [|by run_W H].
  apply bind_Ok in H as (? & ? & [= <- <-] & H).
  destruct (unsnoc (declsToWrite σ1)) as [[front1 back]|] eqn:E; [|done].
  case_bool_decide; [subst back|done]. run_W H.
  apply unsnoc_Some in E.
  destruct Hinv1 as [I2 I3 I5 I7 I6]. split.
  - split; simpl; auto.
    + unfold printedDecls. simpl. rewrite omap_app. simpl.
      rewrite app_nil_r. apply I2.
    + unfold printedDecls. simpl. rewrite omap_app. simpl.
      by rewrite app_nil_r.
    + unfold printedDecls. simpl. rewrite omap_app. simpl.
      rewrite app_nil_r. apply I5.
    + unfold printedDecls. simpl. rewrite omap_app. simpl.
      rewrite app_nil_r. apply I7.
    + intros D' HD'. destruct (I6 D' HD') as [Hin|?]; [|by right].
      rewrite E, elem_of_app, list_elem_of_singleton in Hin.
      destruct Hin as [?| ->]; [by left|]. right. by apply Hw.
  - etrans; [done|]. split; simpl; auto; try reflexivity.
    by apply prefix_app_r.
Qed.

Lemma drainSteps_invariant cfg top n σ σ' :
  PassInvariant cfg top σ →
  drainSteps cfg n σ = Ok σ' →
  PassInvariant cfg top σ' ∧ extends σ σ'.
Proof.
  revert σ. induction n as [|n IH]; intros σ Hinv; simpl.
  - intros [= <-]. split; [done|reflexivity].
  - destruct (unsnoc (declsToWrite σ)) as [[front D]|] eqn:E.
    + destruct (drainStep cfg D σ) as [[[] σ1]|] eqn:E1; [|done].
      intros H.
      destruct (drainStep_invariant _ _ _ _ _ _ E Hinv E1) as [Hinv1 Hext1].
      destruct (IH _ Hinv1 H) as [? ?]. split; [done|by etrans].
    + intros [= <-]. split; [done|reflexivity].
Qed.

Lemma drainSteps_add cfg n m σ :
  drainSteps cfg (n + m) σ =
  match drainSteps cfg n σ with
  | Ok σ1 => drainSteps cfg m σ1
  | Abort w => Abort w
  end.
Proof.
  revert σ. induction n as [|n IH]; intros σ; simpl; [done|].
  destruct (unsnoc (declsToWrite σ)) as [[front D]|] eqn:E.
  - destruct (drainStep cfg D σ) as [[[] σ1]|]; [|done]. apply IH.
  - destruct m as [|m]; simpl; [done|]. by rewrite E.
Qed.

Lemma drain_drainSteps cfg fuel σ σ' :
  drain cfg fuel σ = Some (Ok σ') →
  drainSteps cfg fuel σ = Ok σ' ∧ declsToWrite σ' = [].
Proof.
  revert σ. induction fuel as [|fuel IH]; intros σ; simpl.
  - destruct (unsnoc (declsToWrite σ)) as [[front D]|] eqn:E; [done|].
    intros [= <-]. split; [done|]. by apply unsnoc_None.
  - destruct (unsnoc (declsToWrite σ)) as [[front D]|] eqn:E.
    + destruct (drainStep cfg D σ) as [[[] σ1]|]; [|done]. apply IH.
    + intros [= <-]. split; [done|]. by apply unsnoc_None.
Qed.

(** ** The sort keeps the declarations *)

Lemma insertSorted_Permutation cmp x sorted r :
  insertSorted cmp x sorted = Ok r → r ≡ₚ x :: sorted.
Proof.
  revert r. induction sorted as [|y sorted IH]; intros r; simpl.
  - by intros [= <-].
  - destruct (cmp x y) as [c|]; [|done].
    destruct (bool_decide (c < 0)%Z); [by intros [= <-]|].
    destruct (insertSorted cmp x sorted) as [r'|]; [|done].
    intros [= <-]. rewrite (IH r' eq_refl). apply Permutation_swap.
Qed.

Lemma array_pod_sort_from_Permutation cmp todo sorted r :
  array_pod_sort_from cmp todo sorted = Ok r → r ≡ₚ todo ++ sorted.
Proof.
  revert sorted r. induction todo as [|x todo IH]; intros sorted r; simpl.
  - by intros [= <-].
  - destruct (insertSorted cmp x sorted) as [s'|] eqn:E; [|done].
    intros H. rewrite (IH _ _ H).
    rewrite (insertSorted_Permutation _ _ _ _ E).
    by rewrite Permutation_middle.
Qed.

Lemma sortedDecls_Permutation cfg top l :
  sortedDecls cfg top = Ok l → l ≡ₚ filteredDecls cfg top.
Proof.
  intros H. apply array_pod_sort_from_Permutation in H.
  by rewrite app_nil_r in H.
Qed.

Lemma sortedTopLevelDecls_Permutation cfg l :
  sortedTopLevelDecls cfg = Ok l → l ≡ₚ filteredTopLevelDecls cfg.
Proof. apply sortedDecls_Permutation. Qed.

(** ** Before and after the loop *)

Lemma forEach_recordExtensions_same {A} (l : list A)
    (test : A → bool) (entry : A → DeclId * DeclId) σ a σ' :
  forEach l
    (λ D, if test D
          then modify (with_recordedExtensions (λ l, l ++ [entry D]))
          else ret ()) σ = Ok (a, σ') →
  sameButRecordedExtensions σ σ'.
Proof.
  revert σ. induction l as [|D l IH]; intros σ; simpl.
  - by intros [= <- <-].
  - intros H. apply bind_Ok in H as (? & σ1 & E & H).
    apply IH in H. destruct H as (?&?&?&?&?&?&?).
    assert (sameButRecordedExtensions σ σ1) as (?&?&?&?&?&?&?).
    { destruct (test D); run_W E; by repeat split. }
    repeat split; congruence.
Qed.

Lemma recordStructExtensions_same cfg σ a σ' :
  recordStructExtensions cfg σ = Ok (a, σ') → sameButRecordedExtensions σ σ'.
Proof.
  unfold recordStructExtensions.
  destruct (bool_decide (outputLangMode cfg = Cxx));
    [|by intros [= <- <-]].
  intros H. apply bind_Ok in H as (? & ? & [= <- <-] & H).
  by eapply (forEach_recordExtensions_same _
               (λ D, bool_decide (kind (decls cfg D) = KExtension) &&
                     bool_decide (kind (decls cfg (extendedNominal (decls cfg D)))
                                  = KStruct))
               (λ D, (extendedNominal (decls cfg D), D))).
Qed.

Lemma omap_printedDecl_categories (groups : list (list DeclId)) :
  omap printedDecl (OPrintAdHocCategory <$> groups) = [].
Proof. by induction groups. Qed.

Lemma finishWrite_printed cfg σ a σ' :
  finishWrite cfg σ = Ok (a, σ') →
  printedDecls σ' = printedDecls σ ∧ extends σ σ'.
Proof.
  unfold finishWrite, printDelayedMembers. intros H.
  apply bind_Ok in H as (? & σ1 & E & H).
  apply bind_Ok in E as (? & ? & [= <- <-] & E).
  assert (printedDecls σ1 = printedDecls σ ∧ extends σ σ1) as [Hp He].
  { destruct (delayedMembers σ) as [|first rest]; run_W E.
    - split; reflexivity.
    - split; [|apply extends_with_os].
      rewrite printedDecls_app, omap_printedDecl_categories.
      by rewrite app_nil_r. }
  run_W H. split.
  - rewrite printedDecls_app. simpl. by rewrite app_nil_r.
  - etrans; [done|]. apply extends_with_os.
Qed.

Lemma PassInvariant_start cfg l σ0 :
  sameButRecordedExtensions (with_declsToWrite (λ _, l) initialWriter) σ0 →
  PassInvariant cfg l σ0.
Proof.
  intros (Hos & _ & Hseen & _ & Hstack & _). simpl in *.
  assert (printedDecls σ0 = []) as Hp by (unfold printedDecls; by rewrite Hos).
  assert (∀ D, (stateOf σ0 D).1 = NotYetDefined) as Hs.
  { intros D. unfold stateOf. by rewrite Hseen, lookup_empty. }
  split; try (intros D; rewrite ?Hp, ?Hs; try done; by intros ?%elem_of_nil).
  - rewrite Hp. apply NoDup_nil_2.
  - intros D HD. left. by rewrite Hstack.
Qed.

Lemma passStart_invariant cfg σ0 :
  passStart cfg = Ok σ0 →
  ∃ l, sortedTopLevelDecls cfg = Ok l ∧ PassInvariant cfg l σ0.
Proof.
  unfold passStart. destruct (sortedTopLevelDecls cfg) as [l|]; [|done].
  destruct (recordStructExtensions cfg _) as [[[] σ]|] eqn:E; [|done].
  intros [= ->]. exists l. split; [done|].
  apply PassInvariant_start. by eapply recordStructExtensions_same.
Qed.

Lemma write_passState cfg fuel σ :
  write cfg fuel = Some (Ok σ) →
  ∃ σ1, passState cfg fuel = Ok σ1 ∧ declsToWrite σ1 = [] ∧
        printedDecls σ = printedDecls σ1 ∧ extends σ1 σ.
Proof.
  unfold write, writeDecls, passState, passStart, sortedTopLevelDecls.
  destruct (sortedDecls cfg (topLevelDecls cfg)) as [l|]; [|done].
  destruct (recordStructExtensions cfg _) as [[[] σ0]|]; [|done].
  destruct (drain cfg fuel σ0) as [[σ1|]|] eqn:E; [|done..].
  destruct (finishWrite cfg σ1) as [[[] σ2]|] eqn:E2; [|done].
  intros [= ->]. apply drain_drainSteps in E as [? ?].
  apply finishWrite_printed in E2 as [? ?]. by exists σ1.
Qed.

Lemma filter_none {A} (P : A → Prop) `{∀ x, Decision (P x)} (l : list A) :
  (∀ x, x ∈ l → ¬ P x) → filter P l = [].
Proof.
  induction l as [|x l IH]; intros Hl; [done|].
  rewrite filter_cons, decide_False by (apply Hl; by left).
  apply IH. intros y Hy. apply Hl. by right.
Qed.

Lemma timesPrinted_NoDup cfg σ D :
  NoDup (filter (λ D, isLedgerKind (kind (decls cfg D)) = true)
                (printedDecls σ)) →
  isLedgerKind (kind (decls cfg D)) = true →
  timesPrinted σ D ≤ 1 ∧ (D ∈ printedDecls σ → timesPrinted σ D = 1).
Proof.
  unfold timesPrinted. generalize (printedDecls σ) as l.
  intros l Hnd Hk. induction l as [|x l IH]; simpl.
  - split; [lia|by intros ?%elem_of_nil].
  - rewrite filter_cons in Hnd. rewrite filter_cons.
    destruct (decide (x = D)) as [->|Hne].
    + rewrite decide_True in Hnd by done. apply NoDup_cons in Hnd as [Hx Hnd].
      assert (D ∉ l) as HD.
      { intros HD. apply Hx. by apply list_elem_of_filter. }
      assert (filter (λ D', D' = D) l = []) as ->.
      { apply filter_none. by intros y Hy ->. }
      simpl. split; [lia|done].
    + assert (NoDup (filter (λ D, isLedgerKind (kind (decls cfg D)) = true) l))
        as Hnd'.
      { case_decide; [by apply NoDup_cons in Hnd as [_ ?]|done]. }
      destruct (IH Hnd') as [IH1 IH2]. split; [done|].
      intros [?|?]%elem_of_cons; [congruence|auto].
Qed.

(** ** No duplicate emission, no regression *)




(** ** Imports *)




(** ** The schedule: what touches the stack and the emission states *)

#[global] Instance sameSchedule_preorder : PreOrder sameSchedule.
Proof.
  split.
  - by intros σ.
  - intros σ1 σ2 σ3 [H1 H2] [H1' H2']. split; [congruence|].
    intros D. by rewrite H2'.
Qed.

Create HintDb sched.

Ltac sched_step :=
  first
    [ solve [auto with sched nocore]
    | apply (preserves_ret sameSchedule)
    | apply preserves_abort
    | apply (preserves_get sameSchedule)
    | apply (preserves_bind sameSchedule); [|intros ?]
    | apply (preserves_forEach sameSchedule); intros ?
    | match goal with
      | |- preserves _ (if ?b then _ else _) => destruct b eqn:?
      | |- preserves _ (match ?x with _ => _ end) => destruct x eqn:?
      end ].

Lemma addImport_sameSchedule cfg D : preserves sameSchedule (addImport cfg D).
Proof.
  intros σ b σ' H. unfold addImport in H.
  repeat (case_match; run_W H); done.
Qed.
#[global] Hint Resolve addImport_sameSchedule : sched.

Lemma forwardDeclare_sameSchedule cfg NTD Printer :
  preserves sameSchedule (forwardDeclare cfg NTD Printer).
Proof.
  intros σ b σ' H. unfold forwardDeclare in H.
  repeat (case_match; run_W H); try done.
  split; [done|]. intros D. simpl. rewrite stateOf_with_seenTypes_insert.
  by destruct (decide (NTD = D)) as [<-|].
Qed.
#[global] Hint Resolve forwardDeclare_sameSchedule : sched.

Lemma emitReferencedClangTypeMetadata_sameSchedule typeDecl :
  preserves sameSchedule (emitReferencedClangTypeMetadata typeDecl).
Proof.
  intros σ b σ' H. unfold emitReferencedClangTypeMetadata in H.
  run_W H. repeat (case_match; run_W H); done.
Qed.
#[global] Hint Resolve emitReferencedClangTypeMetadata_sameSchedule : sched.

Lemma forwardDeclareType_sameSchedule cfg TD :
  preserves sameSchedule (forwardDeclareType cfg TD).
Proof.
  unfold forwardDeclareType, forwardDeclareClass, forwardDeclareProtocol,
    forwardDeclareEnum, forwardDeclareCxxValueTypeIfNeeded.
  repeat sched_step.
Qed.
#[global] Hint Resolve forwardDeclareType_sameSchedule : sched.

(** What [require] does to the stack and to the state of [D]. *)
Lemma require_schedule cfg D σ b σ' :
  require cfg D σ = Ok (b, σ') →
  (b = true ∧ declsToWrite σ' = declsToWrite σ ∧
   (stateOf σ' D).1 = Defined) ∨
  (b = false ∧ declsToWrite σ' = declsToWrite σ ++ [D] ∧
   isLocal cfg D ∧ (stateOf σ D).1 ≠ Defined ∧
   (stateOf σ' D).1 = DefinitionRequested).
Proof.
  intros H. unfold require in H.
  apply bind_Ok in H as (imp & σ1 & E & H).
  pose proof (addImport_sameSchedule _ _ _ _ _ E) as [Hst Hs].
  destruct imp.
  - run_W H. left. split; [done|]. split; [done|].
    unfold stateOf. simpl. by rewrite lookup_insert_eq.
  - apply addImport_false in E as [Hl ->]; [|done].
    apply bind_Ok in H as (? & ? & [= <- <-] & H).
    destruct (stateOf σ D).1 eqn:Est; run_W H.
    + right. repeat split; try done.
      unfold stateOf. simpl. by rewrite lookup_insert_eq.
    + right. repeat split; try done.
      unfold stateOf. simpl. by rewrite lookup_insert_eq.
    + left. by rewrite Est.
Qed.

Lemma tryRequire_stack cfg D σ b σ' :
  tryRequire cfg D σ = Ok (b, σ') → declsToWrite σ' = declsToWrite σ.
Proof.
  intros H. unfold tryRequire in H.
  apply bind_Ok in H as (imp & σ1 & E & H).
  pose proof (addImport_sameSchedule _ _ _ _ _ E) as [Hst Hs].
  destruct imp; by run_W H.
Qed.

(** ** The member dependency policy for protocols *)

(** C2 (as the code has it). For a full-definition dependency of a
    member of a protocol, on the bridged nominal declaration [TD']: when
    the protocol and [TD'] have both been requested already, the
    callback only forward-declares, and neither the stack, the emission
    states nor the delay flags change; in every other case, so also
    when exactly one of the two has been requested, it calls [require],
    and a local [TD'] that is not yet defined is pushed onto the stack
    and delays the protocol. *)
Theorem memberTypeCallback_protocol cfg P fl TD σ :
  kind (decls cfg P) = KProtocol →
  TD ≠ P →
  isNominalTypeDecl (kind (decls cfg (bridged cfg TD))) = true →
  let TD' := bridged cfg TD in
  (hasBeenRequested σ P = true → hasBeenRequested σ TD' = true →
     memberTypeCallback cfg P fl true TD σ =
       (forwardDeclareType cfg TD' ;;; ret fl) σ ∧
     ∀ fl' σ', memberTypeCallback cfg P fl true TD σ = Ok (fl', σ') →
       fl' = fl ∧ sameSchedule σ σ') ∧
  (hasBeenRequested σ P = false ∨ hasBeenRequested σ TD' = false →
     ∃ ok σ', require cfg TD' σ = Ok (ok, σ') ∧
       memberTypeCallback cfg P fl true TD σ =
         Ok (if ok then fl
             else {| needsToBeIndividuallyDelayed :=
                       needsToBeIndividuallyDelayed fl;
                     hadAnyDelayedMembers := true |}, σ') ∧
       (isLocal cfg TD' → (stateOf σ TD').1 ≠ Defined →
          ok = false ∧ declsToWrite σ' = declsToWrite σ ++ [TD'] ∧
          (stateOf σ' TD').1 = DefinitionRequested)).
Proof.
  intros Hk Hne Hnom TD'. unfold memberTypeCallback.
  rewrite bool_decide_eq_false_2 by done. cbv zeta.
  change (if negb (bool_decide (outputLangMode cfg = Cxx))
          then getObjCTypeDecl (printer cfg) TD else TD) with TD'.
  fold TD' in Hnom. rewrite Hnom, Hk. simpl.
  split.
  - intros HP HTD.
    assert ((let* σ0 := get in
             if negb (hasBeenRequested σ0 P) || negb (hasBeenRequested σ0 TD')
             then
               let* ok := require cfg TD' in
               ret (if ok then fl
                    else {| needsToBeIndividuallyDelayed :=
                              needsToBeIndividuallyDelayed fl;
                            hadAnyDelayedMembers := true |})
             else forwardDeclareType cfg TD' ;;; ret fl) σ =
            (forwardDeclareType cfg TD' ;;; ret fl) σ) as ->.
    { unfold bind at 1. unfold get at 1. simpl. by rewrite HP, HTD. }
    split; [done|].
    intros fl' σ' H. apply bind_Ok in H as (? & σ1 & E & H).
    apply forwardDeclareType_sameSchedule in E. by run_W H.
  - intros Hnot. unfold bind at 1. unfold get at 1. simpl.
    assert (negb (hasBeenRequested σ P) || negb (hasBeenRequested σ TD') = true)
      as -> by (destruct Hnot as [-> | ->]; by rewrite ?orb_true_r).
    assert (∃ ok σ', require cfg TD' σ = Ok (ok, σ')) as (ok & σ' & E).
    { unfold require, bind.
      destruct (addImport_Ok cfg TD' σ) as (imp & σ1 & ->).
      destruct imp; simpl; [by eexists _, _|].
      unfold get. destruct (stateOf σ1 TD').1; by eexists _, _. }
    exists ok, σ'. split; [done|]. split.
    + unfold bind. by rewrite E.
    + intros Hl Hd.
      pose proof (require_schedule _ _ _ _ _ E) as [(-> & _ & _)|(-> & ? & _ & _ & ?)];
        [|done].
      exfalso. unfold require, bind in E.
      rewrite (addImport_local cfg TD' σ Hl) in E. simpl in E.
      unfold get in E. by destruct (stateOf σ TD').1; run_W E.
Qed.

Lemma memberTypeCallback_protocol_witness :
  ∃ ok σ', require (ex_cfg [5; 6] ObjC) 6 (ex_requested 6) = Ok (ok, σ') ∧
    memberTypeCallback (ex_cfg [5; 6] ObjC) 5 ex_noFlags true 6
      (ex_requested 6) =
      Ok (if ok then ex_noFlags
          else {| needsToBeIndividuallyDelayed := false;
                  hadAnyDelayedMembers := true |}, σ') ∧
    (isLocal (ex_cfg [5; 6] ObjC) 6 →
     (stateOf (ex_requested 6) 6).1 ≠ Defined →
       ok = false ∧
       declsToWrite σ' = declsToWrite (ex_requested 6) ++ [6] ∧
       (stateOf σ' 6).1 = DefinitionRequested).
Proof.
  apply (memberTypeCallback_protocol (ex_cfg [5; 6] ObjC) 5 ex_noFlags 6
           (ex_requested 6)).
  - reflexivity.
  - discriminate.
  - reflexivity.
  - left. reflexivity.
Defined.

(** C2 fails as stated: [Q] has been requested and the protocol [P] has
    not; the callback for a member of [P] that needs the definition of
    [Q] calls [require], which pushes [Q] and delays [P], where the
    fallback would have written a forward declaration and left the
    stack alone. *)
Lemma memberTypeCallback_one_requested :
  hasBeenRequested (ex_requested 6) 5 = false ∧
  hasBeenRequested (ex_requested 6) 6 = true ∧
  (∃ σ', memberTypeCallback (ex_cfg [5; 6] ObjC) 5 ex_noFlags true 6
           (ex_requested 6) =
         Ok ({| needsToBeIndividuallyDelayed := false;
                hadAnyDelayedMembers := true |}, σ') ∧
         declsToWrite σ' = [6; 6] ∧ os σ' = []) ∧
  (∃ σf, (forwardDeclareType (ex_cfg [5; 6] ObjC) 6 ;;; ret ex_noFlags)
           (ex_requested 6) = Ok (ex_noFlags, σf) ∧
         declsToWrite σf = [6] ∧
         os σf = [OStr "@protocol "; ONameForObjC 6; OStr (";" +:+ endl)]).
Proof.
  split; [done|]. split; [done|]. split.
  - eexists. split; [by vm_compute|]. done.
  - eexists. split; [by vm_compute|]. done.
Qed.

(** ** Member types: what reaches the stack *)

Lemma pushedMember_later cfg container σ0 σe σe' U :
  pushedMember cfg container σ0 σe U → advances cfg σe σe' →
  pushedMember cfg container σ0 σe' U.
Proof.
  intros (Hl & Hreq & Hnd & Hp) [Hext _ Hloc _]. split_and!; try done.
  pose proof (ext_state _ _ Hext U) as Hle. rewrite Hreq in Hle.
  destruct (stateOf σe' U).1 eqn:E.
  - unfold EmissionState_le in Hle. simpl in Hle. lia.
  - done.
  - specialize (Hloc U Hl E). congruence.
Qed.

Lemma hasBeenRequested_earlier σ σ' D :
  extends σ σ' → hasBeenRequested σ' D = false → hasBeenRequested σ D = false.
Proof.
  intros Hext. unfold hasBeenRequested.
  rewrite !bool_decide_eq_false. intros Hn Hr. apply Hn.
  etrans; [exact Hr|]. apply Hext.
Qed.

Lemma pushedMember_earlier cfg container σ0 σ1 σe U :
  advances cfg σ0 σ1 → pushedMember cfg container σ1 σe U →
  pushedMember cfg container σ0 σe U.
Proof.
  intros [Hext _ _ _] (Hl & Hreq & Hnd & Hp). split_and!; try done.
  - intros Hd. apply Hnd. by eapply extends_Defined.
  - intros Hk. destruct (Hp Hk); [left|right];
      by eapply hasBeenRequested_earlier.
Qed.

Lemma memberTypeCallback_schedule cfg container fl nd TD σ fl' σ' :
  memberTypeCallback cfg container fl nd TD σ = Ok (fl', σ') →
  (declsToWrite σ' = declsToWrite σ ∧
   (kind (decls cfg container) ≠ KClass →
    hadAnyDelayedMembers fl' = hadAnyDelayedMembers fl)) ∨
  (declsToWrite σ' = declsToWrite σ ++ [bridged cfg TD] ∧
   hadAnyDelayedMembers fl' = true ∧
   (kind (decls cfg container) = KProtocol ∨
    kind (decls cfg container) = KExtension) ∧
   nd = true ∧ TD ≠ container ∧
   isNominalTypeDecl (kind (decls cfg (bridged cfg TD))) = true ∧
   pushedMember cfg container σ σ' (bridged cfg TD)).
Proof.
  unfold memberTypeCallback.
  destruct (bool_decide (TD = container)) eqn:Eq; [by left; run_W H|].
  apply bool_decide_eq_false in Eq. cbv zeta.
  change (if negb (bool_decide (outputLangMode cfg = Cxx))
          then getObjCTypeDecl (printer cfg) TD else TD) with (bridged cfg TD).
  set (TD' := bridged cfg TD).
  assert (∀ σ fl' σ', (forwardDeclareType cfg TD' ;;; ret fl) σ = Ok (fl', σ') →
            declsToWrite σ' = declsToWrite σ ∧ fl' = fl) as Hgive.
  { intros σ1 fl1 σ1' H. apply bind_Ok in H as (? & σ2 & E & H).
    apply forwardDeclareType_sameSchedule in E as [? _]. by run_W H. }
  destruct (nd && isNominalTypeDecl (kind (decls cfg TD'))) eqn:End;
    [|intros H; apply Hgive in H as [? ->]; by left].
  apply andb_true_iff in End as [-> Hnom].
  destruct (kind (decls cfg container)) eqn:Hk;
    try (intros H; apply Hgive in H as [? ->]; by left).
  - (* class *)
    intros H. apply bind_Ok in H as (ok & σ1 & E & H).
    apply tryRequire_stack in E. run_W H. left. by split.
  - (* protocol *)
    intros H. apply bind_Ok in H as (? & ? & [= <- <-] & H).
    destruct (negb (hasBeenRequested σ container) ||
              negb (hasBeenRequested σ TD')) eqn:Ereq;
      [|apply Hgive in H as [? ->]; by left].
    apply bind_Ok in H as (ok & σ1 & E & H).
    apply require_schedule in E as [(-> & ? & ?)|(-> & ? & ? & ? & ?)]; run_W H.
    + by left.
    + right. unfold pushedMember. split_and!; try done; [by left|].
      intros _. apply orb_true_iff in Ereq as [?%negb_true_iff|?%negb_true_iff];
        auto.
  - (* extension *)
    intros H. apply bind_Ok in H as (ok & σ1 & E & H).
    apply require_schedule in E as [(-> & ? & ?)|(-> & ? & ? & ? & ?)]; run_W H.
    + by left.
    + right. unfold pushedMember. split_and!; try done; [by right|congruence].
Qed.

Lemma walkCallbacks_schedule cfg container reports fl σ fl' σ' :
  walkCallbacks cfg container reports fl σ = Ok (fl', σ') →
  ∃ pushed,
    declsToWrite σ' = declsToWrite σ ++ pushed ∧
    Forall (pushedMember cfg container σ σ') pushed ∧
    Forall (λ U, ∃ TD, (TD, true) ∈ reports ∧ TD ≠ container ∧
                       U = bridged cfg TD ∧
                       isNominalTypeDecl (kind (decls cfg U)) = true) pushed ∧
    (kind (decls cfg container) ≠ KProtocol →
     kind (decls cfg container) ≠ KExtension → pushed = []) ∧
    (kind (decls cfg container) ≠ KClass →
     hadAnyDelayedMembers fl' =
       hadAnyDelayedMembers fl || negb (bool_decide (pushed = []))).
Proof.
  revert fl σ. induction reports as [|[TD nd] reports IH]; intros fl σ; simpl.
  - intros [= <- <-]. exists []. rewrite app_nil_r, orb_false_r.
    by split_and!.
  - intros H. apply bind_Ok in H as (fl1 & σ1 & E & H).
    pose proof (memberTypeCallback_advances _ _ _ _ _ _ _ _ E) as A1.
    pose proof (walkCallbacks_advances _ _ _ _ _ _ _ H) as A2.
    apply IH in H as (pushed & Hst & Hp & Hr & Hc & Hany).
    assert (Forall (pushedMember cfg container σ σ') pushed) as Hp'.
    { eapply Forall_impl; [exact Hp|]. intros U.
      by apply pushedMember_earlier. }
    assert (Forall (λ U, ∃ TD0, (TD0, true) ∈ (TD, nd) :: reports ∧
                         TD0 ≠ container ∧ U = bridged cfg TD0 ∧
                         isNominalTypeDecl (kind (decls cfg U)) = true) pushed)
      as Hr'.
    { eapply Forall_impl; [exact Hr|]. intros U (TD0 & ? & ?).
      exists TD0. split; [by right|done]. }
    apply memberTypeCallback_schedule in E
      as [[E1 Efl]|(E1 & Efl & Hkind & -> & Hne & Hnom & Hpm)].
    + exists pushed. rewrite Hst, E1. split_and!; try done.
      intros Hnc. by rewrite Hany, Efl.
    + assert (kind (decls cfg container) ≠ KClass) as Hnc
        by (destruct Hkind as [-> | ->]; done).
      exists (bridged cfg TD :: pushed). rewrite Hst, E1, <- app_assoc.
      split_and!; try done.
      * constructor; [|done]. by eapply pushedMember_later.
      * constructor; [|done]. exists TD. split_and!; try done. by left.
      * intros ??. by destruct Hkind.
      * intros _. by rewrite Hany, Efl, orb_true_r.
Qed.

Lemma scheduledNestedTypes_cons cfg member members :
  scheduledNestedTypes cfg (member :: members) =
  (if isScheduledNestedType cfg member then [member] else []) ++
  scheduledNestedTypes cfg members.
Proof.
  unfold scheduledNestedTypes. rewrite filter_cons.
  destruct (isScheduledNestedType cfg member).
  - by rewrite decide_True.
  - by rewrite decide_False.
Qed.

Lemma forMembers_schedule cfg members container hadAny nestedTypes σ r σ' :
  forMembers cfg members container hadAny nestedTypes σ = Ok (r, σ') →
  r.2 = nestedTypes ++ scheduledNestedTypes cfg members ∧
  ∃ pushed,
    declsToWrite σ' = declsToWrite σ ++ pushed ∧
    Forall (pushedMember cfg container σ σ') pushed ∧
    Forall (isMemberDependency cfg container members) pushed ∧
    (kind (decls cfg container) ≠ KProtocol →
     kind (decls cfg container) ≠ KExtension → pushed = []) ∧
    (kind (decls cfg container) ≠ KClass →
     r.1 = hadAny || negb (bool_decide (pushed = []))).
Proof.
  revert hadAny nestedTypes σ.
  induction members as [|member members IH]; intros hadAny nestedTypes σ;
    simpl.
  - intros [= <- <-]. simpl. split; [by rewrite app_nil_r|].
    exists []. rewrite app_nil_r, orb_false_r. by split_and!.
  - assert (∀ U, isMemberDependency cfg container members U →
                 isMemberDependency cfg container (member :: members) U)
      as Hweaken.
    { intros U (m & TD & ? & ?). exists m, TD. split; [by right|done]. }
    rewrite scheduledNestedTypes_cons. unfold isScheduledNestedType.
    destruct (isValueDecl (kind (decls cfg member))) eqn:Hv; simpl;
      [|intros H;
        apply IH in H as (? & pushed & ? & ? & ? & ? & ?);
        split; [done|]; exists pushed; split_and!; try done;
        by eapply Forall_impl].
    destruct (shouldInclude (printer cfg) member) eqn:Hi; simpl;
      [|intros H;
        apply IH in H as (? & pushed & ? & ? & ? & ? & ?);
        split; [done|]; exists pushed; split_and!; try done;
        by eapply Forall_impl].
    destruct (isTypeDecl (kind (decls cfg member))) eqn:Ht; simpl.
    + intros H. apply IH in H as (Hn & pushed & ? & ? & ? & ? & ?).
      split.
      * rewrite Hn. destruct (hasExplicitObjCAttr cfg member); simpl.
        -- by rewrite <- app_assoc.
        -- done.
      * exists pushed. split_and!; try done. by eapply Forall_impl.
    + intros H.
      apply bind_Ok in H as (fl & σ1 & E & H).
      apply bind_Ok in H as (? & σ2 & E2 & H).
      pose proof (walkCallbacks_advances _ _ _ _ _ _ _ E) as A1.
      assert (advances cfg σ1 σ2 ∧ declsToWrite σ2 = declsToWrite σ1)
        as [A2 Hst2].
      { destruct (needsToBeIndividuallyDelayed fl); [|by run_W E2].
        destruct (bool_decide (kind (decls cfg container) = KClass));
          run_W E2. split; [|done]. apply advances_with_delayedMembers. }
      pose proof (forMembers_advances _ _ _ _ _ _ _ _ H) as A3.
      apply walkCallbacks_schedule in E
        as (pushed1 & Hst1 & Hp1 & Hr1 & Hc1 & Hany1).
      apply IH in H as (Hn & pushed & Hst & Hp & Hm & Hc & Hany).
      split; [done|].
      exists (pushed1 ++ pushed). rewrite Hst, Hst2, Hst1, <- app_assoc.
      split_and!; try done.
      * apply Forall_app. split.
        -- eapply Forall_impl; [exact Hp1|]. intros U HU.
           eapply pushedMember_later; [exact HU|]. by etrans.
        -- eapply Forall_impl; [exact Hp|]. intros U HU.
           eapply pushedMember_earlier; [|exact HU]. by etrans.
      * apply Forall_app. split.
        -- eapply Forall_impl; [exact Hr1|].
           intros U (TD & ? & ? & ? & ?). exists member, TD.
           split_and!; try done. by left.
        -- by eapply Forall_impl.
      * intros Hk1 Hk2. by rewrite Hc1, Hc.
      * intros Hk. rewrite Hany, Hany1 by done. simpl.
        destruct pushed1, pushed; simpl; by rewrite ?orb_true_r, ?orb_false_r.
Qed.

Lemma forwardDeclareMemberTypes_schedule cfg members container σ b σ' :
  forwardDeclareMemberTypes cfg members container σ = Ok (b, σ') →
  ∃ pushed front back,
    declsToWrite σ ++ pushed = front ++ [back] ∧
    declsToWrite σ' =
      front ++ rev (scheduledNestedTypes cfg members) ++ [back] ∧
    Forall (pushedMember cfg container σ σ') pushed ∧
    Forall (isMemberDependency cfg container members) pushed ∧
    (kind (decls cfg container) ≠ KProtocol →
     kind (decls cfg container) ≠ KExtension → pushed = []) ∧
    (kind (decls cfg container) ≠ KClass →
     b = bool_decide (pushed = [])).
Proof.
  unfold forwardDeclareMemberTypes.
  destruct (negb _); [done|]. intros H.
  apply bind_Ok in H as ([hadAny nested] & σ1 & E & H).
  apply bind_Ok in H as (? & σ2 & E2 & H). run_W H.
  pose proof (insertBeforeBack_advances cfg _ _ _ _ E2) as A2.
  apply forMembers_schedule in E as (Hn & pushed & Hst & Hp & Hm & Hc & Hany).
  simpl in *. subst nested.
  unfold insertBeforeBack in E2. run_W E2.
  destruct (unsnoc (declsToWrite σ1)) as [[front back]|] eqn:Eu; run_W E2.
  apply unsnoc_Some in Eu. exists pushed, front, back. simpl.
  split_and!; try done.
  - by rewrite <- Hst.
  - intros Hk. rewrite Hany by done. by destruct pushed.
Qed.

(** ** Nested types *)




(** ** The ordering engine *)

Lemma StringRef_compare_antisym a b :
  StringRef_compare a b = (- StringRef_compare b a)%Z.
Proof.
  unfold StringRef_compare. rewrite String.compare_antisym.
  by destruct (String.compare b a).
Qed.

Lemma String_compare_refl a : String.compare a a = Eq.
Proof.
  induction a as [|c a IH]; simpl; [done|].
  unfold Ascii.compare. by rewrite N.compare_refl.
Qed.

Lemma StringRef_compare_refl a : StringRef_compare a a = 0%Z.
Proof. unfold StringRef_compare. by rewrite String_compare_refl. Qed.

Lemma StringRef_compare_0 a b : StringRef_compare a b = 0%Z → a = b.
Proof.
  unfold StringRef_compare. destruct (String.compare a b) eqn:E; try done.
  intros _. by apply String.compare_eq_iff.
Qed.

Lemma std_mismatch_sym {A} (pred : A → A → bool) l1 l2 :
  (∀ x y, pred x y = pred y x) →
  std_mismatch pred l2 l1 = (λ p, (p.2, p.1)) <$> std_mismatch pred l1 l2.
Proof.
  intros Hsym. revert l2. induction l1 as [|x l1 IH]; intros [|y l2];
    simpl; try done.
  rewrite (Hsym y x). destruct (pred x y); [apply IH|done].
Qed.

Lemma std_mismatch_pred {A} (pred : A → A → bool) l1 l2 x y :
  std_mismatch pred l1 l2 = Some (x, y) → pred x y = false.
Proof.
  revert l2. induction l1 as [|a l1 IH]; intros [|b l2]; simpl; try done.
  destruct (pred a b) eqn:E; [apply IH|]. by intros [= <- <-].
Qed.

(** The last tie-break compares the names of the first pair of
    protocols whose names are equal: it never breaks a tie. *)
Lemma compareDecls_last_step cfg (lhsProtos rhsProtos : list DeclId) :
  match
    std_mismatch
      (λ nextLHSProto nextRHSProto,
         negb (bool_decide (declName (decls cfg nextLHSProto) =
                            declName (decls cfg nextRHSProto))))
      lhsProtos rhsProtos
  with
  | None => Ok Equivalent
  | Some (l, r) =>
      Ok (StringRef_compare (declName (decls cfg l)) (declName (decls cfg r)))
  end = Ok 0%Z.
Proof.
  destruct (std_mismatch _ _ _) as [[l r]|] eqn:E; [|done].
  apply std_mismatch_pred in E. apply negb_false_iff, bool_decide_eq_true in E.
  by rewrite E, StringRef_compare_refl.
Qed.

Lemma compareDecls_antisym cfg a b c :
  compareDecls cfg a b = Ok c → compareDecls cfg b a = Ok (- c)%Z.
Proof.
  unfold compareDecls. rewrite !compareDecls_last_step.
  destruct (bool_decide (a = b)) eqn:Eab; [done|].
  apply bool_decide_eq_false in Eab.
  rewrite (bool_decide_eq_false_2 (b = a)) by congruence.
  destruct (getSortName cfg b) as [bName|]; [|done].
  destruct (getSortName cfg a) as [aName|]; [|done].
  rewrite (StringRef_compare_antisym aName bName).
  destruct (bool_decide (StringRef_compare bName aName = 0%Z)) eqn:E0.
  - apply bool_decide_eq_true in E0. rewrite E0. simpl.
    destruct (isValueDecl (kind (decls cfg a))),
             (isValueDecl (kind (decls cfg b))); simpl; try done;
      try (by intros [= <-]).
    repeat case_bool_decide; simpl; try (by intros [= <-]); try lia.
  - apply bool_decide_eq_false in E0. simpl.
    rewrite bool_decide_eq_false_2 by lia. simpl. by intros [= <-].
Qed.

Lemma insertSorted_Sorted cfg x sorted r :
  Sorted (notAfter cfg) sorted →
  insertSorted (compareDecls cfg) x sorted = Ok r →
  Sorted (notAfter cfg) r ∧
  (∀ p, HdRel (notAfter cfg) p sorted → notAfter cfg p x →
        HdRel (notAfter cfg) p r).
Proof.
  revert r. induction sorted as [|y sorted IH]; intros r Hs; simpl.
  - intros [= <-]. split; [by repeat constructor|].
    intros p _ Hp. by constructor.
  - destruct (compareDecls cfg x y) as [c|] eqn:Ec; [|done].
    destruct (bool_decide (c < 0)%Z) eqn:Elt.
    + apply bool_decide_eq_true in Elt. intros [= <-]. split.
      * constructor; [done|]. constructor. exists c. split; [done|lia].
      * intros p _ Hp. by constructor.
    + apply bool_decide_eq_false in Elt.
      destruct (insertSorted (compareDecls cfg) x sorted) as [r'|] eqn:Er;
        [|done].
      intros [= <-]. apply Sorted_inv in Hs as [Hs Hhd].
      destruct (IH r' Hs eq_refl) as [Hs' Hhd']. split.
      * constructor; [done|]. apply Hhd'; [done|].
        exists (- c)%Z. split; [by apply compareDecls_antisym|lia].
      * intros p Hp _. apply HdRel_inv in Hp. by constructor.
Qed.

Lemma array_pod_sort_from_Sorted cfg todo sorted r :
  Sorted (notAfter cfg) sorted →
  array_pod_sort_from (compareDecls cfg) todo sorted = Ok r →
  Sorted (notAfter cfg) r.
Proof.
  revert sorted. induction todo as [|x todo IH]; intros sorted Hs; simpl.
  - by intros [= <-].
  - destruct (insertSorted (compareDecls cfg) x sorted) as [s'|] eqn:E;
      [|done].
    apply IH. by eapply insertSorted_Sorted.
Qed.




(** ** Determinism *)

Lemma String_compare_Lt_trans a b c :
  String.compare a b = Lt → String.compare b c = Lt → String.compare a c = Lt.
Proof.
  revert b c. induction a as [|x a IH]; intros [|y b] [|z c]; simpl; try done.
  unfold Ascii.compare.
  destruct (N.compare_spec (Ascii.N_of_ascii x) (Ascii.N_of_ascii y)) as [Hxy|Hxy|Hxy];
    destruct (N.compare_spec (Ascii.N_of_ascii y) (Ascii.N_of_ascii z)) as [Hyz|Hyz|Hyz];
    try done; intros H1 H2.
  - rewrite Hxy, Hyz, N.compare_refl. eauto.
  - assert ((Ascii.N_of_ascii x ?= Ascii.N_of_ascii z)%N = Lt) as ->; [|done].
    apply N.compare_lt_iff. lia.
  - assert ((Ascii.N_of_ascii x ?= Ascii.N_of_ascii z)%N = Lt) as ->; [|done].
    apply N.compare_lt_iff. lia.
  - assert ((Ascii.N_of_ascii x ?= Ascii.N_of_ascii z)%N = Lt) as ->; [|done].
    apply N.compare_lt_iff. lia.
Qed.

Lemma keyBefore_irrefl cfg a : ¬ keyBefore cfg a a.
Proof.
  unfold keyBefore. rewrite String_compare_refl.
  intros [?|[_ [[? ?]|[_ [?|[_ ?]]]]]]; try done; try lia. congruence.
Qed.

Lemma keyBefore_trans cfg a b c :
  keyBefore cfg a b → keyBefore cfg b c → keyBefore cfg a c.
Proof.
  unfold keyBefore.
  intros [H1|[E1 H1]] [H2|[E2 H2]].
  - left. by eapply String_compare_Lt_trans.
  - left. by rewrite <- E2.
  - left. by rewrite E1.
  - right. split; [congruence|].
    destruct H1 as [[? ?]|[? H1]], H2 as [[? ?]|[? H2]].
    + congruence.
    + left. split; congruence.
    + left. split; congruence.
    + right. split; [congruence|]. lia.
Qed.

Lemma strictlyBefore_keyBefore cfg a b :
  strictlyBefore cfg a b → keyBefore cfg a b.
Proof.
  intros (c & Hc & Hlt). unfold compareDecls in Hc.
  rewrite compareDecls_last_step in Hc.
  destruct (bool_decide (a = b)); [done|].
  unfold keyBefore, sortNameOf.
  destruct (getSortName cfg b) as [bName|]; [|done].
  destruct (getSortName cfg a) as [aName|]; [|done].
  destruct (bool_decide (StringRef_compare bName aName = 0%Z)) eqn:E0.
  - apply bool_decide_eq_true, StringRef_compare_0 in E0 as ->.
    simpl in Hc. right. split; [done|].
    destruct (isValueDecl (kind (decls cfg a))),
             (isValueDecl (kind (decls cfg b))); simpl in Hc; try done.
    + injection Hc as <-. unfold Descending in Hlt. lia.
    + left. done.
    + right. split; [done|].
      repeat case_bool_decide; simpl in Hc; injection Hc as <-;
        unfold Descending, Ascending, Equivalent in Hlt; lia.
  - simpl in Hc. injection Hc as <-. left.
    unfold StringRef_compare in Hlt.
    by destruct (String.compare bName aName).
Qed.

Lemma strictlyBefore_asym cfg a b :
  strictlyBefore cfg a b → strictlyBefore cfg b a → False.
Proof.
  intros H1%strictlyBefore_keyBefore H2%strictlyBefore_keyBefore.
  eapply keyBefore_irrefl, keyBefore_trans; eassumption.
Qed.

(** Where the comparator separates any two distinct declarations of a
    set, "placed before" is transitive on the set. *)
Lemma strictlyBefore_trans cfg (S : DeclId → Prop) a b c :
  (∀ x y, S x → S y → x ≠ y →
          ∃ d, compareDecls cfg x y = Ok d ∧ d ≠ 0%Z) →
  S a → S c →
  strictlyBefore cfg a b → strictlyBefore cfg b c → strictlyBefore cfg a c.
Proof.
  intros Hstrict Ha Hc Hab Hbc.
  assert (keyBefore cfg a c) as Hk.
  { eapply keyBefore_trans; by apply strictlyBefore_keyBefore. }
  assert (a ≠ c) as Hne by (intros ->; by eapply keyBefore_irrefl).
  destruct (Hstrict a c Ha Hc Hne) as (d & Hd & Hd0).
  destruct (decide (d < 0)%Z); [by exists d|].
  exfalso. eapply keyBefore_irrefl, keyBefore_trans; [exact Hk|].
  apply strictlyBefore_keyBefore. exists (- d)%Z.
  split; [by apply compareDecls_antisym|lia].
Qed.

Lemma insertSorted_StronglySorted cfg (S : DeclId → Prop) x sorted :
  (∀ x y, S x → S y → x ≠ y →
          ∃ d, compareDecls cfg x y = Ok d ∧ d ≠ 0%Z) →
  S x → Forall S sorted → x ∉ sorted →
  StronglySorted (strictlyBefore cfg) sorted →
  ∃ r, insertSorted (compareDecls cfg) x sorted = Ok r ∧
       StronglySorted (strictlyBefore cfg) r.
Proof.
  intros Hstrict Hx. induction sorted as [|y sorted IH]; intros HS Hnin Hs.
  - exists [x]. split; [done|]. by repeat constructor.
  - apply Forall_cons in HS as [Hy HS].
    apply not_elem_of_cons in Hnin as [Hxy Hnin].
    apply StronglySorted_inv in Hs as [Hs Hall].
    destruct (Hstrict x y Hx Hy Hxy) as (c & Hc & Hc0). simpl. rewrite Hc.
    destruct (bool_decide (c < 0)%Z) eqn:Elt.
    + apply bool_decide_eq_true in Elt. eexists. split; [done|].
      assert (strictlyBefore cfg x y) as Hb by by exists c.
      constructor; [by constructor|]. constructor; [done|].
      rewrite Forall_forall in Hall, HS. apply Forall_forall. intros z Hz.
      eapply (strictlyBefore_trans cfg S x y z); eauto.
    + apply bool_decide_eq_false in Elt.
      destruct (IH HS Hnin Hs) as (r & Hr & Hsr). rewrite Hr.
      eexists. split; [done|]. constructor; [done|].
      assert (strictlyBefore cfg y x) as Hb.
      { exists (- c)%Z. split; [by apply compareDecls_antisym|lia]. }
      apply Forall_forall. intros z Hz.
      rewrite (insertSorted_Permutation _ _ _ _ Hr) in Hz.
      apply elem_of_cons in Hz as [->|Hz]; [done|].
      rewrite Forall_forall in Hall. by apply Hall.
Qed.

Lemma array_pod_sort_from_StronglySorted cfg (S : DeclId → Prop) todo sorted :
  (∀ x y, S x → S y → x ≠ y →
          ∃ d, compareDecls cfg x y = Ok d ∧ d ≠ 0%Z) →
  Forall S todo → Forall S sorted → NoDup (todo ++ sorted) →
  StronglySorted (strictlyBefore cfg) sorted →
  ∃ r, array_pod_sort_from (compareDecls cfg) todo sorted = Ok r ∧
       StronglySorted (strictlyBefore cfg) r.
Proof.
  intros Hstrict. revert sorted.
  induction todo as [|x todo IH]; intros sorted Ht HS Hnd Hs; simpl.
  - by exists sorted.
  - apply Forall_cons in Ht as [Hx Ht]. simpl in Hnd.
    apply NoDup_cons in Hnd as [Hnin Hnd].
    destruct (insertSorted_StronglySorted cfg S x sorted) as (s' & Hs' & Hss');
      try done.
    { intros Hin. apply Hnin, elem_of_app. by right. }
    rewrite Hs'. apply IH; try done.
    + apply Forall_forall. intros z Hz.
      rewrite (insertSorted_Permutation _ _ _ _ Hs') in Hz.
      apply elem_of_cons in Hz as [->|Hz]; [done|].
      rewrite Forall_forall in HS. by apply HS.
    + rewrite (insertSorted_Permutation _ _ _ _ Hs').
      rewrite <- Permutation_middle. by constructor.
Qed.

Lemma List_filter_Permutation {A} (f : A → bool) l1 l2 :
  l1 ≡ₚ l2 → List.filter f l1 ≡ₚ List.filter f l2.
Proof.
  induction 1 as [|x l1 l2 _ IH|x y l|l1 l2 l3 _ IH1 _ IH2]; simpl.
  - done.
  - destruct (f x); [by constructor|done].
  - destruct (f x), (f y); try done. apply Permutation_swap.
  - by etrans.
Qed.

Lemma List_filter_NoDup {A} (f : A → bool) l :
  NoDup l → NoDup (List.filter f l).
Proof.
  induction 1 as [|x l Hx _ IH]; simpl; [constructor|].
  destruct (f x); [|done]. constructor; [|done].
  intros Hin. apply Hx. apply list_elem_of_In in Hin.
  apply filter_In in Hin as [Hin _]. by apply list_elem_of_In.
Qed.

(** C8 (as the code has it). The pass is a function of the list of
    top-level declarations; for two orders of one set of declarations
    that the comparator separates (no two distinct filtered
    declarations compare as equivalent, none is compared with a plain
    declaration of its own name), the sorted array, and with it the
    whole outcome of the pass (output, import set, ledger), is the
    same. *)
Theorem writeDecls_order_independent cfg top1 top2 fuel :
  top1 ≡ₚ top2 →
  NoDup top1 →
  (∀ a b, a ∈ filteredDecls cfg top1 → b ∈ filteredDecls cfg top1 → a ≠ b →
          ∃ c, compareDecls cfg a b = Ok c ∧ c ≠ 0%Z) →
  sortedDecls cfg top1 = sortedDecls cfg top2 ∧
  writeDecls cfg top1 fuel = writeDecls cfg top2 fuel.
Proof.
  intros Hperm Hnd Hstrict.
  assert (sortedDecls cfg top1 = sortedDecls cfg top2) as Heq.
  { pose proof (List_filter_Permutation
                  (λ D, negb (removedFromTopLevel cfg D)) _ _ Hperm) as Hp.
    fold (filteredDecls cfg top1) in Hp. fold (filteredDecls cfg top2) in Hp.
    pose proof (List_filter_NoDup
                  (λ D, negb (removedFromTopLevel cfg D)) _ Hnd) as Hnd1.
    fold (filteredDecls cfg top1) in Hnd1.
    assert (NoDup (filteredDecls cfg top2)) as Hnd2 by by rewrite <- Hp.
    set (S := λ D, D ∈ filteredDecls cfg top1).
    destruct (array_pod_sort_from_StronglySorted cfg S
                (filteredDecls cfg top1) []) as (r1 & Hr1 & Hs1); try done.
    { by apply Forall_forall. }
    { by rewrite app_nil_r. }
    { constructor. }
    destruct (array_pod_sort_from_StronglySorted cfg S
                (filteredDecls cfg top2) []) as (r2 & Hr2 & Hs2); try done.
    { apply Forall_forall. intros z Hz. unfold S. by rewrite Hp. }
    { by rewrite app_nil_r. }
    { constructor. }
    unfold sortedDecls, array_pod_sort. rewrite Hr1, Hr2. f_equal.
    apply (StronglySorted_unique_strong (strictlyBefore cfg)); try done.
    - intros x y _ _ Hxy Hyx. exfalso. by eapply strictlyBefore_asym.
    - apply array_pod_sort_from_Permutation in Hr1, Hr2.
      rewrite app_nil_r in Hr1, Hr2. by rewrite Hr1, Hr2. }
  split; [done|]. unfold writeDecls. by rewrite Heq.
Qed.

Lemma writeDecls_order_independent_witness :
  sortedDecls (ex_cfg [] ObjC) [1; 2; 3] =
  sortedDecls (ex_cfg [] ObjC) [3; 1; 2] ∧
  writeDecls (ex_cfg [] ObjC) [1; 2; 3] 20 =
  writeDecls (ex_cfg [] ObjC) [3; 1; 2] 20.
Proof.
  apply (writeDecls_order_independent (ex_cfg [] ObjC) [1; 2; 3] [3; 1; 2] 20).
  - change [1; 2; 3] with ([1; 2] ++ [3]). symmetry.
    apply Permutation_cons_append.
  - apply NoDup_ListNoDup. repeat constructor; simpl; intuition lia.
  - intros a b Ha Hb Hne.
    assert (filteredDecls (ex_cfg [] ObjC) [1; 2; 3] = [1; 2; 3]) as E
      by reflexivity.
    rewrite E in Ha, Hb.
    repeat (apply elem_of_cons in Ha as [->|Ha]);
      try (by apply elem_of_nil in Ha);
      repeat (apply elem_of_cons in Hb as [->|Hb]);
      try (by apply elem_of_nil in Hb);
      try done; eexists; (split; [vm_compute; reflexivity|done]).
Defined.

(** C8 fails as stated: two extensions of [A] with one member each and
    no conformance compare as equivalent, so their order in the array,
    and the order in which they are printed, is that of the input. *)
Lemma writeDecls_depends_on_order :
  [1; 2; 4] ≡ₚ [1; 4; 2] ∧
  compareDecls (ex_cfg [] ObjC) 2 4 = Ok Equivalent ∧
  sortedDecls (ex_cfg [] ObjC) [1; 2; 4] = Ok [2; 4; 1] ∧
  sortedDecls (ex_cfg [] ObjC) [1; 4; 2] = Ok [4; 2; 1] ∧
  (∃ σ1 σ2,
     writeDecls (ex_cfg [] ObjC) [1; 2; 4] 20 = Some (Ok σ1) ∧
     writeDecls (ex_cfg [] ObjC) [1; 4; 2] 20 = Some (Ok σ2) ∧
     printedDecls σ1 = [1; 4; 2] ∧ printedDecls σ2 = [1; 2; 4] ∧
     os σ1 ≠ os σ2).
Proof.
  split; [apply Permutation_skip, Permutation_swap|].
  split; [by vm_compute|]. split; [by vm_compute|]. split; [by vm_compute|].
  eexists _, _. split; [by vm_compute|]. split; [by vm_compute|].
  split; [by vm_compute|]. split; [by vm_compute|].
  vm_compute. discriminate.
Qed.

(** ** Termination: what [require] pushes *)

Lemma isMemberDependency_memberDependencies cfg container members U :
  isMemberDependency cfg container members U →
  U ∈ memberDependencies cfg container members.
Proof.
  intros (member & TD & Hm & Hv & Hi & Ht & Hw & Hne & -> & Hnom).
  unfold memberDependencies. apply list_elem_of_bind.
  exists member. split; [|done]. rewrite Hv, Hi, Ht. simpl.
  apply list_elem_of_bind. exists (TD, true). split; [|done]. simpl.
  rewrite bool_decide_eq_false_2 by done. rewrite Hnom. simpl.
  by apply list_elem_of_singleton.
Qed.

Lemma pushedMember_pushedDecl cfg container σ0 σe U :
  pushedMember cfg container σ0 σe U → pushedDecl cfg σ0 σe U.
Proof. intros (? & ? & ? & _). by split_and!. Qed.

Lemma pushedDecl_later cfg σ0 σe σe' U :
  pushedDecl cfg σ0 σe U → advances cfg σe σe' → pushedDecl cfg σ0 σe' U.
Proof.
  intros (Hl & Hreq & Hnd) [Hext _ Hloc _]. split_and!; try done.
  pose proof (ext_state _ _ Hext U) as Hle. rewrite Hreq in Hle.
  destruct (stateOf σe' U).1 eqn:E.
  - unfold EmissionState_le in Hle. simpl in Hle. lia.
  - done.
  - specialize (Hloc U Hl E). congruence.
Qed.

Lemma pushedDecl_earlier cfg σ0 σ1 σe U :
  extends σ0 σ1 → pushedDecl cfg σ1 σe U → pushedDecl cfg σ0 σe U.
Proof.
  intros Hext (Hl & Hreq & Hnd). split_and!; try done.
  intros Hd. apply Hnd. by eapply extends_Defined.
Qed.

Lemma require_pushedDecl cfg D σ b σ' :
  require cfg D σ = Ok (b, σ') →
  ∃ pushed, declsToWrite σ' = declsToWrite σ ++ pushed ∧
            Forall (λ U, U = D ∧ pushedDecl cfg σ σ' U) pushed ∧
            b = bool_decide (pushed = []).
Proof.
  intros H. apply require_schedule in H
    as [(-> & ? & ?)|(-> & ? & ? & ? & ?)].
  - exists []. rewrite app_nil_r. by split_and!.
  - exists [D]. split_and!; try done. constructor; [|done].
    split; [done|]. by split_and!.
Qed.

Lemma requireProtocols_schedule cfg mustBeObjC protos acc σ b σ' :
  requireProtocols cfg mustBeObjC protos acc σ = Ok (b, σ') →
  ∃ pushed,
    declsToWrite σ' = declsToWrite σ ++ pushed ∧
    Forall (λ U, U ∈ protos ∧ shouldInclude (printer cfg) U = true ∧
                 pushedDecl cfg σ σ' U) pushed ∧
    b = acc && bool_decide (pushed = []).
Proof.
  revert acc σ. induction protos as [|proto protos IH]; intros acc σ; simpl.
  - intros [= <- <-]. exists []. rewrite app_nil_r, andb_true_r.
    by split_and!.
  - destruct (shouldInclude (printer cfg) proto) eqn:Hi.
    + destruct (mustBeObjC && negb (isObjC (decls cfg proto))); [done|].
      intros H. apply bind_Ok in H as (ok & σ1 & E & H).
      pose proof (require_advances _ _ _ _ _ E) as A1.
      pose proof (requireProtocols_advances _ _ _ _ _ _ _ H) as A2.
      apply require_pushedDecl in E as (p1 & Hst1 & Hp1 & ->).
      apply IH in H as (p2 & Hst2 & Hp2 & ->).
      exists (p1 ++ p2). rewrite Hst2, Hst1, <- app_assoc.
      split_and!; try done.
      * apply Forall_app. split.
        -- apply (Forall_impl _ _ _ Hp1). intros U [-> HU].
           split_and!; [by left|done|by eapply pushedDecl_later].
        -- apply (Forall_impl _ _ _ Hp2). intros U (? & ? & HU).
           split_and!; [by right|done|].
           eapply pushedDecl_earlier; [|exact HU]. apply A1.
      * destruct acc, p1, p2; done.
    + intros H. apply IH in H as (p2 & Hst2 & Hp2 & ->).
      exists p2. split_and!; try done.
      apply (Forall_impl _ _ _ Hp2). intros U (? & ? & HU).
      split_and!; [by right|done..].
Qed.

(** ** Termination: what is assumed, unfolded *)

Section WellFormedFacts.
Context (cfg : Config) (univ : list DeclId) (rk nrk : DeclId → nat).
Context (Hwf : wellFormedGraph cfg univ rk nrk = true).

Lemma wellFormedDecl_in D :
  D ∈ univ → wellFormedDecl cfg univ rk nrk D = true.
Proof.
  intros HD. unfold wellFormedGraph in Hwf.
  rewrite forallb_forall in Hwf. apply Hwf. by apply list_elem_of_In.
Qed.

Lemma lowerIn_spec D U :
  lowerIn univ rk D U = true → U ∈ univ ∧ rk U < rk D.
Proof.
  unfold lowerIn. rewrite andb_true_iff, !bool_decide_eq_true. done.
Qed.

Lemma classLower_spec D C :
  classLower cfg univ rk D (Some C) = true →
  kind (decls cfg C) = KClass ∧ C ∈ univ ∧ rk C < rk D.
Proof.
  unfold classLower. rewrite andb_true_iff, bool_decide_eq_true.
  intros [? ?%lowerIn_spec]. tauto.
Qed.

Lemma protocolsLower_spec D protos P :
  protocolsLower cfg univ rk D protos = true →
  P ∈ protos → shouldInclude (printer cfg) P = true →
  kind (decls cfg P) = KProtocol ∧ P ∈ univ ∧ rk P < rk D.
Proof.
  unfold protocolsLower. rewrite forallb_forall.
  intros H HP Hi. apply list_elem_of_In in HP. specialize (H P HP).
  rewrite Hi in H. simpl in H.
  apply andb_true_iff in H as [?%bool_decide_eq_true ?%lowerIn_spec]. tauto.
Qed.

Lemma wellFormed_nested D N :
  D ∈ univ → N ∈ scheduledNestedTypes cfg (members (decls cfg D)) →
  N ∈ univ ∧ nrk N < nrk D.
Proof.
  intros HD HN. pose proof (wellFormedDecl_in D HD) as H.
  unfold wellFormedDecl in H. apply andb_true_iff in H as [_ H].
  rewrite forallb_forall in H. apply list_elem_of_In in HN.
  specialize (H N HN).
  apply andb_true_iff in H as [?%bool_decide_eq_true ?%bool_decide_eq_true].
  done.
Qed.

Lemma wellFormed_extension_nested ed N :
  ed ∈ univ → kind (decls cfg ed) = KExtension →
  N ∈ scheduledNestedTypes cfg (members (decls cfg ed)) →
  N ∈ univ ∧ nrk N < nrk (extendedNominal (decls cfg ed)).
Proof.
  intros HD Hk HN. pose proof (wellFormedDecl_in ed HD) as H.
  unfold wellFormedDecl in H. rewrite Hk in H.
  apply andb_true_iff in H as [H _].
  apply andb_true_iff in H as [_ H].
  rewrite forallb_forall in H. apply list_elem_of_In in HN.
  specialize (H N HN).
  apply andb_true_iff in H as [?%bool_decide_eq_true ?%bool_decide_eq_true].
  done.
Qed.

Lemma wellFormed_class D :
  D ∈ univ → kind (decls cfg D) = KClass →
  classLower cfg univ rk D (superclassDecl (decls cfg D)) = true ∧
  protocolsLower cfg univ rk D (localProtocols (decls cfg D)) = true.
Proof.
  intros HD Hk. pose proof (wellFormedDecl_in D HD) as H.
  unfold wellFormedDecl in H. rewrite Hk in H.
  apply andb_true_iff in H as [H _]. by apply andb_true_iff in H.
Qed.

Lemma wellFormed_protocol D :
  D ∈ univ → kind (decls cfg D) = KProtocol →
  protocolsLower cfg univ rk D (inheritedProtocols (decls cfg D)) = true ∧
  ∀ U, isMemberDependency cfg D (members (decls cfg D)) U → U ∈ univ.
Proof.
  intros HD Hk. pose proof (wellFormedDecl_in D HD) as H.
  unfold wellFormedDecl in H. rewrite Hk in H.
  apply andb_true_iff in H as [H _]. apply andb_true_iff in H as [H1 H2].
  split; [done|]. intros U HU%isMemberDependency_memberDependencies.
  rewrite forallb_forall in H2. apply list_elem_of_In in HU.
  specialize (H2 U HU). by apply bool_decide_eq_true in H2.
Qed.

Lemma wellFormed_extension D :
  D ∈ univ → kind (decls cfg D) = KExtension →
  classLower cfg univ rk D (selfClassDecl (decls cfg D)) = true ∧
  protocolsLower cfg univ rk D (localProtocols (decls cfg D)) = true ∧
  ∀ U, isMemberDependency cfg D (members (decls cfg D)) U →
       U ∈ univ ∧ rk U < rk D.
Proof.
  intros HD Hk. pose proof (wellFormedDecl_in D HD) as H.
  unfold wellFormedDecl in H. rewrite Hk in H.
  apply andb_true_iff in H as [H _]. apply andb_true_iff in H as [H _].
  apply andb_true_iff in H as [H H3]. apply andb_true_iff in H as [H1 H2].
  split_and!; try done. intros U HU%isMemberDependency_memberDependencies.
  rewrite forallb_forall in H3. apply list_elem_of_In in HU.
  by apply lowerIn_spec, H3.
Qed.

End WellFormedFacts.

(** ** Termination: the measure *)

Lemma filter_length_le {A} (P Q : A → Prop)
    `{!∀ x, Decision (P x)} `{!∀ x, Decision (Q x)} (l : list A) :
  (∀ x, x ∈ l → P x → Q x) →
  length (filter P l) ≤ length (filter Q l).
Proof.
  induction l as [|x l IH]; intros Himp; [done|].
  rewrite !filter_cons.
  assert (length (filter P l) ≤ length (filter Q l)) as Hle.
  { apply IH. intros y Hy. apply Himp. by right. }
  destruct (decide (P x)) as [HP|HP].
  - rewrite decide_True by (apply Himp; [by left|done]). simpl. lia.
  - destruct (decide (Q x)); simpl; lia.
Qed.

Lemma filter_length_lt {A} (P Q : A → Prop)
    `{!∀ x, Decision (P x)} `{!∀ x, Decision (Q x)} (l : list A) y :
  (∀ x, x ∈ l → P x → Q x) → y ∈ l → Q y → ¬ P y →
  length (filter P l) < length (filter Q l).
Proof.
  induction l as [|x l IH]; intros Himp Hy HQ HP;
    [by apply elem_of_nil in Hy|].
  rewrite !filter_cons.
  assert (∀ z, z ∈ l → P z → Q z) as H'
    by (intros z Hz; apply Himp; by right).
  pose proof (filter_length_le P Q l H') as Hle.
  apply elem_of_cons in Hy as [->|Hy].
  - rewrite decide_False by done. rewrite decide_True by done. simpl. lia.
  - specialize (IH H' Hy HQ HP).
    destruct (decide (P x)) as [HPx|HPx].
    + rewrite decide_True by (apply Himp; [by left|done]). simpl. lia.
    + destruct (decide (Q x)); simpl; lia.
Qed.

Section Measure.
Context (cfg : Config) (univ : list DeclId).

Lemma notDefinedCount_le σ σ' :
  extends σ σ' → notDefinedCount univ σ' ≤ notDefinedCount univ σ.
Proof.
  intros Hext. apply filter_length_le. intros U _ Hn Hd. apply Hn.
  by eapply extends_Defined.
Qed.

Lemma notDefinedCount_lt σ σ' U :
  extends σ σ' → U ∈ univ →
  (stateOf σ U).1 ≠ Defined → (stateOf σ' U).1 = Defined →
  notDefinedCount univ σ' < notDefinedCount univ σ.
Proof.
  intros Hext HU Hn Hd. apply (filter_length_lt _ _ _ U); try done.
  - intros V _ HnV HdV. apply HnV. by eapply extends_Defined.
  - by intros ?.
Qed.

Lemma notYetCount_le σ σ' :
  extends σ σ' → notYetCount univ σ' ≤ notYetCount univ σ.
Proof.
  intros Hext. apply filter_length_le. intros U _ Hn.
  pose proof (ext_state _ _ Hext U) as Hle. rewrite Hn in Hle.
  unfold EmissionState_le in Hle.
  destruct (stateOf σ U).1; simpl in Hle; [done|lia..].
Qed.

Lemma notYetCount_lt σ σ' U :
  extends σ σ' → U ∈ univ →
  hasBeenRequested σ U = false →
  (stateOf σ' U).1 = DefinitionRequested →
  notYetCount univ σ' < notYetCount univ σ.
Proof.
  intros Hext HU Hn Hd. apply (filter_length_lt _ _ _ U); try done.
  - intros V _ HnV.
    pose proof (ext_state _ _ Hext V) as Hle. rewrite HnV in Hle.
    unfold EmissionState_le in Hle.
    destruct (stateOf σ V).1; simpl in Hle; [done|lia..].
  - unfold hasBeenRequested in Hn. apply bool_decide_eq_false in Hn.
    destruct (stateOf σ U).1; simpl in Hn; [done|lia..].
  - by rewrite Hd.
Qed.

End Measure.

(** ** Termination: one attempt at a declaration *)

Lemma elem_of_rev {A} (x : A) l : x ∈ rev l ↔ x ∈ l.
Proof. rewrite !list_elem_of_In. symmetry. apply in_rev. Qed.

Lemma forwardDeclareCxxValueTypeIfNeeded_sameSchedule cfg NTD :
  preserves sameSchedule (forwardDeclareCxxValueTypeIfNeeded cfg NTD).
Proof. unfold forwardDeclareCxxValueTypeIfNeeded. repeat sched_step. Qed.

(** [forwardDeclareMemberTypes] on a stack whose back is [D]: either
    nothing was pushed and the nested types are under [D], or the last
    declaration pushed is the new back. *)
Lemma forwardDeclareMemberTypes_back cfg members container rest D σ b σ' :
  declsToWrite σ = rest ++ [D] →
  forwardDeclareMemberTypes cfg members container σ = Ok (b, σ') →
  (declsToWrite σ' = rest ++ rev (scheduledNestedTypes cfg members) ++ [D] ∧
   (kind (decls cfg container) ≠ KClass → b = true)) ∨
  (∃ L U,
     declsToWrite σ' =
       rest ++ [D] ++ (L ++ rev (scheduledNestedTypes cfg members)) ++ [U] ∧
     Forall (isMemberDependency cfg container members) (L ++ [U]) ∧
     pushedMember cfg container σ σ' U ∧
     (kind (decls cfg container) = KProtocol ∨
      kind (decls cfg container) = KExtension) ∧
     b = false).
Proof.
  intros Hst H.
  apply forwardDeclareMemberTypes_schedule in H
    as (pushed & front & back & Hfb & Hst' & Hp & Hm & Hnone & Hb).
  destruct pushed as [|U pushed _] using rev_ind.
  - left. rewrite app_nil_r, Hst in Hfb.
    apply app_inj_tail in Hfb as [<- <-]. split; [done|].
    intros Hk. by rewrite (Hb Hk).
  - right. rewrite Hst, app_assoc in Hfb.
    apply app_inj_tail in Hfb as [<- <-].
    assert (kind (decls cfg container) = KProtocol ∨
            kind (decls cfg container) = KExtension) as Hk.
    { destruct (decide (kind (decls cfg container) = KProtocol)); [by left|].
      destruct (decide (kind (decls cfg container) = KExtension));
        [by right|].
      by destruct pushed; specialize (Hnone ltac:(done) ltac:(done)). }
    exists pushed, U. split_and!; try done.
    + rewrite Hst'. by rewrite <- !app_assoc.
    + apply Forall_app in Hp as [_ HU]. exact (Forall_inv HU).
    + rewrite Hb by (destruct Hk; congruence).
      apply bool_decide_eq_false. by destruct pushed.
Qed.

Section Attempt.
Context (cfg : Config) (univ : list DeclId) (rk nrk : DeclId → nat).
Context (Hwf : wellFormedGraph cfg univ rk nrk = true).

Lemma requirementOf_later D σ σ1 σ2 U :
  advances cfg σ1 σ2 → requirementOf cfg univ rk D σ σ1 U → requirementOf cfg univ rk D σ σ2 U.
Proof.
  intros A (? & ? & ? & ?). split_and!; try done.
  by eapply pushedDecl_later.
Qed.

Lemma requirementOf_earlier D σ σ1 σ2 U :
  extends σ σ1 → requirementOf cfg univ rk D σ1 σ2 U → requirementOf cfg univ rk D σ σ2 U.
Proof.
  intros A (? & ? & ? & ?). split_and!; try done.
  by eapply pushedDecl_earlier.
Qed.

Lemma attempt_failed rest D σ σ' pushed :
  declsToWrite σ' = (rest ++ [D]) ++ pushed → pushed ≠ [] →
  Forall (requirementOf cfg univ rk D σ σ') pushed →
  attemptResult cfg univ rk nrk rest D false σ σ'.
Proof.
  intros Hst Hne Hp. destruct pushed as [|U pushed _] using rev_ind; [done|].
  apply Forall_app in Hp as [HL HU].
  apply Forall_inv in HU as (? & ? & ? & ?).
  exists pushed, U. split_and!; try done.
  - rewrite Hst. by rewrite <- !app_assoc.
  - eapply Forall_impl; [exact HL|]. by intros ? [? _].
  - right; by left.
Qed.

Lemma attempt_nested rest D σ σ' :
  D ∈ univ →
  declsToWrite σ' =
    rest ++ rev (scheduledNestedTypes cfg (members (decls cfg D))) ++ [D] →
  attemptResult cfg univ rk nrk rest D true σ σ'.
Proof.
  intros HD Hst. eexists. split; [exact Hst|].
  apply Forall_forall. intros M HM.
  apply (proj1 (elem_of_rev _ _)) in HM.
  exact (wellFormed_nested cfg univ rk nrk Hwf D M HD HM).
Qed.

Lemma attempt_unchanged rest D σ σ' :
  declsToWrite σ' = rest ++ [D] →
  attemptResult cfg univ rk nrk rest D true σ σ'.
Proof. intros Hst. exists []. by split. Qed.

Lemma require_class_requirement D S σ b σ' :
  kind (decls cfg S) = KClass → S ∈ univ → rk S < rk D →
  require cfg S σ = Ok (b, σ') →
  ∃ p, declsToWrite σ' = declsToWrite σ ++ p ∧
       Forall (requirementOf cfg univ rk D σ σ') p ∧ b = bool_decide (p = []).
Proof.
  intros Hk HS Hrk H. apply require_pushedDecl in H as (p & Hst & Hp & ->).
  exists p. split_and!; try done.
  eapply Forall_impl; [exact Hp|]. intros U [-> HU].
  split_and!; try done. by left.
Qed.

Lemma requireProtocols_requirement D mustBeObjC protos acc σ b σ' :
  outputLangMode cfg = ObjC →
  protocolsLower cfg univ rk D protos = true →
  requireProtocols cfg mustBeObjC protos acc σ = Ok (b, σ') →
  ∃ p, declsToWrite σ' = declsToWrite σ ++ p ∧
       Forall (requirementOf cfg univ rk D σ σ') p ∧ b = acc && bool_decide (p = []).
Proof.
  intros Hmode Hlow H.
  apply requireProtocols_schedule in H as (p & Hst & Hp & ->).
  exists p. split_and!; try done.
  eapply Forall_impl; [exact Hp|]. intros U (HU & Hi & Hpd).
  destruct (protocolsLower_spec cfg univ rk D protos U Hlow HU Hi)
    as (Hk & ? & ?).
  split_and!; try done. right; right. split; [by left|done].
Qed.

Lemma nominal_settles U :
  outputLangMode cfg = ObjC →
  isNominalTypeDecl (kind (decls cfg U)) = true → settles cfg U.
Proof.
  intros Hmode Hn. unfold settles.
  destruct (kind (decls cfg U)); try done; tauto.
Qed.

End Attempt.

Section Writers.
Context (cfg : Config) (univ : list DeclId) (rk nrk : DeclId → nat).
Context (Hwf : wellFormedGraph cfg univ rk nrk = true).

Lemma requirements_seq D σ σ1 σ2 p1 p2 :
  advances cfg σ1 σ2 →
  Forall (requirementOf cfg univ rk D σ σ1) p1 →
  Forall (requirementOf cfg univ rk D σ1 σ2) p2 →
  extends σ σ1 →
  Forall (requirementOf cfg univ rk D σ σ2) (p1 ++ p2).
Proof.
  intros A2 H1 H2 E1. apply Forall_app. split.
  - eapply Forall_impl; [exact H1|]. intros U HU.
    by eapply requirementOf_later.
  - eapply Forall_impl; [exact H2|]. intros U HU.
    by eapply requirementOf_earlier.
Qed.

Lemma writeClass_attempt rest CD σ b σ' :
  CD ∈ univ → kind (decls cfg CD) = KClass →
  declsToWrite σ = rest ++ [CD] →
  writeClass cfg CD σ = Ok (b, σ') →
  attemptResult cfg univ rk nrk rest CD b σ σ'.
Proof.
  intros HD Hk Hst H. unfold writeClass in H.
  destruct (wellFormed_class cfg univ rk nrk Hwf CD HD Hk) as [Hsup Hprot].
  apply bind_Ok in H as (imp & σ1 & E & H).
  pose proof (addImport_sameSchedule _ _ _ _ _ E) as [Hs1 _].
  pose proof (addImport_advances _ _ _ _ _ E) as A1.
  destruct imp.
  { run_W H. apply attempt_unchanged. congruence. }
  apply bind_Ok in H as (? & ? & [= <- <-] & H).
  destruct (bool_decide ((stateOf σ1 CD).1 = Defined)).
  { run_W H. apply attempt_unchanged. congruence. }
  apply bind_Ok in H as (sat1 & σ2 & E2 & H).
  apply bind_Ok in H as (sat2 & σ3 & E3 & H).
  assert (∃ p1, declsToWrite σ2 = declsToWrite σ1 ++ p1 ∧
                Forall (requirementOf cfg univ rk CD σ1 σ2) p1 ∧
                sat1 = bool_decide (p1 = []) ∧ advances cfg σ1 σ2)
    as (p1 & Hst2 & Hp1 & -> & A2).
  { destruct (superclassDecl (decls cfg CD)) as [S|].
    - apply classLower_spec in Hsup as (? & ? & ?).
      pose proof (require_advances _ _ _ _ _ E2).
      eapply require_class_requirement in E2 as (p & ? & ? & ?); eauto.
    - run_W E2. exists []. rewrite app_nil_r. by split_and!. }
  assert (∃ p2, declsToWrite σ3 = declsToWrite σ2 ++ p2 ∧
                Forall (requirementOf cfg univ rk CD σ2 σ3) p2 ∧
                sat2 = bool_decide (p1 = []) && bool_decide (p2 = []) ∧
                advances cfg σ2 σ3)
    as (p2 & Hst3 & Hp2 & -> & A3).
  { destruct (bool_decide (outputLangMode cfg = Cxx)) eqn:Emode; simpl in E3.
    - run_W E3. exists []. rewrite app_nil_r, andb_true_r.
      by split_and!.
    - apply bool_decide_eq_false in Emode.
      assert (outputLangMode cfg = ObjC) as Hmode
        by (by destruct (outputLangMode cfg)).
      pose proof (requireProtocols_advances _ _ _ _ _ _ _ E3).
      eapply requireProtocols_requirement in E3 as (p & ? & ? & ?); eauto. }
  destruct (bool_decide (p1 = []) && bool_decide (p2 = [])) eqn:Esat;
    simpl in H.
  - apply andb_true_iff in Esat
      as [->%bool_decide_eq_true ->%bool_decide_eq_true].
    rewrite app_nil_r in *.
    apply bind_Ok in H as (ok & σ4 & E4 & H). run_W H.
    assert (declsToWrite σ3 = rest ++ [CD]) as Hstk by congruence.
    destruct (forwardDeclareMemberTypes_back _ _ _ _ _ _ _ _ Hstk E4)
      as [[Hst4 _]|(L & U & _ & _ & _ & [?|?] & _)]; [|congruence..].
    by apply attempt_nested.
  - run_W H. apply (attempt_failed _ _ _ _ _ _ _ _ (p1 ++ p2)).
    + rewrite Hst3, Hst2, Hs1, Hst. by rewrite app_assoc.
    + destruct p1, p2; done.
    + eapply Forall_impl;
        [exact (requirements_seq _ _ _ _ _ _ A3 Hp1 Hp2
                  (adv_extends _ _ _ A2))|].
      intros U HU. eapply requirementOf_earlier; [|exact HU]. apply A1.
Qed.

(** A failure of [forwardDeclareMemberTypes] for a protocol or an
    extension, as an attempt at [D]. *)
Lemma members_failed rest D σ σ1 σ' L U :
  D ∈ univ → outputLangMode cfg = ObjC →
  extends σ σ1 →
  declsToWrite σ' =
    rest ++ [D] ++
    (L ++ rev (scheduledNestedTypes cfg (members (decls cfg D)))) ++ [U] →
  Forall (isMemberDependency cfg D (members (decls cfg D))) (L ++ [U]) →
  pushedMember cfg D σ1 σ' U →
  kind (decls cfg D) = KProtocol ∨ kind (decls cfg D) = KExtension →
  attemptResult cfg univ rk nrk rest D false σ σ'.
Proof.
  intros HD Hmode Hext Hst Hdep Hpush Hk.
  assert (∀ X, isMemberDependency cfg D (members (decls cfg D)) X →
               X ∈ univ ∧ (kind (decls cfg D) = KExtension → rk X < rk D))
    as Hin.
  { intros X HX. destruct Hk as [Hk|Hk].
    - split; [|congruence].
      by apply (wellFormed_protocol cfg univ rk nrk Hwf D HD Hk).
    - destruct (wellFormed_extension cfg univ rk nrk Hwf D HD Hk)
        as (_ & _ & Hlow).
      split; [|intros _]; by apply Hlow. }
  apply Forall_app in Hdep as [HL HU]. apply Forall_inv in HU.
  exists (L ++ rev (scheduledNestedTypes cfg (members (decls cfg D)))), U.
  split_and!; try done.
  - apply Forall_app. split.
    + eapply Forall_impl; [exact HL|]. intros X HX. by apply Hin.
    + apply Forall_forall. intros N HN.
      apply (proj1 (elem_of_rev _ _)) in HN.
      by apply (wellFormed_nested cfg univ rk nrk Hwf D N HD).
  - by apply Hin.
  - eapply pushedDecl_earlier; [exact Hext|].
    by eapply pushedMember_pushedDecl.
  - apply nominal_settles; [done|].
    by destruct HU as (? & ? & _ & _ & _ & _ & _ & _ & -> & ?).
  - destruct Hk as [Hk|Hk].
    + destruct Hpush as (_ & _ & _ & Hreq).
      destruct (Hreq Hk) as [Hr|Hr].
      * left. by eapply hasBeenRequested_earlier.
      * right; right. by eapply hasBeenRequested_earlier.
    + right; left. by apply Hin.
Qed.

Lemma writeProtocol_attempt rest PD σ b σ' :
  PD ∈ univ → kind (decls cfg PD) = KProtocol →
  outputLangMode cfg = ObjC →
  declsToWrite σ = rest ++ [PD] →
  writeProtocol cfg PD σ = Ok (b, σ') →
  attemptResult cfg univ rk nrk rest PD b σ σ'.
Proof.
  intros HD Hk Hmode Hst H. unfold writeProtocol in H.
  destruct (wellFormed_protocol cfg univ rk nrk Hwf PD HD Hk) as [Hinh _].
  apply bind_Ok in H as (imp & σ1 & E & H).
  pose proof (addImport_sameSchedule _ _ _ _ _ E) as [Hs1 _].
  pose proof (addImport_advances _ _ _ _ _ E) as A1.
  destruct imp.
  { run_W H. apply attempt_unchanged. congruence. }
  apply bind_Ok in H as (? & ? & [= <- <-] & H).
  destruct (bool_decide ((stateOf σ1 PD).1 = Defined)).
  { run_W H. apply attempt_unchanged. congruence. }
  apply bind_Ok in H as (sat & σ2 & E2 & H).
  pose proof (requireProtocols_advances _ _ _ _ _ _ _ E2) as A2.
  eapply requireProtocols_requirement in E2 as (p & Hst2 & Hp & ->); eauto.
  simpl in H. destruct (bool_decide (p = [])) eqn:Ep; simpl in H.
  - apply bool_decide_eq_true in Ep as ->. rewrite app_nil_r in Hst2.
    apply bind_Ok in H as (ok & σ3 & E3 & H).
    assert (declsToWrite σ2 = rest ++ [PD]) as Hstk by congruence.
    destruct (forwardDeclareMemberTypes_back _ _ _ _ _ _ _ _ Hstk E3)
      as [[Hst3 Hok]|(L & U & Hst3 & Hdep & Hpush & Hkk & ->)].
    + rewrite Hok in H by congruence. run_W H. by apply attempt_nested.
    + run_W H. eapply members_failed; eauto.
      etrans; [apply A1|apply A2].
  - run_W H. apply (attempt_failed _ _ _ _ _ _ _ _ p).
    + by rewrite Hst2, Hs1, Hst.
    + by apply bool_decide_eq_false in Ep.
    + eapply Forall_impl; [exact Hp|].
      intros U HU. eapply requirementOf_earlier; [|exact HU]. apply A1.
Qed.

Lemma writeExtension_attempt rest ED σ b σ' :
  ED ∈ univ → kind (decls cfg ED) = KExtension →
  outputLangMode cfg = ObjC →
  declsToWrite σ = rest ++ [ED] →
  writeExtension cfg ED σ = Ok (b, σ') →
  attemptResult cfg univ rk nrk rest ED b σ σ'.
Proof.
  intros HD Hk Hmode Hst H. unfold writeExtension in H.
  destruct (wellFormed_extension cfg univ rk nrk Hwf ED HD Hk)
    as (Hsup & Hprot & _).
  destruct (isEmptyExtensionDecl (printer cfg) ED).
  { run_W H. by apply attempt_unchanged. }
  destruct (selfClassDecl (decls cfg ED)) as [CD|]; [|done].
  apply classLower_spec in Hsup as (? & ? & ?).
  apply bind_Ok in H as (sat1 & σ2 & E2 & H).
  apply bind_Ok in H as (sat2 & σ3 & E3 & H).
  pose proof (require_advances _ _ _ _ _ E2) as A2.
  pose proof (requireProtocols_advances _ _ _ _ _ _ _ E3) as A3.
  eapply require_class_requirement in E2 as (p1 & Hst2 & Hp1 & ->); eauto.
  eapply requireProtocols_requirement in E3 as (p2 & Hst3 & Hp2 & ->); eauto.
  destruct (bool_decide (p1 = []) && bool_decide (p2 = [])) eqn:Esat;
    simpl in H.
  - apply andb_true_iff in Esat
      as [->%bool_decide_eq_true ->%bool_decide_eq_true].
    rewrite app_nil_r in *.
    apply bind_Ok in H as (ok & σ4 & E4 & H).
    assert (declsToWrite σ3 = rest ++ [ED]) as Hstk by congruence.
    destruct (forwardDeclareMemberTypes_back _ _ _ _ _ _ _ _ Hstk E4)
      as [[Hst4 Hok]|(L & U & Hst4 & Hdep & Hpush & Hkk & ->)].
    + rewrite Hok in H by congruence. run_W H. by apply attempt_nested.
    + run_W H. eapply members_failed; eauto.
      etrans; [apply A2|apply A3].
  - run_W H. apply (attempt_failed _ _ _ _ _ _ _ _ (p1 ++ p2)).
    + rewrite Hst3, Hst2, Hst. by rewrite app_assoc.
    + destruct p1, p2; done.
    + exact (requirements_seq _ _ _ _ _ _ A3 Hp1 Hp2 (adv_extends _ _ _ A2)).
Qed.

Lemma writeEnum_attempt rest ED σ b σ' :
  ED ∈ univ → kind (decls cfg ED) = KEnum →
  declsToWrite σ = rest ++ [ED] →
  writeEnum cfg ED σ = Ok (b, σ') →
  attemptResult cfg univ rk nrk rest ED b σ σ'.
Proof.
  intros HD Hk Hst H. unfold writeEnum in H.
  apply bind_Ok in H as (imp & σ1 & E & H).
  pose proof (addImport_sameSchedule _ _ _ _ _ E) as [Hs1 _].
  destruct imp.
  { run_W H. apply attempt_unchanged. congruence. }
  apply bind_Ok in H as ([] & σ2 & E2 & H).
  assert (attemptResult cfg univ rk nrk rest ED true σ σ2) as Hatt.
  { destruct (bool_decide (outputLangMode cfg = Cxx)).
    - apply bind_Ok in E2 as (ok & σm & Em & E2).
      apply forwardDeclareCxxValueTypeIfNeeded_sameSchedule in E2 as [Hs2 _].
      assert (declsToWrite σ1 = rest ++ [ED]) as Hstk by congruence.
      destruct (forwardDeclareMemberTypes_back _ _ _ _ _ _ _ _ Hstk Em)
        as [[Hstm _]|(L & U & _ & _ & _ & [?|?] & _)]; [|congruence..].
      apply attempt_nested; [done..|]. congruence.
    - run_W E2. apply attempt_unchanged. congruence. }
  assert (declsToWrite σ' = declsToWrite σ2 ∧ b = true) as [Hs' ->].
  { apply bind_Ok in H as (? & ? & [= <- <-] & H).
    destruct (bool_decide ((stateOf σ2 ED).1 = Defined)); [by run_W H|].
    destruct (negb _ && _ && _); by run_W H. }
  destruct Hatt as (ins & ? & ?). exists ins. split; [congruence|done].
Qed.

Lemma forEach_extensions_attempt rest SD exts :
  kind (decls cfg SD) = KStruct →
  Forall (λ ed, ed ∈ univ ∧ kind (decls cfg ed) = KExtension ∧
                SD = extendedNominal (decls cfg ed)) exts →
  ∀ σ σ' a,
    attemptResult cfg univ rk nrk rest SD true σ σ →
    forEach exts
      (λ ed, let* _ := forwardDeclareMemberTypes cfg
                         (members (decls cfg ed)) SD in ret tt) σ
      = Ok (a, σ') →
    attemptResult cfg univ rk nrk rest SD true σ' σ'.
Proof.
  intros Hk. induction 1 as [|ed exts (Hed & Hked & Hext) _ IH];
    intros σ σ' a Hatt H; simpl in H.
  { by run_W H. }
  apply bind_Ok in H as (? & σ1 & E1 & H).
  apply bind_Ok in E1 as (ok & σm & Em & E1).
  unfold ret in E1. injection E1 as _ <-.
  apply (IH _ _ _) in H; [done|].
  destruct Hatt as (ins & Hst & Hins).
  assert (declsToWrite σ = (rest ++ ins) ++ [SD]) as Hstk
    by (by rewrite Hst, <- app_assoc).
  destruct (forwardDeclareMemberTypes_back _ _ _ _ _ _ _ _ Hstk Em)
    as [[Hstm _]|(L & U & _ & _ & _ & [?|?] & _)]; [|congruence..].
  exists (ins ++ rev (scheduledNestedTypes cfg (members (decls cfg ed)))).
  split; [by rewrite Hstm, <- !app_assoc|].
  apply Forall_app. split; [done|].
  apply Forall_forall. intros N HN. apply (proj1 (elem_of_rev _ _)) in HN.
  rewrite Hext.
  by apply (wellFormed_extension_nested cfg univ rk nrk Hwf ed N).
Qed.

Lemma writeStruct_attempt rest SD σ b σ' :
  SD ∈ univ → kind (decls cfg SD) = KStruct →
  Scheduled cfg univ σ →
  declsToWrite σ = rest ++ [SD] →
  writeStruct cfg SD σ = Ok (b, σ') →
  attemptResult cfg univ rk nrk rest SD b σ σ'.
Proof.
  intros HD Hk [_ Hrec] Hst H. unfold writeStruct in H.
  apply bind_Ok in H as (imp & σ1 & E & H).
  pose proof (addImport_sameSchedule _ _ _ _ _ E) as [Hs1 _].
  pose proof (addImport_advances _ _ _ _ _ E) as A1.
  destruct imp.
  { run_W H. apply attempt_unchanged. congruence. }
  apply bind_Ok in H as ([] & σ2 & E2 & H). run_W H.
  assert (attemptResult cfg univ rk nrk rest SD true σ2 σ2) as Hatt.
  { destruct (bool_decide (outputLangMode cfg = Cxx)).
    - apply bind_Ok in E2 as (ok & σm & Em & E2).
      pose proof (forwardDeclareMemberTypes_advances _ _ _ _ _ _ Em) as Am.
      apply bind_Ok in E2 as (? & ? & [= <- <-] & E2).
      apply bind_Ok in E2 as (? & σe & Ee & E2).
      apply forwardDeclareCxxValueTypeIfNeeded_sameSchedule in E2 as [Hs2 _].
      assert (declsToWrite σ1 = rest ++ [SD]) as Hstk by congruence.
      destruct (forwardDeclareMemberTypes_back _ _ _ _ _ _ _ _ Hstk Em)
        as [[Hstm _]|(L & U & _ & _ & _ & [?|?] & _)]; [|congruence..].
      assert (Forall (λ ed, ed ∈ univ ∧ kind (decls cfg ed) = KExtension ∧
                            SD = extendedNominal (decls cfg ed))
                     (getExtensionsForNominalType σm SD)) as HF.
      { unfold getExtensionsForNominalType. apply Forall_fmap.
        rewrite (ext_recordedExtensions _ _ (adv_extends _ _ _ Am)),
          (ext_recordedExtensions _ _ (adv_extends _ _ _ A1)).
        apply Forall_forall. intros p [Hp1 Hp]%list_elem_of_filter.
        rewrite Forall_forall in Hrec. destruct (Hrec p Hp) as (? & ? & ?).
        simpl. split_and!; congruence. }
      assert (attemptResult cfg univ rk nrk rest SD true σm σm) as Hm
        by (by apply attempt_nested).
      destruct (forEach_extensions_attempt _ _ _ Hk HF _ _ _ Hm Ee)
        as (ins & ? & ?).
      exists ins. split; [congruence|done].
    - run_W E2. apply attempt_unchanged. congruence. }
  destruct Hatt as (ins & ? & ?). by exists ins.
Qed.

Lemma writeFunc_attempt rest FD σ b σ' :
  declsToWrite σ = rest ++ [FD] →
  writeFunc cfg FD σ = Ok (b, σ') →
  attemptResult cfg univ rk nrk rest FD b σ σ'.
Proof.
  intros Hst H. unfold writeFunc in H.
  apply bind_Ok in H as (imp & σ1 & E & H).
  pose proof (addImport_sameSchedule _ _ _ _ _ E) as [Hs1 _].
  destruct imp.
  { run_W H. apply attempt_unchanged. congruence. }
  apply bind_Ok in H as (? & σ2 & E2 & H).
  assert (sameSchedule σ1 σ2) as [Hs2 _].
  { revert E2. apply (preserves_forEach sameSchedule).
    intros r. apply forwardDeclareType_sameSchedule. }
  run_W H. apply attempt_unchanged. simpl. congruence.
Qed.

Lemma writeDecl_attempt rest D σ b σ' :
  D ∈ univ → Scheduled cfg univ σ →
  declsToWrite σ = rest ++ [D] →
  writeDecl cfg D σ = Ok (b, σ') →
  attemptResult cfg univ rk nrk rest D b σ σ'.
Proof.
  intros HD Hsch Hst H. unfold writeDecl in H.
  destruct (kind (decls cfg D)) eqn:Hk;
    try (by eapply writeEnum_attempt);
    try (by eapply writeClass_attempt);
    (destruct (bool_decide (outputLangMode cfg = Cxx)) eqn:Emode;
     [|apply bool_decide_eq_false in Emode;
       assert (outputLangMode cfg = ObjC)
         by (by destruct (outputLangMode cfg))]);
    simpl in H;
    try (run_W H; by apply attempt_unchanged);
    try (by eapply writeStruct_attempt);
    try (by eapply writeFunc_attempt);
    try (by eapply writeProtocol_attempt);
    try (by eapply writeExtension_attempt).
Qed.

End Writers.

(** ** Termination: one iteration of the loop *)

Lemma writeDecl_extends cfg D σ b σ' :
  writeDecl cfg D σ = Ok (b, σ') → extends σ σ'.
Proof.
  intros [[A|[_ P]] _]%writeDecl_writes; [apply A|apply P].
Qed.

Lemma writeDecl_settled cfg D σ σ' :
  writeDecl cfg D σ = Ok (true, σ') → settled cfg σ' D.
Proof.
  intros H Hl Hs. pose proof (writeDecl_writes _ _ _ _ _ H) as [_ Hp].
  specialize (Hp eq_refl). unfold processed, mustDefine in Hp.
  destruct Hs as [Hk|[Hk|[[Hk|Hk] Hm]]]; [auto..|].
  unfold writeDecl in H. rewrite Hk, Hm in H. done.
Qed.

Section Loop.
Context (cfg : Config) (univ : list DeclId) (rk nrk : DeclId → nat).
Context (Hwf : wellFormedGraph cfg univ rk nrk = true).

Lemma drainStep_entry rest D σ σ1 :
  Scheduled cfg univ σ → declsToWrite σ = rest ++ [D] →
  drainStep cfg D σ = Ok ((), σ1) →
  extends σ σ1 ∧ Scheduled cfg univ σ1 ∧
  (entryDone cfg univ nrk rest D σ σ1 ∨
   attemptResult cfg univ rk nrk rest D false σ σ1).
Proof.
  intros Hsch Hst H. unfold drainStep in H.
  apply bind_Ok in H as (success & σ' & E & H).
  assert (D ∈ univ) as HD.
  { destruct Hsch as [Hs _]. rewrite Hst in Hs.
    apply Forall_app in Hs as [_ Hs]. exact (Forall_inv Hs). }
  assert (Forall (λ X, X ∈ univ) rest) as Hrest.
  { destruct Hsch as [Hs _]. rewrite Hst in Hs.
    by apply Forall_app in Hs as [Hs _]. }
  pose proof (writeDecl_extends _ _ _ _ _ E) as Hext.
  pose proof (writeDecl_attempt cfg univ rk nrk Hwf rest D σ success σ'
                HD Hsch Hst E) as Hatt.
  assert (Forall (λ p, p.2 ∈ univ ∧ kind (decls cfg p.2) = KExtension ∧
                       p.1 = extendedNominal (decls cfg p.2))
                 (recordedExtensions σ')) as Hrec.
  { rewrite (ext_recordedExtensions _ _ Hext). apply Hsch. }
  destruct success.
  - destruct Hatt as (ins & Hst' & Hins).
    apply writeDecl_settled in E.
    apply bind_Ok in H as (? & ? & [= <- <-] & H).
    rewrite Hst', app_assoc, unsnoc_snoc in H.
    rewrite bool_decide_eq_true_2 in H by done. run_W H.
    assert (extends σ' (with_declsToWrite (λ _, rest ++ ins)
                          (with_os (λ o, o ++ [OStr endl]) σ'))) as Hext'.
    { split; simpl; try done. by apply prefix_app_r. }
    split_and!.
    + by etrans.
    + split; simpl; [|done]. apply Forall_app. split; [done|].
      eapply Forall_impl; [exact Hins|]. by intros ? [? _].
    + left. exists ins. split_and!; simpl; try done.
      * split; simpl; [|done]. apply Forall_app. split; [done|].
        eapply Forall_impl; [exact Hins|]. by intros ? [? _].
      * by etrans.
  - run_W H. split_and!; [done| |by right].
    destruct Hatt as (L & U & Hst' & HL & HU & _).
    split; [|done]. rewrite Hst'.
    rewrite !Forall_app. split_and!; try done; by constructor.
Qed.

Lemma eventually_now σ (Q : ModuleWriter → Prop) : Q σ → eventually cfg σ Q.
Proof. intros HQ. right. by exists 0, σ. Qed.

Lemma eventually_bind σ (Q Q' : ModuleWriter → Prop) :
  eventually cfg σ Q →
  (∀ σ', Q σ' → eventually cfg σ' Q') →
  eventually cfg σ Q'.
Proof.
  intros [(n & w & Hn)|(n & σ1 & Hn & HQ)] Hk.
  - left. by exists n, w.
  - destruct (Hk σ1 HQ) as [(m & w & Hm)|(m & σ2 & Hm & HQ')].
    + left. exists (n + m), w. by rewrite drainSteps_add, Hn.
    + right. exists (n + m), σ2. by rewrite drainSteps_add, Hn.
Qed.

Lemma eventually_step rest D σ (Q : ModuleWriter → Prop) :
  declsToWrite σ = rest ++ [D] →
  (∀ σ1, drainStep cfg D σ = Ok ((), σ1) → eventually cfg σ1 Q) →
  eventually cfg σ Q.
Proof.
  intros Hst Hk. destruct (drainStep cfg D σ) as [[[] σ1]|w] eqn:E.
  - destruct (Hk σ1 eq_refl) as [(n & w & Hn)|(n & σ2 & Hn & HQ)].
    + left. exists (S n), w. simpl. by rewrite Hst, unsnoc_snoc, E.
    + right. exists (S n), σ2. simpl. by rewrite Hst, unsnoc_snoc, E.
  - left. exists 1, w. simpl. by rewrite Hst, unsnoc_snoc, E.
Qed.

Lemma requestRank_le σ D : requestRank σ D ≤ 1.
Proof. unfold requestRank. destruct (hasBeenRequested σ D); lia. Qed.

Lemma nrk_bound (L : list DeclId) : ∃ B, Forall (λ X, nrk X < B) L.
Proof.
  induction L as [|X L [B HB]]; [by exists 0|].
  exists (S (nrk X) `max` B). constructor; [lia|].
  eapply Forall_impl; [exact HB|]. simpl. lia.
Qed.

Lemma entries_from_attempts nd :
  (∀ ny st r, attemptTerminates cfg univ rk nrk nd ny st r) →
  entriesTerminate cfg univ nd.
Proof.
  intros HP.
  assert (∀ B L σ rest,
            Forall (λ X, nrk X < B) L →
            Scheduled cfg univ σ → declsToWrite σ = rest ++ L →
            notDefinedCount univ σ ≤ nd →
            eventually cfg σ (entriesDone cfg univ rest σ)) as HB.
  { induction B as [B IHB] using lt_wf_ind.
    induction L as [|D L IHL] using rev_ind; intros σ rest HL Hsch Hst Hnd.
    - apply eventually_now. rewrite app_nil_r in Hst. by split_and!.
    - apply Forall_app in HL as [HL HD]. apply Forall_inv in HD.
      rewrite app_assoc in Hst.
      eapply eventually_bind.
      { apply (HP (notYetCount univ σ) 1 (rk D) σ (rest ++ L) D);
          auto using requestRank_le. }
      intros σ1 (ins & Hst1 & Hins & Hsch1 & Hext1 & _).
      eapply eventually_bind.
      { apply (IHB (nrk D) HD ins σ1 (rest ++ L)); try done.
        - eapply Forall_impl; [exact Hins|]. by intros ? [_ ?].
        - pose proof (notDefinedCount_le univ _ _ Hext1). lia. }
      intros σ2 (Hst2 & Hsch2 & Hext2).
      eapply eventually_bind.
      { apply (IHL σ2 rest); try done.
        pose proof (notDefinedCount_le univ _ _ Hext1).
        pose proof (notDefinedCount_le univ _ _ Hext2). lia. }
      intros σ3 (Hst3 & Hsch3 & Hext3).
      apply eventually_now. split_and!; try done.
      etrans; [exact Hext1|]. by etrans. }
  intros σ rest L. destruct (nrk_bound L) as [B HL]. by apply (HB B L).
Qed.

Lemma attempt_terminates_step nd ny st r :
  (∀ nd', nd' < nd →
     (∀ ny' st' r', attemptTerminates cfg univ rk nrk nd' ny' st' r') ∧
     entriesTerminate cfg univ nd') →
  (∀ ny' st' r',
     ny' < ny ∨ (ny' = ny ∧ (st' < st ∨ (st' = st ∧ r' < r))) →
     attemptTerminates cfg univ rk nrk nd ny' st' r') →
  attemptTerminates cfg univ rk nrk nd ny st r.
Proof.
  intros IHnd IHlex σ rest D Hsch Hst Hnd Hny Hreq Hr.
  apply (eventually_step rest D); [done|]. intros σ1 E.
  destruct (drainStep_entry _ _ _ _ Hsch Hst E)
    as (Hext & Hsch1 & [Hdone|Hfail]).
  { by apply eventually_now. }
  destruct Hfail as (L & U & Hst1 & HL & HU & Hpush & Hset & Hprog).
  destruct Hpush as (Hloc & HreqU & HndU).
  pose proof (notDefinedCount_le univ _ _ Hext) as Hnd1.
  pose proof (notYetCount_le univ _ _ Hext) as Hny1.
  assert (requestRank σ1 U = 0) as HrU.
  { unfold requestRank, hasBeenRequested. by rewrite HreqU. }
  assert (declsToWrite σ1 = (rest ++ [D] ++ L) ++ [U]) as Hst1'
    by (rewrite Hst1; by rewrite <- !app_assoc).
  assert (eventually cfg σ1
            (entryDone cfg univ nrk (rest ++ [D] ++ L) U σ1)) as HevU.
  { destruct Hprog as [HD0|[Hrk|HU0]].
    - assert (requestRank σ D = 1) as HrD
        by (unfold requestRank; by rewrite HD0).
      apply (IHlex ny 0 (rk U)); try done; lia.
    - apply (IHlex ny st (rk U)); try done; lia.
    - pose proof (notYetCount_lt univ _ _ U Hext HU HU0 HreqU).
      apply (IHlex (notYetCount univ σ1) 1 (rk U)); try done; lia. }
  eapply eventually_bind; [exact HevU|].
  intros σ2 (insU & Hst2 & _ & Hsch2 & Hext2 & HsetU).
  specialize (HsetU Hloc Hset).
  assert (extends σ σ2) as Hext02 by (by etrans).
  pose proof (notDefinedCount_lt univ _ _ U Hext02 HU HndU HsetU) as Hlt.
  destruct (IHnd (notDefinedCount univ σ2) ltac:(lia)) as [HP' HQ'].
  eapply eventually_bind.
  { apply (HQ' σ2 (rest ++ [D]) (L ++ insU)); try done.
    rewrite Hst2. by rewrite <- !app_assoc. }
  intros σ3 (Hst3 & Hsch3 & Hext3).
  pose proof (notDefinedCount_le univ _ _ Hext3) as Hnd3.
  eapply eventually_bind.
  { apply (HP' (notYetCount univ σ3) 1 (rk D) σ3 rest D);
      auto using requestRank_le. }
  intros σ4 (ins & Hst4 & Hins & Hsch4 & Hext4 & Hset4).
  apply eventually_now. exists ins. split_and!; try done.
  etrans; [exact Hext02|]. by etrans.
Qed.

Lemma loop_terminates nd :
  (∀ ny st r, attemptTerminates cfg univ rk nrk nd ny st r) ∧
  entriesTerminate cfg univ nd.
Proof.
  induction nd as [nd IHnd] using lt_wf_ind.
  assert (∀ ny st r, attemptTerminates cfg univ rk nrk nd ny st r) as HP.
  { induction ny as [ny IHny] using lt_wf_ind. intros st.
    induction st as [st IHst] using lt_wf_ind. intros r.
    induction r as [r IHr] using lt_wf_ind.
    apply attempt_terminates_step; [exact IHnd|].
    intros ny' st' r' [?|[-> [?|[-> ?]]]]; auto. }
  split; [done|]. by apply entries_from_attempts.
Qed.

End Loop.

(** ** Termination: the whole loop *)

Lemma drainSteps_drain_Abort cfg n σ w :
  drainSteps cfg n σ = Abort w → drain cfg n σ = Some (Abort w).
Proof.
  revert σ. induction n as [|n IH]; intros σ; simpl; [done|].
  destruct (unsnoc (declsToWrite σ)) as [[front D]|]; [|done].
  destruct (drainStep cfg D σ) as [[[] σ1]|w1]; [apply IH|].
  by intros [= ->].
Qed.

Lemma drainSteps_drain_Ok cfg n σ σ' :
  drainSteps cfg n σ = Ok σ' → declsToWrite σ' = [] →
  drain cfg n σ = Some (Ok σ').
Proof.
  revert σ. induction n as [|n IH]; intros σ; simpl.
  - intros [= ->] ->. done.
  - destruct (unsnoc (declsToWrite σ)) as [[front D]|].
    + destruct (drainStep cfg D σ) as [[[] σ1]|w1]; [apply IH|done].
    + by intros [= ->].
Qed.

Lemma forEach_recordExtensions_Scheduled cfg univ (l : list DeclId) σ a σ' :
  Forall (λ D, D ∈ univ) l →
  Scheduled cfg univ σ →
  forEach l
    (λ D, if bool_decide (kind (decls cfg D) = KExtension) &&
             bool_decide (kind (decls cfg (extendedNominal (decls cfg D)))
                          = KStruct)
          then modify (with_recordedExtensions
                         (λ l, l ++ [(extendedNominal (decls cfg D), D)]))
          else ret ()) σ = Ok (a, σ') →
  Scheduled cfg univ σ'.
Proof.
  intros Hl. revert σ. induction Hl as [|D l HD _ IH]; intros σ Hsch; simpl.
  - by intros [= <- <-].
  - intros H. apply bind_Ok in H as (? & σ1 & E & H).
    apply (IH σ1); [|done].
    destruct (bool_decide (kind (decls cfg D) = KExtension)) eqn:Hk;
      simpl in E; [|by run_W E].
    destruct (bool_decide (kind (decls cfg (extendedNominal (decls cfg D)))
                           = KStruct)); run_W E; [|done].
    apply bool_decide_eq_true in Hk. destruct Hsch as [Hs Hr].
    split; simpl; [done|]. apply Forall_app. split; [done|].
    by constructor.
Qed.

Lemma recordStructExtensions_Scheduled cfg univ σ a σ' :
  Scheduled cfg univ σ →
  recordStructExtensions cfg σ = Ok (a, σ') → Scheduled cfg univ σ'.
Proof.
  intros Hsch. unfold recordStructExtensions.
  destruct (bool_decide (outputLangMode cfg = Cxx));
    [|by intros [= <- <-]].
  intros H. apply bind_Ok in H as (? & ? & [= <- <-] & H).
  eapply forEach_recordExtensions_Scheduled; [|exact Hsch|exact H].
  apply Hsch.
Qed.

Lemma finishWrite_stack cfg σ a σ' :
  finishWrite cfg σ = Ok (a, σ') → declsToWrite σ' = declsToWrite σ.
Proof.
  unfold finishWrite, printDelayedMembers. intros H.
  apply bind_Ok in H as (? & σ1 & E & H).
  apply bind_Ok in E as (? & ? & [= <- <-] & E).
  destruct (delayedMembers σ) as [|first rest]; run_W E; by run_W H.
Qed.

Lemma drain_terminates cfg univ rk nrk σ :
  wellFormedGraph cfg univ rk nrk = true →
  Scheduled cfg univ σ →
  ∃ fuel r, drain cfg fuel σ = Some r ∧
            ∀ σ', r = Ok σ' → declsToWrite σ' = [].
Proof.
  intros Hwf Hsch.
  destruct (loop_terminates cfg univ rk nrk Hwf (notDefinedCount univ σ))
    as [_ HQ].
  destruct (HQ σ [] (declsToWrite σ) Hsch eq_refl ltac:(lia))
    as [(n & w & Hn)|(n & σ1 & Hn & Hst & _)].
  - exists n, (Abort w). split; [by apply drainSteps_drain_Abort|done].
  - exists n, (Ok σ1). split; [by apply drainSteps_drain_Ok|].
    by intros ? [= <-].
Qed.



Lemma drainStep_Loop σ :
  (stateOf σ 7).1 ≠ Defined →
  ∃ σ', drainStep (ex_cfg [7] ObjC) 7 σ = Ok ((), σ') ∧
        declsToWrite σ' = declsToWrite σ ++ [7] ∧
        (stateOf σ' 7).1 ≠ Defined.
Proof.
  intros Hn.
  unfold drainStep, writeDecl, writeClass, require, addImport, bind, ret, get,
    setSeen, modify.
  simpl.
  rewrite bool_decide_eq_false_2 by done.
  destruct (stateOf σ 7).1 eqn:E; [| |done]; simpl;
    (eexists; split; [reflexivity|]; split; [done|]);
    unfold stateOf; simpl; by rewrite lookup_insert_eq.
Qed.

Lemma drain_Loop fuel : ∀ σ front,
  declsToWrite σ = front ++ [7] → (stateOf σ 7).1 ≠ Defined →
  drain (ex_cfg [7] ObjC) fuel σ = None.
Proof.
  induction fuel as [|fuel IH]; intros σ front Hst Hn; simpl;
    rewrite Hst, unsnoc_snoc; [done|].
  destruct (drainStep_Loop σ Hn) as (σ' & -> & Hst' & Hn').
  apply (IH σ' (front ++ [7])); [|done]. by rewrite Hst', Hst.
Qed.

Lemma write_Loop_None fuel : write (ex_cfg [7] ObjC) fuel = None.
Proof.
  unfold write, writeDecls.
  change (sortedDecls (ex_cfg [7] ObjC) (topLevelDecls (ex_cfg [7] ObjC)))
    with (@Ok (list DeclId) [7]).
  simpl. by rewrite (drain_Loop fuel _ []).
Qed.


(** * Further properties of the writer *)

(** ** Imports *)

Lemma set_insert_idem {A} `{EqDecision A} (x : A) l :
  set_insert x (set_insert x l) = set_insert x l.
Proof.
  unfold set_insert. destruct (bool_decide (x ∈ l)) eqn:E.
  - by rewrite E.
  - rewrite bool_decide_eq_true_2; [done|].
    apply elem_of_app. right. by apply list_elem_of_singleton.
Qed.

Lemma addImport_twice cfg D σ b σ1 :
  addImport cfg D σ = Ok (b, σ1) → addImport cfg D σ1 = Ok (b, σ1).
Proof.
  unfold addImport.
  destruct (bool_decide (moduleContext (decls cfg D) = M cfg));
    [by intros [= <- <-]|].
  destruct (isStdlibModule _); [by intros [= <- <-]|].
  destruct (isBuiltinModule _); [by intros [= <- <-]|].
  destruct (bool_decide (modName _ = _)); [by intros [= <- <-]|].
  destruct (match clangNode (decls cfg D) with
            | Some (Some c) => nearestExplicitModule c
            | _ => None
            end) as [c|].
  - intros [= <- <-]. unfold bind, modify, ret. simpl.
    unfold with_imports at 1. simpl. by rewrite set_insert_idem.
  - destruct (_ && _); [by intros [= <- <-]|].
    intros [= <- <-]. unfold bind, modify, ret. simpl.
    unfold with_imports at 1. simpl. by rewrite set_insert_idem.
Qed.

(** X1. Calling [addImport] for the same declaration a second time
    gives the same answer and changes nothing: the import set is a set,
    and the standard-library flag is only ever raised. *)
Theorem addImport_idempotent cfg D σ b σ1 :
  addImport cfg D σ = Ok (b, σ1) →
  addImport cfg D σ1 = Ok (b, σ1) ∧
  (b = false ↔ moduleContext (decls cfg D) = M cfg) ∧
  (b = false → σ1 = σ).
Proof.
  intros H. split; [by eapply addImport_twice|]. split.
  - split.
    + intros ->. by apply addImport_false in H as [? _].
    + intros Hl. rewrite addImport_local in H by done. by injection H.
  - intros ->. by apply addImport_false in H as [_ ?].
Qed.

(** ** The ledger: [tryRequire] and [require] *)


(** X3. [require] never fails. When it answers [true] nothing was
    scheduled and the declaration is [Defined]; when it answers [false]
    the declaration is local, is now [DefinitionRequested] and is the
    new back of the stack. In both cases the output is untouched and
    every other declaration keeps its entry. *)
Theorem require_outcome cfg D σ :
  ∃ b σ', require cfg D σ = Ok (b, σ') ∧
    os σ' = os σ ∧ delayedMembers σ' = delayedMembers σ ∧
    (∀ D', D' ≠ D → stateOf σ' D' = stateOf σ D') ∧
    (if b then declsToWrite σ' = declsToWrite σ ∧
               (stateOf σ' D).1 = Defined
     else declsToWrite σ' = declsToWrite σ ++ [D] ∧
          (stateOf σ' D).1 = DefinitionRequested ∧
          (stateOf σ' D).2 = (stateOf σ D).2 ∧
          (stateOf σ D).1 ≠ Defined ∧
          moduleContext (decls cfg D) = M cfg).
Proof.
  unfold require, bind.
  destruct (addImport_Ok cfg D σ) as (imp & σ1 & E). rewrite E.
  pose proof (addImport_sameSchedule _ _ _ _ _ E) as [Hst Hs].
  assert (os σ1 = os σ ∧ delayedMembers σ1 = delayedMembers σ ∧
          seenTypes σ1 = seenTypes σ) as (Hos & Hdm & Hseen).
  { clear -E. unfold addImport in E.
    repeat (case_match; run_W E); done. }
  destruct imp.
  - eexists _, _. split; [reflexivity|]. simpl. split_and!; try done.
    + intros D' Hne. unfold stateOf. simpl.
      rewrite lookup_insert_ne by done. by rewrite Hseen.
    + unfold stateOf. simpl. by rewrite lookup_insert_eq.
  - apply addImport_false in E as [Hl ->]; [|done]. unfold get. simpl.
    destruct (stateOf σ D).1 eqn:Est; simpl.
    + eexists _, _. split; [reflexivity|].
      split_and!; try done;
        try (intros D' Hne; unfold stateOf; simpl;
             by rewrite lookup_insert_ne);
        unfold stateOf; simpl; by rewrite ?lookup_insert_eq.
    + eexists _, _. split; [reflexivity|].
      split_and!; try done;
        try (intros D' Hne; unfold stateOf; simpl;
             by rewrite lookup_insert_ne);
        unfold stateOf; simpl; by rewrite ?lookup_insert_eq.
    + eexists _, _. split; [reflexivity|]. by split_and!.
Qed.

(** ** Forward declarations *)

Lemma forwardDeclare_twice cfg NTD Printer Printer' σ u σ1 :
  forwardDeclare cfg NTD Printer σ = Ok (u, σ1) →
  forwardDeclare cfg NTD Printer' σ1 = Ok ((), σ1).
Proof.
  unfold forwardDeclare. destruct (_ && _); [by intros [= <- <-]|].
  unfold bind, get. destruct (stateOf σ NTD).2 eqn:E; simpl.
  - intros [= <- <-]. by rewrite E.
  - unfold emit, setSeen, modify. intros [= <- <-].
    replace (stateOf _ NTD).2 with true; [done|].
    unfold stateOf. simpl. by rewrite lookup_insert_eq.
Qed.

(** X4. A type is forward-declared once: after [forwardDeclare] has
    returned for a declaration, a further call for it, with whatever
    printer, writes nothing and leaves the writer as it is. The first
    call never changes the emission state of any declaration. *)
Theorem forwardDeclare_once cfg NTD Printer Printer' σ u σ1 :
  forwardDeclare cfg NTD Printer σ = Ok (u, σ1) →
  forwardDeclare cfg NTD Printer' σ1 = Ok ((), σ1) ∧
  (os σ1 = os σ ∨ os σ1 = os σ ++ Printer ∧ (stateOf σ NTD).2 = false) ∧
  ∀ D, (stateOf σ1 D).1 = (stateOf σ D).1.
Proof.
  intros H. split; [by eapply forwardDeclare_twice|].
  split; [|by apply forwardDeclare_sameSchedule in H as [_ ?]].
  unfold forwardDeclare in H. destruct (_ && _); [run_W H; by left|].
  apply bind_Ok in H as (? & ? & [= <- <-] & H).
  destruct (stateOf σ NTD).2; run_W H; [by left|by right].
Qed.

Lemma emitReferencedClangTypeMetadata_twice typeDecl σ u σ1 :
  emitReferencedClangTypeMetadata typeDecl σ = Ok (u, σ1) →
  emitReferencedClangTypeMetadata typeDecl σ1 = Ok ((), σ1).
Proof.
  unfold emitReferencedClangTypeMetadata, bind, get.
  destruct (bool_decide (typeDecl ∈ seenClangTypes σ)) eqn:E; simpl.
  - intros [= <- <-]. by rewrite E.
  - unfold emit, modify. intros [= <- <-]. simpl.
    rewrite bool_decide_eq_true_2; [done|].
    apply elem_of_app. right. by apply list_elem_of_singleton.
Qed.

Lemma addImport_stable cfg D σ b σ' :
  addImport cfg D σ = Ok (b, σ) →
  imports σ' = imports σ → dependsOnStdlib σ' = dependsOnStdlib σ →
  addImport cfg D σ' = Ok (b, σ').
Proof.
  unfold addImport, bind, modify, ret. intros H Hi Hd.
  destruct σ, σ'. simpl in *. subst.
  repeat case_match; try done;
    unfold with_imports, with_dependsOnStdlib in *; simpl in *;
    simplify_eq; try done; do 2 f_equal; by f_equal.
Qed.

(** X5. [forwardDeclareType] is idempotent: when it has returned for a
    declaration, calling it again for the same declaration returns as
    well and changes nothing, so no forward declaration, import or
    Clang type metadata is written twice for one type. *)
Theorem forwardDeclareType_idempotent cfg TD σ u σ1 :
  forwardDeclareType cfg TD σ = Ok (u, σ1) →
  forwardDeclareType cfg TD σ1 = Ok ((), σ1).
Proof.
  unfold forwardDeclareType.
  destruct (bool_decide (outputLangMode cfg = Cxx)).
  - destruct (_ || _); [|by intros [= <- <-]].
    intros H. apply bind_Ok in H as (imp & σm & E & H).
    destruct imp; simpl in H.
    + apply addImport_twice in E as E'.
      destruct (_ && _) eqn:Ec.
      * apply emitReferencedClangTypeMetadata_twice in H as H'.
        assert (addImport cfg TD σ1 = Ok (true, σ1)) as E1.
        { apply (addImport_stable cfg TD σm); [done|..];
            unfold emitReferencedClangTypeMetadata in H;
            apply bind_Ok in H as (? & ? & [= <- <-] & H);
            destruct (bool_decide (TD ∈ _)); by run_W H. }
        unfold bind. by rewrite E1.
      * run_W H. unfold bind. by rewrite E'.
    + apply addImport_false in E as [Hl ->]; [|done].
      unfold bind. rewrite addImport_local by done. simpl.
      by eapply forwardDeclare_twice.
  - destruct (kind (decls cfg TD)) eqn:Hk.
    all: intros H.
    all: try (apply bind_Ok in H as (imp & σm & E & H);
              apply addImport_twice in E as E';
              destruct imp;
              [ run_W H; unfold bind; by rewrite E'
              | apply addImport_false in E as [Hl ->]; [|done];
                unfold bind; rewrite addImport_local by done; simpl;
                simpl in H; try done ]).
    + unfold forwardDeclareEnum in *. destruct (negb _); [done|].
      by eapply forwardDeclare_twice.
    + destruct (isStdlibModule _); [by run_W H|done].
    + apply bind_Ok in H as (declared & σm & E & H).
      unfold forwardDeclareClass in *. unfold bind.
      destruct (_ || _ || _).
      * run_W E. simpl in *.
        apply bind_Ok in H as (imp & σ2 & E2 & H). run_W H.
        apply addImport_twice in E2. unfold bind. by rewrite E2.
      * apply bind_Ok in E as (? & σ2 & E2 & E). run_W E. run_W H.
        unfold bind. by erewrite forwardDeclare_twice.
    + unfold forwardDeclareProtocol in *. destruct (negb _); [done|].
      by eapply forwardDeclare_twice.
    + apply bind_Ok in H as (imp & σm & E & H).
      destruct (negb (imp || _)) eqn:Ei; [done|]. run_W H.
      unfold bind. destruct (hasClangNode _).
      * apply addImport_twice in E. rewrite E. by rewrite Ei.
      * run_W E. simpl in *. by rewrite Ei.
Qed.

(** X6. [forwardDeclareType] only forward-declares: it leaves the work
    stack, the emission state of every declaration and the recorded
    extensions as they are, hands no declaration to the printer, and
    what it writes is appended to the output. *)
Theorem forwardDeclareType_frame cfg TD σ u σ' :
  forwardDeclareType cfg TD σ = Ok (u, σ') →
  declsToWrite σ' = declsToWrite σ ∧
  (∀ D, (stateOf σ' D).1 = (stateOf σ D).1) ∧
  printedDecls σ' = printedDecls σ ∧
  recordedExtensions σ' = recordedExtensions σ ∧
  os σ `prefix_of` os σ' ∧
  (∀ i, i ∈ imports σ → i ∈ imports σ').
Proof.
  intros H.
  pose proof (forwardDeclareType_sameSchedule _ _ _ _ _ H) as [Hst Hs].
  pose proof (forwardDeclareType_advances _ _ _ _ _ H) as [Hext Hpr _ _].
  split_and!; try done; apply Hext.
Qed.

(** X7. In an Objective-C header, a referenced class that can be
    forward-declared ([@objc], neither a CF type nor an [os_object]
    type) is announced with [@class] the first time, unless it belongs
    to the standard library, and is never imported; a class that cannot
    be forward-declared is handed to [addImport] instead and nothing is
    written for it. *)
Theorem forwardDeclareType_class cfg TD σ :
  outputLangMode cfg = ObjC →
  kind (decls cfg TD) = KClass →
  if isObjC (decls cfg TD) && negb (isForeignCFType (decls cfg TD)) &&
     negb (isOSObject (decls cfg TD))
  then
    ∃ σ', forwardDeclareType cfg TD σ = Ok ((), σ') ∧
      imports σ' = imports σ ∧ dependsOnStdlib σ' = dependsOnStdlib σ ∧
      os σ' = os σ ++
              (if isStdlibModule (moduleContext (decls cfg TD)) ||
                  (stateOf σ TD).2
               then []
               else [OStr "@class "; ONameForObjC TD; OStr (";" +:+ endl)])
  else
    ∃ b σ', addImport cfg TD σ = Ok (b, σ') ∧
      forwardDeclareType cfg TD σ = Ok ((), σ') ∧ os σ' = os σ.
Proof.
  intros Hmode Hk.
  assert (∀ σ0, forwardDeclareType cfg TD σ0 =
            (let* declared := forwardDeclareClass cfg TD in
             if negb declared then (let* _ := addImport cfg TD in ret ())
             else ret ()) σ0) as Heq.
  { intros σ0. unfold forwardDeclareType. rewrite Hk.
    by rewrite bool_decide_eq_false_2 by (by rewrite Hmode). }
  unfold forwardDeclareClass in Heq.
  destruct (isObjC _), (isForeignCFType _), (isOSObject _); simpl in *.
  all: try (destruct (addImport_Ok cfg TD σ) as (b & σ' & E);
            exists b, σ'; rewrite Heq;
            cbv beta iota delta [bind ret negb]; rewrite E;
            split_and!; try done;
            clear -E; unfold addImport in E;
            repeat (case_match; run_W E); done).
  assert (bool_decide (outputLangMode cfg = Cxx) = false) as Hcxx
    by (by rewrite Hmode).
  destruct (isStdlibModule _) eqn:Estd; simpl;
    [|destruct (stateOf σ TD).2 eqn:Efl; simpl];
    (eexists; split;
     [rewrite Heq;
      unfold forwardDeclare, bind, get, ret, emit, setSeen, modify;
      rewrite Estd, Hcxx; simpl; rewrite ?Efl; reflexivity|]);
    simpl; by rewrite ?app_nil_r.
Qed.

(** ** The comparator of the sort *)

(** X8. The comparator is antisymmetric: when it orders two
    declarations, it orders them the opposite way with the arguments
    exchanged. *)
Theorem compareDecls_antisymmetric cfg a b c :
  compareDecls cfg a b = Ok c → compareDecls cfg b a = Ok (- c)%Z.
Proof. apply compareDecls_antisym. Qed.

(** X9. What the comparator can be asked: it answers exactly for two
    different declarations, each a value declaration or an extension,
    that are not two value declarations of one name; in every other case
    one of its assertions fails. *)
Theorem compareDecls_defined cfg a b :
  (∃ c, compareDecls cfg a b = Ok c) ↔
  a ≠ b ∧
  (isValueDecl (kind (decls cfg a)) = true ∨
   kind (decls cfg a) = KExtension) ∧
  (isValueDecl (kind (decls cfg b)) = true ∨
   kind (decls cfg b) = KExtension) ∧
  ¬ (isValueDecl (kind (decls cfg a)) = true ∧
     isValueDecl (kind (decls cfg b)) = true ∧
     declName (decls cfg a) = declName (decls cfg b)).
Proof.
  unfold compareDecls. rewrite compareDecls_last_step.
  unfold getSortName.
  destruct (bool_decide (a = b)) eqn:Eab.
  { apply bool_decide_eq_true in Eab. split; [by intros [? ?]|tauto]. }
  apply bool_decide_eq_false in Eab.
  destruct (isValueDecl (kind (decls cfg a))) eqn:Va,
           (isValueDecl (kind (decls cfg b))) eqn:Vb; simpl.
  - destruct (bool_decide (StringRef_compare _ _ = 0%Z)) eqn:E0; simpl.
    + apply bool_decide_eq_true, StringRef_compare_0 in E0.
      split; [by intros [? ?]|]. intros (_ & _ & _ & Hn). destruct Hn.
      by split_and!.
    + apply bool_decide_eq_false in E0.
      split; [|by eexists]. intros _. split_and!; auto.
      intros (_ & _ & Hn). apply E0. rewrite Hn.
      apply StringRef_compare_refl.
  - destruct (bool_decide (kind (decls cfg b) = KExtension)) eqn:Kb.
    + apply bool_decide_eq_true in Kb.
      split.
      * intros _. split_and!; auto. by intros (_ & ? & _).
      * intros _. destruct (selfClassDecl (decls cfg b));
          destruct (negb _); by eexists.
    + apply bool_decide_eq_false in Kb.
      split; [by intros [? ?]|]. intros (_ & _ & [?|?] & _); done.
  - destruct (bool_decide (kind (decls cfg a) = KExtension)) eqn:Ka.
    + apply bool_decide_eq_true in Ka.
      split.
      * intros _. split_and!; auto. by intros (? & _).
      * intros _. destruct (selfClassDecl (decls cfg a));
          destruct (negb _); by eexists.
    + apply bool_decide_eq_false in Ka.
      split; [by intros [? ?]|]. intros (_ & [?|?] & _); done.
  - destruct (bool_decide (kind (decls cfg b) = KExtension)) eqn:Kb.
    + apply bool_decide_eq_true in Kb.
      destruct (bool_decide (kind (decls cfg a) = KExtension)) eqn:Ka.
      * apply bool_decide_eq_true in Ka.
        split.
        -- intros _. split_and!; auto. by intros (? & _).
        -- intros _.
           destruct (selfClassDecl (decls cfg b)),
                    (selfClassDecl (decls cfg a));
             repeat (destruct (negb _); try by eexists).
      * apply bool_decide_eq_false in Ka.
        split; [|intros (_ & [?|?] & _); done].
        destruct (selfClassDecl (decls cfg b)); by intros [? ?].
    + apply bool_decide_eq_false in Kb.
      split; [by intros [? ?]|]. intros (_ & _ & [?|?] & _); done.
Qed.

(** ** The delayed members *)

Lemma delayedGroups_concat cfg ctx g rest :
  concat (delayedGroups cfg ctx g rest) = g ++ rest.
Proof.
  revert ctx g. induction rest as [|i rest IH]; intros ctx g; simpl.
  - done.
  - destruct (bool_decide _).
    + rewrite IH. by rewrite <- app_assoc.
    + simpl. by rewrite IH.
Qed.

Lemma delayedGroups_first cfg ctx g rest :
  ∃ pre more, delayedGroups cfg ctx g rest = (g ++ pre) :: more.
Proof.
  revert ctx g. induction rest as [|i rest IH]; intros ctx g; simpl.
  - exists [], []. by rewrite app_nil_r.
  - destruct (bool_decide _).
    + destruct (IH ctx (g ++ [i])) as (pre & more & ->).
      exists (i :: pre), more. by rewrite <- app_assoc.
    + exists [], (delayedGroups cfg (declContext (decls cfg i)) [i] rest).
      by rewrite app_nil_r.
Qed.

Lemma delayedGroups_uniform cfg ctx g rest :
  g ≠ [] → Forall (λ m, declContext (decls cfg m) = ctx) g →
  Forall (λ grp, grp ≠ [] ∧
                 ∃ c, Forall (λ m, declContext (decls cfg m) = c) grp)
         (delayedGroups cfg ctx g rest).
Proof.
  revert ctx g. induction rest as [|i rest IH]; intros ctx g Hne Hg; simpl.
  - constructor; [|done]. split; [done|]. by exists ctx.
  - destruct (bool_decide _) eqn:E.
    + apply bool_decide_eq_true in E. apply IH.
      * by destruct g.
      * apply Forall_app. split; [done|]. by constructor.
    + constructor.
      * split; [done|]. by exists ctx.
      * apply IH; [done|]. by constructor.
Qed.

Lemma delayedGroups_maximal cfg ctx g rest :
  g ≠ [] → Forall (λ m, declContext (decls cfg m) = ctx) g →
  ∀ i g1 g2 m1 m2,
    delayedGroups cfg ctx g rest !! i = Some g1 →
    delayedGroups cfg ctx g rest !! S i = Some g2 →
    m1 ∈ g1 → head g2 = Some m2 →
    declContext (decls cfg m1) ≠ declContext (decls cfg m2).
Proof.
  revert ctx g. induction rest as [|x rest IH]; intros ctx g Hne Hg; simpl.
  - by intros [|i] g1 g2 m1 m2.
  - destruct (bool_decide _) eqn:E.
    + apply bool_decide_eq_true in E. apply IH.
      * by destruct g.
      * apply Forall_app. split; [done|]. by constructor.
    + apply bool_decide_eq_false in E.
      intros [|i] g1 g2 m1 m2; simpl.
      * intros [= <-] H2 Hm1 Hm2.
        destruct (delayedGroups_first cfg (declContext (decls cfg x))
                    [x] rest) as (pre & more & Heq).
        rewrite Heq in H2. simpl in H2. injection H2 as <-.
        simpl in Hm2. injection Hm2 as <-.
        rewrite Forall_forall in Hg. rewrite (Hg m1 Hm1). congruence.
      * apply IH; [done|]. by constructor.
Qed.

(** X10. After the loop the delayed members are handed to
    [printAdHocCategory] in groups that partition them in order: the
    groups concatenated are the delayed members, no group is empty, the
    members of one group have one declaration context, and a group
    ends where the context changes, so the member that opens the next
    group has another context than those of the group before. Nothing
    but the output changes. *)
Theorem printDelayedMembers_groups cfg σ :
  ∃ groups σ',
    printDelayedMembers cfg σ = Ok ((), σ') ∧
    os σ' = os σ ++ (OPrintAdHocCategory <$> groups) ∧
    concat groups = delayedMembers σ ∧
    Forall (λ grp, grp ≠ [] ∧
                   ∃ c, Forall (λ m, declContext (decls cfg m) = c) grp)
           groups ∧
    (∀ i g1 g2 m1 m2,
       groups !! i = Some g1 → groups !! S i = Some g2 →
       m1 ∈ g1 → head g2 = Some m2 →
       declContext (decls cfg m1) ≠ declContext (decls cfg m2)) ∧
    declsToWrite σ' = declsToWrite σ ∧ imports σ' = imports σ ∧
    seenTypes σ' = seenTypes σ ∧ delayedMembers σ' = delayedMembers σ.
Proof.
  unfold printDelayedMembers, bind, get.
  destruct (delayedMembers σ) as [|first rest] eqn:E.
  - exists [], σ. simpl. rewrite app_nil_r. by split_and!.
  - eexists _, _. split; [reflexivity|]. simpl. rewrite E.
    split_and!; try done.
    + apply delayedGroups_concat.
    + apply delayedGroups_uniform; [done|]. by constructor.
    + apply delayedGroups_maximal; [done|]. by constructor.
Qed.

(** ** Functions and structs *)

#[local] Instance sameStates_preorder :
  PreOrder (λ σ σ' : ModuleWriter, ∀ D, (stateOf σ' D).1 = (stateOf σ D).1).
Proof.
  split; [by intros σ D|].
  intros σ1 σ2 σ3 H1 H2 D. by rewrite H2.
Qed.

Lemma forwardDeclareMemberTypes_sameStates cfg members container :
  kind (decls cfg container) ≠ KClass →
  kind (decls cfg container) ≠ KProtocol →
  kind (decls cfg container) ≠ KExtension →
  preserves (λ σ σ', ∀ D, (stateOf σ' D).1 = (stateOf σ D).1)
    (forwardDeclareMemberTypes cfg members container).
Proof.
  intros Hc Hp He.
  set (R := λ σ σ' : ModuleWriter, ∀ D, (stateOf σ' D).1 = (stateOf σ D).1).
  assert (∀ TD, preserves R (forwardDeclareType cfg TD)) as Hfd.
  { intros TD σ u σ' H. by apply forwardDeclareType_sameSchedule in H as [_ ?]. }
  assert (∀ fl nd TD, preserves R (memberTypeCallback cfg container fl nd TD))
    as Hcb.
  { intros fl nd TD. unfold memberTypeCallback.
    destruct (bool_decide (TD = container)); [apply (preserves_ret R)|].
    cbv zeta.
    destruct (_ && _);
      [destruct (kind (decls cfg container)); try done|];
      (apply (preserves_bind R); [apply Hfd|intros ?; apply (preserves_ret R)]). }
  assert (∀ reports fl, preserves R (walkCallbacks cfg container reports fl))
    as Hwalk.
  { induction reports as [|[TD nd] reports IH]; intros fl; simpl.
    - apply (preserves_ret R).
    - apply (preserves_bind R); [apply Hcb|intros ?; apply IH]. }
  assert (∀ hadAny nested,
            preserves R (forMembers cfg members container hadAny nested))
    as Hmem.
  { induction members as [|member members IH]; intros hadAny nested; simpl.
    - apply (preserves_ret R).
    - destruct (_ || _); [apply IH|].
      destruct (isTypeDecl _); [apply IH|].
      apply (preserves_bind R); [apply Hwalk|intros fl].
      apply (preserves_bind R); [|intros ?; apply IH].
      destruct (needsToBeIndividuallyDelayed fl); [|apply (preserves_ret R)].
      destruct (bool_decide _); [|apply preserves_abort].
      by apply (preserves_modify R). }
  unfold forwardDeclareMemberTypes.
  destruct (negb _); [apply preserves_abort|].
  apply (preserves_bind R); [apply Hmem|intros r].
  apply (preserves_bind R); [|intros ?; apply (preserves_ret R)].
  unfold insertBeforeBack.
  apply (preserves_bind R); [apply (preserves_get R)|intros σ0].
  destruct (unsnoc _) as [[front back]|]; [|apply preserves_abort].
  by apply (preserves_modify R).
Qed.

(** X11. [writeFunc] on a local function forward-declares the types of
    its interface and then prints the function, each time it is called:
    it always succeeds, the function is the one declaration handed to
    the printer, and neither the work stack nor any emission state
    changes. For a function of another module nothing is printed. *)
Theorem writeFunc_prints cfg FD σ b σ' :
  writeFunc cfg FD σ = Ok (b, σ') →
  b = true ∧
  printedDecls σ' =
    printedDecls σ ++
    (if bool_decide (moduleContext (decls cfg FD) = M cfg) then [FD] else []) ∧
  declsToWrite σ' = declsToWrite σ ∧
  ∀ D, (stateOf σ' D).1 = (stateOf σ D).1.
Proof.
  intros H. unfold writeFunc in H.
  apply bind_Ok in H as (imp & σ1 & E & H).
  pose proof (addImport_sameSchedule _ _ _ _ _ E) as [Hs1 Hq1].
  pose proof (addImport_advances _ _ _ _ _ E) as [_ Hp1 _ _].
  destruct imp.
  { run_W H. apply addImport_foreign in E.
    rewrite bool_decide_eq_false_2 by done. rewrite app_nil_r. by split_and!. }
  apply addImport_false in E as [Hl ->]; [|done].
  rewrite bool_decide_eq_true_2 by done.
  apply bind_Ok in H as (? & σ2 & E2 & H).
  assert (sameSchedule σ σ2) as [Hs2 Hq2].
  { revert E2. apply (preserves_forEach sameSchedule).
    intros r. apply forwardDeclareType_sameSchedule. }
  assert (advances cfg σ σ2) as [_ Hp2 _ _].
  { revert E2. apply (preserves_forEach (advances _)).
    intros r. apply forwardDeclareType_advances. }
  run_W H. split_and!; try done.
  rewrite !printedDecls_app. simpl. by rewrite app_nil_r, Hp2.
Qed.

(** X12. [writeStruct] is not guarded by the ledger: for a local struct
    it succeeds and prints the struct every time it is called, and it
    never changes the emission state of any declaration, so a struct is
    never marked [Defined]. *)
Theorem writeStruct_prints cfg SD σ b σ' :
  kind (decls cfg SD) = KStruct →
  moduleContext (decls cfg SD) = M cfg →
  writeStruct cfg SD σ = Ok (b, σ') →
  b = true ∧ printedDecls σ' = printedDecls σ ++ [SD] ∧
  ∀ D, (stateOf σ' D).1 = (stateOf σ D).1.
Proof.
  intros Hk Hl H.
  pose proof (writeStruct_writes _ _ _ _ _ Hk H) as Hw.
  unfold writeStruct in H. unfold bind in H at 1.
  rewrite addImport_local in H by done. simpl in H.
  apply bind_Ok in H as ([] & σ2 & E2 & H). run_W H.
  set (R := λ σ σ' : ModuleWriter, ∀ D, (stateOf σ' D).1 = (stateOf σ D).1).
  assert (R σ σ2) as Hs.
  { revert E2.
    assert (∀ ms, preserves R (forwardDeclareMemberTypes cfg ms SD)) as Hm
      by (intros ms; apply forwardDeclareMemberTypes_sameStates; congruence).
    assert (preserves R
      (if bool_decide (outputLangMode cfg = Cxx)
       then
         let* _ := forwardDeclareMemberTypes cfg (members (decls cfg SD)) SD in
         let* σ := get in
         forEach (getExtensionsForNominalType σ SD)
           (λ ed, let* _ := forwardDeclareMemberTypes cfg
                              (members (decls cfg ed)) SD in
                  ret ()) ;;;
         forwardDeclareCxxValueTypeIfNeeded cfg SD
       else ret ())) as Hp.
    { destruct (bool_decide _); [|apply (preserves_ret R)].
      apply (preserves_bind R); [apply Hm|intros ?].
      apply (preserves_bind R); [apply (preserves_get R)|intros σ0].
      apply (preserves_bind R).
      - apply (preserves_forEach R). intros ed.
        apply (preserves_bind R); [apply Hm|intros ?; apply (preserves_ret R)].
      - intros ? σa u σb Hfd.
        by apply forwardDeclareCxxValueTypeIfNeeded_sameSchedule in Hfd
          as [_ ?]. }
    apply Hp. }
  split; [done|]. split; [|done].
  destruct Hw as [[_ Hpr _ _]|[_ Hpr]].
  - rewrite printedDecls_app in Hpr. simpl in Hpr.
    apply (f_equal length) in Hpr. rewrite !length_app in Hpr.
    simpl in Hpr. 
    assert (advances cfg σ σ2) as [_ Hp2 _ _]; [|rewrite Hp2 in Hpr; lia].
    revert E2. clear. intros E2.
    assert (preserves (advances cfg)
      (if bool_decide (outputLangMode cfg = Cxx)
       then
         let* _ := forwardDeclareMemberTypes cfg (members (decls cfg SD)) SD in
         let* σ := get in
         forEach (getExtensionsForNominalType σ SD)
           (λ ed, let* _ := forwardDeclareMemberTypes cfg
                              (members (decls cfg ed)) SD in
                  ret ()) ;;;
         forwardDeclareCxxValueTypeIfNeeded cfg SD
       else ret ())) as Hp by repeat adv_step.
    by apply Hp in E2.
  - apply Hpr.
Qed.

(** ** Writing a declaration again *)

Lemma stateOf_written σ D o1 o2 :
  (stateOf (with_os o2 (with_os o1
      (with_seenTypes (insert D (Defined, true)) σ))) D).1 = Defined.
Proof. unfold stateOf. simpl. by rewrite lookup_insert_eq. Qed.

Lemma writeClass_again cfg CD σ σ1 :
  writeClass cfg CD σ = Ok (true, σ1) → writeClass cfg CD σ1 = Ok (true, σ1).
Proof.
  intros H. unfold writeClass in H.
  apply bind_Ok in H as (imp & σi & E & H). destruct imp.
  { run_W H. apply addImport_twice in E. unfold writeClass, bind.
    by rewrite E. }
  apply addImport_false in E as [Hl ->]; [|done].
  assert (∀ σ', (stateOf σ' CD).1 = Defined →
                writeClass cfg CD σ' = Ok (true, σ')) as Hdone.
  { intros σ' Hd. unfold writeClass, bind.
    rewrite addImport_local by done. simpl. unfold get.
    by rewrite bool_decide_eq_true_2. }
  apply bind_Ok in H as (? & ? & [= <- <-] & H).
  destruct (bool_decide ((stateOf σ CD).1 = Defined)) eqn:Ed.
  { run_W H. apply Hdone. by apply bool_decide_eq_true in Ed. }
  apply bind_Ok in H as (sat1 & σ2 & E2 & H).
  apply bind_Ok in H as (sat2 & σ3 & E3 & H).
  destruct sat2; simpl in H; [|by run_W H].
  apply bind_Ok in H as (ok & σ4 & E4 & H). run_W H.
  apply Hdone, stateOf_written.
Qed.

Lemma writeProtocol_again cfg PD σ σ1 :
  writeProtocol cfg PD σ = Ok (true, σ1) →
  writeProtocol cfg PD σ1 = Ok (true, σ1).
Proof.
  intros H. unfold writeProtocol in H.
  apply bind_Ok in H as (imp & σi & E & H). destruct imp.
  { run_W H. apply addImport_twice in E. unfold writeProtocol, bind.
    by rewrite E. }
  apply addImport_false in E as [Hl ->]; [|done].
  assert (∀ σ', (stateOf σ' PD).1 = Defined →
                writeProtocol cfg PD σ' = Ok (true, σ')) as Hdone.
  { intros σ' Hd. unfold writeProtocol, bind.
    rewrite addImport_local by done. simpl. unfold get.
    by rewrite bool_decide_eq_true_2. }
  apply bind_Ok in H as (? & ? & [= <- <-] & H).
  destruct (bool_decide ((stateOf σ PD).1 = Defined)) eqn:Ed.
  { run_W H. apply Hdone. by apply bool_decide_eq_true in Ed. }
  apply bind_Ok in H as (sat & σ2 & E2 & H).
  destruct sat; simpl in H; [|by run_W H].
  apply bind_Ok in H as (ok & σ3 & E3 & H).
  destruct ok; simpl in H; [|by run_W H].
  run_W H. apply Hdone, stateOf_written.
Qed.

Lemma writeEnum_again cfg ED σ b σ1 :
  outputLangMode cfg = ObjC →
  writeEnum cfg ED σ = Ok (b, σ1) → writeEnum cfg ED σ1 = Ok (true, σ1).
Proof.
  intros Hmode H. unfold writeEnum in H.
  assert (bool_decide (outputLangMode cfg = Cxx) = false) as Hcxx
    by (by rewrite Hmode).
  rewrite Hcxx in H.
  apply bind_Ok in H as (imp & σi & E & H). destruct imp.
  { run_W H. apply addImport_twice in E. unfold writeEnum, bind.
    by rewrite E. }
  apply addImport_false in E as [Hl ->]; [|done].
  assert (∀ σ', (stateOf σ' ED).1 = Defined →
                writeEnum cfg ED σ' = Ok (true, σ')) as Hdone.
  { intros σ' Hd. unfold writeEnum, bind.
    rewrite addImport_local by done. rewrite Hcxx. simpl. unfold get.
    by rewrite bool_decide_eq_true_2. }
  apply bind_Ok in H as ([] & ? & [= <-] & H).
  apply bind_Ok in H as (? & ? & [= <- <-] & H).
  destruct (bool_decide ((stateOf σ ED).1 = Defined)) eqn:Ed.
  { run_W H. apply Hdone. by apply bool_decide_eq_true in Ed. }
  simpl in H. destruct (conformsToError (decls cfg ED) && _); run_W H;
    apply Hdone; unfold stateOf; simpl; by rewrite lookup_insert_eq.
Qed.

(** X13. A class, and in an Objective-C header a protocol or an enum,
    is written once: when its writer has succeeded, a further attempt
    at the same declaration succeeds at once and changes nothing. This
    is what discharges an entry that is on the stack several times. *)
Theorem writeDecl_again cfg D σ σ1 :
  kind (decls cfg D) = KClass ∨
  (outputLangMode cfg = ObjC ∧
   (kind (decls cfg D) = KProtocol ∨ kind (decls cfg D) = KEnum)) →
  writeDecl cfg D σ = Ok (true, σ1) →
  writeDecl cfg D σ1 = Ok (true, σ1).
Proof.
  unfold writeDecl. intros [Hk|[Hmode [Hk|Hk]]]; rewrite Hk.
  - apply writeClass_again.
  - rewrite bool_decide_eq_false_2 by (by rewrite Hmode). simpl.
    apply writeProtocol_again.
  - by apply writeEnum_again.
Qed.

(** ** The assertion of [writeProtocol] *)

Lemma require_Ok cfg D σ : ∃ b σ', require cfg D σ = Ok (b, σ').
Proof.
  unfold require, bind.
  destruct (addImport_Ok cfg D σ) as (imp & σ1 & ->).
  destruct imp; [by eexists _, _|]. unfold get.
  destruct (stateOf σ1 D).1; by eexists _, _.
Qed.

Lemma requireProtocols_asserts cfg protos P acc σ :
  P ∈ protos → shouldInclude (printer cfg) P = true →
  isObjC (decls cfg P) = false →
  ∃ w, requireProtocols cfg true protos acc σ = Abort w.
Proof.
  intros HP Hi Ho. revert acc σ.
  induction protos as [|Q protos IH]; intros acc σ;
    [by apply elem_of_nil in HP|].
  simpl. destruct (decide (Q = P)) as [->|Hne].
  - rewrite Hi, Ho. by eexists.
  - apply elem_of_cons in HP as [->|HP]; [done|].
    destruct (shouldInclude (printer cfg) Q); [|by apply IH].
    destruct (isObjC (decls cfg Q)); simpl; [|by eexists].
    unfold bind.
    destruct (require_Ok cfg Q σ) as (b & σ' & ->).
    by apply IH.
Qed.

(** X14. [writeProtocol] asserts that every included protocol a
    protocol inherits is [@objc]: for a local protocol that is not yet
    [Defined], an included inherited protocol that is not [@objc] makes
    the assertion fail, whatever else the protocol inherits. *)
Theorem writeProtocol_asserts_objc cfg PD P σ :
  moduleContext (decls cfg PD) = M cfg →
  (stateOf σ PD).1 ≠ Defined →
  P ∈ inheritedProtocols (decls cfg PD) →
  shouldInclude (printer cfg) P = true →
  isObjC (decls cfg P) = false →
  ∃ w, writeProtocol cfg PD σ = Abort w.
Proof.
  intros Hl Hd HP Hi Ho. unfold writeProtocol, bind.
  rewrite addImport_local by done. simpl. unfold get.
  rewrite bool_decide_eq_false_2 by done.
  destruct (requireProtocols_asserts cfg _ P true σ HP Hi Ho) as [w ->].
  by exists w.
Qed.

(** ** The stack after one attempt *)

Section AttemptStack.
Context (cfg : Config).

Lemma attemptStack_failed rest D σ σ' pushed :
  declsToWrite σ' = (rest ++ [D]) ++ pushed → pushed ≠ [] →
  Forall (pushedDecl cfg σ σ') pushed →
  attemptStack cfg rest D false σ σ'.
Proof.
  intros Hst Hne Hp. destruct pushed as [|U pushed _] using rev_ind; [done|].
  apply Forall_app in Hp as [_ HU]. apply Forall_inv in HU.
  exists pushed, U. split; [|done]. rewrite Hst. by rewrite <- !app_assoc.
Qed.

Lemma attemptStack_unchanged rest D σ σ' :
  declsToWrite σ' = rest ++ [D] → attemptStack cfg rest D true σ σ'.
Proof. intros Hst. exists []. by split. Qed.

Lemma scheduledNestedTypes_rev members :
  Forall (λ N, isScheduledNestedType cfg N = true)
         (rev (scheduledNestedTypes cfg members)).
Proof.
  apply Forall_forall. intros N HN. apply (proj1 (elem_of_rev _ _)) in HN.
  unfold scheduledNestedTypes in HN. by apply list_elem_of_filter in HN as [? _].
Qed.

Lemma attemptStack_nested rest D members σ σ' :
  declsToWrite σ' = rest ++ rev (scheduledNestedTypes cfg members) ++ [D] →
  attemptStack cfg rest D true σ σ'.
Proof.
  intros Hst. eexists. split; [exact Hst|]. apply scheduledNestedTypes_rev.
Qed.

Lemma pushedDecl_seq σ σ1 σ2 p1 p2 :
  extends σ σ1 → advances cfg σ1 σ2 →
  Forall (pushedDecl cfg σ σ1) p1 → Forall (pushedDecl cfg σ1 σ2) p2 →
  Forall (pushedDecl cfg σ σ2) (p1 ++ p2).
Proof.
  intros E1 A2 H1 H2. apply Forall_app. split.
  - eapply Forall_impl; [exact H1|]. intros U HU. by eapply pushedDecl_later.
  - eapply Forall_impl; [exact H2|]. intros U HU.
    by eapply pushedDecl_earlier.
Qed.

Lemma require_pushes D σ b σ' :
  require cfg D σ = Ok (b, σ') →
  ∃ p, declsToWrite σ' = declsToWrite σ ++ p ∧
       Forall (pushedDecl cfg σ σ') p ∧ b = bool_decide (p = []).
Proof.
  intros H. apply require_pushedDecl in H as (p & Hst & Hp & ->).
  exists p. split_and!; try done.
  eapply Forall_impl; [exact Hp|]. by intros U [_ ?].
Qed.

Lemma requireProtocols_pushes mustBeObjC protos acc σ b σ' :
  requireProtocols cfg mustBeObjC protos acc σ = Ok (b, σ') →
  ∃ p, declsToWrite σ' = declsToWrite σ ++ p ∧
       Forall (pushedDecl cfg σ σ') p ∧ b = acc && bool_decide (p = []).
Proof.
  intros H. apply requireProtocols_schedule in H as (p & Hst & Hp & ->).
  exists p. split_and!; try done.
  eapply Forall_impl; [exact Hp|]. by intros U (_ & _ & ?).
Qed.

Lemma members_failed_stack rest D ms σ σ1 σ' L U :
  extends σ σ1 →
  declsToWrite σ' =
    rest ++ [D] ++ (L ++ rev (scheduledNestedTypes cfg ms)) ++ [U] →
  pushedMember cfg D σ1 σ' U →
  attemptStack cfg rest D false σ σ'.
Proof.
  intros Hext Hst Hpush. eexists _, U. split; [exact Hst|].
  eapply pushedDecl_earlier; [exact Hext|].
  by eapply pushedMember_pushedDecl.
Qed.

Lemma writeClass_stack rest CD σ b σ' :
  kind (decls cfg CD) = KClass →
  declsToWrite σ = rest ++ [CD] →
  writeClass cfg CD σ = Ok (b, σ') →
  attemptStack cfg rest CD b σ σ'.
Proof.
  intros Hk Hst H. unfold writeClass in H.
  apply bind_Ok in H as (imp & σ1 & E & H).
  pose proof (addImport_sameSchedule _ _ _ _ _ E) as [Hs1 _].
  pose proof (addImport_advances _ _ _ _ _ E) as A1.
  destruct imp.
  { run_W H. apply attemptStack_unchanged. congruence. }
  apply bind_Ok in H as (? & ? & [= <- <-] & H).
  destruct (bool_decide ((stateOf σ1 CD).1 = Defined)).
  { run_W H. apply attemptStack_unchanged. congruence. }
  apply bind_Ok in H as (sat1 & σ2 & E2 & H).
  apply bind_Ok in H as (sat2 & σ3 & E3 & H).
  assert (∃ p1, declsToWrite σ2 = declsToWrite σ1 ++ p1 ∧
                Forall (pushedDecl cfg σ1 σ2) p1 ∧
                sat1 = bool_decide (p1 = []) ∧ advances cfg σ1 σ2)
    as (p1 & Hst2 & Hp1 & -> & A2).
  { destruct (superclassDecl (decls cfg CD)) as [S|].
    - pose proof (require_advances _ _ _ _ _ E2).
      apply require_pushes in E2 as (p & ? & ? & ?). by exists p.
    - run_W E2. exists []. rewrite app_nil_r. by split_and!. }
  assert (∃ p2, declsToWrite σ3 = declsToWrite σ2 ++ p2 ∧
                Forall (pushedDecl cfg σ2 σ3) p2 ∧
                sat2 = bool_decide (p1 = []) && bool_decide (p2 = []) ∧
                advances cfg σ2 σ3)
    as (p2 & Hst3 & Hp2 & -> & A3).
  { destruct (bool_decide (outputLangMode cfg = Cxx)); simpl in E3.
    - run_W E3. exists []. rewrite app_nil_r, andb_true_r. by split_and!.
    - pose proof (requireProtocols_advances _ _ _ _ _ _ _ E3).
      apply requireProtocols_pushes in E3 as (p & ? & ? & ?). by exists p. }
  destruct (bool_decide (p1 = []) && bool_decide (p2 = [])) eqn:Esat;
    simpl in H.
  - apply andb_true_iff in Esat
      as [->%bool_decide_eq_true ->%bool_decide_eq_true].
    rewrite app_nil_r in *.
    apply bind_Ok in H as (ok & σ4 & E4 & H). run_W H.
    assert (declsToWrite σ3 = rest ++ [CD]) as Hstk by congruence.
    destruct (forwardDeclareMemberTypes_back _ _ _ _ _ _ _ _ Hstk E4)
      as [[Hst4 _]|(L & U & _ & _ & _ & [?|?] & _)]; [|congruence..].
    by apply (attemptStack_nested _ _ (members (decls cfg CD))).
  - run_W H. apply (attemptStack_failed _ _ _ _ (p1 ++ p2)).
    + rewrite Hst3, Hst2, Hs1, Hst. by rewrite app_assoc.
    + destruct p1, p2; done.
    + eapply Forall_impl;
        [exact (pushedDecl_seq _ _ _ _ _ (adv_extends _ _ _ A2) A3 Hp1 Hp2)|].
      intros U HU. eapply pushedDecl_earlier; [|exact HU]. apply A1.
Qed.

Lemma writeProtocol_stack rest PD σ b σ' :
  kind (decls cfg PD) = KProtocol →
  declsToWrite σ = rest ++ [PD] →
  writeProtocol cfg PD σ = Ok (b, σ') →
  attemptStack cfg rest PD b σ σ'.
Proof.
  intros Hk Hst H. unfold writeProtocol in H.
  apply bind_Ok in H as (imp & σ1 & E & H).
  pose proof (addImport_sameSchedule _ _ _ _ _ E) as [Hs1 _].
  pose proof (addImport_advances _ _ _ _ _ E) as A1.
  destruct imp.
  { run_W H. apply attemptStack_unchanged. congruence. }
  apply bind_Ok in H as (? & ? & [= <- <-] & H).
  destruct (bool_decide ((stateOf σ1 PD).1 = Defined)).
  { run_W H. apply attemptStack_unchanged. congruence. }
  apply bind_Ok in H as (sat & σ2 & E2 & H).
  pose proof (requireProtocols_advances _ _ _ _ _ _ _ E2) as A2.
  apply requireProtocols_pushes in E2 as (p & Hst2 & Hp & ->).
  simpl in H. destruct (bool_decide (p = [])) eqn:Ep; simpl in H.
  - apply bool_decide_eq_true in Ep as ->. rewrite app_nil_r in Hst2.
    apply bind_Ok in H as (ok & σ3 & E3 & H).
    assert (declsToWrite σ2 = rest ++ [PD]) as Hstk by congruence.
    destruct (forwardDeclareMemberTypes_back _ _ _ _ _ _ _ _ Hstk E3)
      as [[Hst3 Hok]|(L & U & Hst3 & Hdep & Hpush & Hkk & ->)].
    + rewrite Hok in H by congruence. run_W H.
      by apply (attemptStack_nested _ _ (members (decls cfg PD))).
    + run_W H. eapply members_failed_stack; [|exact Hst3|exact Hpush].
      etrans; [apply A1|apply A2].
  - run_W H. apply (attemptStack_failed _ _ _ _ p).
    + by rewrite Hst2, Hs1, Hst.
    + by apply bool_decide_eq_false in Ep.
    + eapply Forall_impl; [exact Hp|].
      intros U HU. eapply pushedDecl_earlier; [|exact HU]. apply A1.
Qed.

Lemma writeExtension_stack rest ED σ b σ' :
  kind (decls cfg ED) = KExtension →
  declsToWrite σ = rest ++ [ED] →
  writeExtension cfg ED σ = Ok (b, σ') →
  attemptStack cfg rest ED b σ σ'.
Proof.
  intros Hk Hst H. unfold writeExtension in H.
  destruct (isEmptyExtensionDecl (printer cfg) ED).
  { run_W H. by apply attemptStack_unchanged. }
  destruct (selfClassDecl (decls cfg ED)) as [CD|]; [|done].
  apply bind_Ok in H as (sat1 & σ2 & E2 & H).
  apply bind_Ok in H as (sat2 & σ3 & E3 & H).
  pose proof (require_advances _ _ _ _ _ E2) as A2.
  pose proof (requireProtocols_advances _ _ _ _ _ _ _ E3) as A3.
  apply require_pushes in E2 as (p1 & Hst2 & Hp1 & ->).
  apply requireProtocols_pushes in E3 as (p2 & Hst3 & Hp2 & ->).
  destruct (bool_decide (p1 = []) && bool_decide (p2 = [])) eqn:Esat;
    simpl in H.
  - apply andb_true_iff in Esat
      as [->%bool_decide_eq_true ->%bool_decide_eq_true].
    rewrite app_nil_r in *.
    apply bind_Ok in H as (ok & σ4 & E4 & H).
    assert (declsToWrite σ3 = rest ++ [ED]) as Hstk by congruence.
    destruct (forwardDeclareMemberTypes_back _ _ _ _ _ _ _ _ Hstk E4)
      as [[Hst4 Hok]|(L & U & Hst4 & Hdep & Hpush & Hkk & ->)].
    + rewrite Hok in H by congruence. run_W H.
      by apply (attemptStack_nested _ _ (members (decls cfg ED))).
    + run_W H. eapply members_failed_stack; [|exact Hst4|exact Hpush].
      etrans; [apply A2|apply A3].
  - run_W H. apply (attemptStack_failed _ _ _ _ (p1 ++ p2)).
    + rewrite Hst3, Hst2, Hst. by rewrite app_assoc.
    + destruct p1, p2; done.
    + exact (pushedDecl_seq _ _ _ _ _ (adv_extends _ _ _ A2) A3 Hp1 Hp2).
Qed.

Lemma writeEnum_stack rest ED σ b σ' :
  kind (decls cfg ED) = KEnum →
  declsToWrite σ = rest ++ [ED] →
  writeEnum cfg ED σ = Ok (b, σ') →
  attemptStack cfg rest ED b σ σ'.
Proof.
  intros Hk Hst H. unfold writeEnum in H.
  apply bind_Ok in H as (imp & σ1 & E & H).
  pose proof (addImport_sameSchedule _ _ _ _ _ E) as [Hs1 _].
  destruct imp.
  { run_W H. apply attemptStack_unchanged. congruence. }
  apply bind_Ok in H as ([] & σ2 & E2 & H).
  assert (attemptStack cfg rest ED true σ σ2) as Hatt.
  { destruct (bool_decide (outputLangMode cfg = Cxx)).
    - apply bind_Ok in E2 as (ok & σm & Em & E2).
      apply forwardDeclareCxxValueTypeIfNeeded_sameSchedule in E2 as [Hs2 _].
      assert (declsToWrite σ1 = rest ++ [ED]) as Hstk by congruence.
      destruct (forwardDeclareMemberTypes_back _ _ _ _ _ _ _ _ Hstk Em)
        as [[Hstm _]|(L & U & _ & _ & _ & [?|?] & _)]; [|congruence..].
      apply (attemptStack_nested _ _ (members (decls cfg ED))). congruence.
    - run_W E2. apply attemptStack_unchanged. congruence. }
  assert (declsToWrite σ' = declsToWrite σ2 ∧ b = true) as [Hs' ->].
  { apply bind_Ok in H as (? & ? & [= <- <-] & H).
    destruct (bool_decide ((stateOf σ2 ED).1 = Defined)); [by run_W H|].
    destruct (negb _ && _ && _); by run_W H. }
  destruct Hatt as (ins & ? & ?). exists ins. split; [congruence|done].
Qed.

Lemma forEach_extensions_stack rest SD exts :
  kind (decls cfg SD) = KStruct →
  ∀ σ σ' a,
    attemptStack cfg rest SD true σ σ →
    forEach exts
      (λ ed, let* _ := forwardDeclareMemberTypes cfg
                         (members (decls cfg ed)) SD in ret tt) σ
      = Ok (a, σ') →
    attemptStack cfg rest SD true σ' σ'.
Proof.
  intros Hk. induction exts as [|ed exts IH];
    intros σ σ' a Hatt H; simpl in H.
  { by run_W H. }
  apply bind_Ok in H as (? & σ1 & E1 & H).
  apply bind_Ok in E1 as (ok & σm & Em & E1).
  unfold ret in E1. injection E1 as _ <-.
  apply (IH _ _ _) in H; [done|].
  destruct Hatt as (ins & Hst & Hins).
  assert (declsToWrite σ = (rest ++ ins) ++ [SD]) as Hstk
    by (by rewrite Hst, <- app_assoc).
  destruct (forwardDeclareMemberTypes_back _ _ _ _ _ _ _ _ Hstk Em)
    as [[Hstm _]|(L & U & _ & _ & _ & [?|?] & _)]; [|congruence..].
  exists (ins ++ rev (scheduledNestedTypes cfg (members (decls cfg ed)))).
  split; [by rewrite Hstm, <- !app_assoc|].
  apply Forall_app. split; [done|]. apply scheduledNestedTypes_rev.
Qed.

Lemma writeStruct_stack rest SD σ b σ' :
  kind (decls cfg SD) = KStruct →
  declsToWrite σ = rest ++ [SD] →
  writeStruct cfg SD σ = Ok (b, σ') →
  attemptStack cfg rest SD b σ σ'.
Proof.
  intros Hk Hst H. unfold writeStruct in H.
  apply bind_Ok in H as (imp & σ1 & E & H).
  pose proof (addImport_sameSchedule _ _ _ _ _ E) as [Hs1 _].
  destruct imp.
  { run_W H. apply attemptStack_unchanged. congruence. }
  apply bind_Ok in H as ([] & σ2 & E2 & H). run_W H.
  assert (attemptStack cfg rest SD true σ2 σ2) as Hatt.
  { destruct (bool_decide (outputLangMode cfg = Cxx)).
    - apply bind_Ok in E2 as (ok & σm & Em & E2).
      apply bind_Ok in E2 as (? & ? & [= <- <-] & E2).
      apply bind_Ok in E2 as (? & σe & Ee & E2).
      apply forwardDeclareCxxValueTypeIfNeeded_sameSchedule in E2 as [Hs2 _].
      assert (declsToWrite σ1 = rest ++ [SD]) as Hstk by congruence.
      destruct (forwardDeclareMemberTypes_back _ _ _ _ _ _ _ _ Hstk Em)
        as [[Hstm _]|(L & U & _ & _ & _ & [?|?] & _)]; [|congruence..].
      assert (attemptStack cfg rest SD true σm σm) as Hm
        by (by apply (attemptStack_nested _ _ (members (decls cfg SD)))).
      destruct (forEach_extensions_stack _ _ _ Hk _ _ _ Hm Ee)
        as (ins & ? & ?).
      exists ins. split; [congruence|done].
    - run_W E2. apply attemptStack_unchanged. congruence. }
  destruct Hatt as (ins & ? & ?). by exists ins.
Qed.

Lemma writeFunc_stack rest FD σ b σ' :
  declsToWrite σ = rest ++ [FD] →
  writeFunc cfg FD σ = Ok (b, σ') →
  attemptStack cfg rest FD b σ σ'.
Proof.
  intros Hst H. unfold writeFunc in H.
  apply bind_Ok in H as (imp & σ1 & E & H).
  pose proof (addImport_sameSchedule _ _ _ _ _ E) as [Hs1 _].
  destruct imp.
  { run_W H. apply attemptStack_unchanged. congruence. }
  apply bind_Ok in H as (? & σ2 & E2 & H).
  assert (sameSchedule σ1 σ2) as [Hs2 _].
  { revert E2. apply (preserves_forEach sameSchedule).
    intros r. apply forwardDeclareType_sameSchedule. }
  run_W H. apply attemptStack_unchanged. simpl. congruence.
Qed.

Lemma writeDecl_attemptStack rest D σ b σ' :
  declsToWrite σ = rest ++ [D] →
  writeDecl cfg D σ = Ok (b, σ') →
  attemptStack cfg rest D b σ σ'.
Proof.
  intros Hst H. unfold writeDecl in H.
  destruct (kind (decls cfg D)) eqn:Hk;
    try (by eapply writeEnum_stack);
    try (by eapply writeClass_stack);
    destruct (bool_decide (outputLangMode cfg = Cxx)) eqn:Emode;
    simpl in H;
    try (run_W H; by apply attemptStack_unchanged);
    try (by eapply writeStruct_stack);
    try (by eapply writeFunc_stack);
    try (by eapply writeProtocol_stack);
    try (by eapply writeExtension_stack).
Qed.

End AttemptStack.

(** X15. One iteration of the drain loop keeps the stack discipline.
    When the writer of the back [D] of the stack succeeds, [D] is still
    the back, with nothing but explicitly [@objc] nested types inserted
    below it, so the assertion [declsToWrite.back() == D] holds and the
    iteration pops [D]. When it fails, there are new entries above [D],
    the topmost a local declaration that [require] has just put there
    and that is now [DefinitionRequested]: a failed attempt never
    leaves the stack as it was. *)
Theorem drainStep_stack cfg rest D σ b σ1 :
  declsToWrite σ = rest ++ [D] →
  writeDecl cfg D σ = Ok (b, σ1) →
  ∃ σ2, drainStep cfg D σ = Ok ((), σ2) ∧
    if b then
      ∃ ins, declsToWrite σ1 = rest ++ ins ++ [D] ∧
             declsToWrite σ2 = rest ++ ins ∧
             Forall (λ N, isScheduledNestedType cfg N = true) ins
    else
      σ2 = σ1 ∧
      ∃ L U, declsToWrite σ1 = rest ++ [D] ++ L ++ [U] ∧
             moduleContext (decls cfg U) = M cfg ∧
             (stateOf σ1 U).1 = DefinitionRequested.
Proof.
  intros Hst H. pose proof (writeDecl_attemptStack _ _ _ _ _ _ Hst H) as Hatt.
  unfold drainStep, bind. rewrite H. destruct b.
  - destruct Hatt as (ins & Hst1 & Hins). unfold get.
    rewrite Hst1, app_assoc, unsnoc_snoc.
    rewrite bool_decide_eq_true_2 by done.
    eexists. split; [reflexivity|]. exists ins. by rewrite <- app_assoc.
  - destruct Hatt as (L & U & Hst1 & Hl & Hreq & _).
    eexists. split; [reflexivity|]. split; [done|]. by exists L, U.
Qed.

(** ** The start of a pass *)

Lemma removedFromTopLevel_kept cfg D :
  removedFromTopLevel cfg D = false ↔ keptAtTopLevel cfg D.
Proof.
  unfold removedFromTopLevel, keptAtTopLevel.
  destruct (isValueDecl (kind (decls cfg D))) eqn:Hv.
  - rewrite negb_false_iff. split; [auto|]. by intros [[_ ?]|[? _]].
  - destruct (bool_decide (kind (decls cfg D) = KExtension)) eqn:Hk.
    + apply bool_decide_eq_true in Hk.
      destruct (bool_decide (outputLangMode cfg = Cxx)) eqn:Hm.
      * apply bool_decide_eq_true in Hm. split; [|done]. intros _.
        right. auto.
      * apply bool_decide_eq_false in Hm.
        destruct (selfClassDecl (decls cfg D)) as [C|].
        -- rewrite orb_false_iff, negb_false_iff. split.
           ++ intros [? ?]. right. split_and!; try done. right. by exists C.
           ++ intros [[? _]|(_ & _ & [?|(C' & [= <-] & ? & ?)])]; done.
        -- split; [done|].
           intros [[? _]|(_ & _ & [?|(C' & ? & _)])]; done.
    + apply bool_decide_eq_false in Hk. split; [done|].
      intros [[? _]|(_ & ? & _)]; done.
Qed.

(** X16. What is on the stack when the drain loop starts: a
    permutation of the top-level declarations that are kept, which are
    the included value declarations and the extensions, in an
    Objective-C header only the extensions of an included class that is
    not foreign; nothing has been written, imported or recorded in the
    ledger by then. *)
Theorem passStart_stack cfg σ0 :
  passStart cfg = Ok σ0 →
  declsToWrite σ0 ≡ₚ filteredTopLevelDecls cfg ∧
  (∀ D, D ∈ declsToWrite σ0 ↔
        D ∈ topLevelDecls cfg ∧ keptAtTopLevel cfg D) ∧
  os σ0 = [] ∧ imports σ0 = [] ∧ seenTypes σ0 = ∅ ∧
  delayedMembers σ0 = [].
Proof.
  unfold passStart. intros H.
  destruct (sortedTopLevelDecls cfg) as [sorted|] eqn:Es; [|done].
  destruct (recordStructExtensions cfg _) as [[[] σ]|] eqn:Er; [|done].
  injection H as <-.
  apply recordStructExtensions_same in Er
    as (Hos & Him & Hseen & _ & Hst & Hdm & _). simpl in *.
  apply sortedTopLevelDecls_Permutation in Es.
  split_and!; try done; [by rewrite Hst|].
  intros D. rewrite Hst, Es. unfold filteredTopLevelDecls, filteredDecls.
  rewrite list_elem_of_In, filter_In, <- list_elem_of_In.
  by rewrite negb_true_iff, removedFromTopLevel_kept.
Qed.

(** X17. A module none of whose top-level declarations is kept: the
    pass needs no iteration of the loop, and all it writes are the
    (empty) out-of-line definitions; nothing is imported and no
    standard-library dependency is noted. *)
Theorem write_nothing cfg fuel :
  filteredTopLevelDecls cfg = [] →
  ∃ σ, write cfg fuel = Some (Ok σ) ∧
       os σ = [OOutOfLineDefinitions] ∧ imports σ = [] ∧
       dependsOnStdlib σ = false ∧ declsToWrite σ = [] ∧ seenTypes σ = ∅.
Proof.
  intros Hf. unfold write, writeDecls, sortedDecls.
  change (filteredDecls cfg (topLevelDecls cfg))
    with (filteredTopLevelDecls cfg). rewrite Hf. simpl.
  unfold recordStructExtensions.
  destruct (bool_decide (outputLangMode cfg = Cxx)); simpl;
    destruct fuel; simpl; by eexists.
Qed.

(** ** The dependency finder *)

Lemma Ty_ind_nested (P : Ty → Prop) :
  (∀ d, P (NominalType d)) →
  (∀ d underlying, P underlying → P (TypeAliasType d underlying)) →
  (∀ d args, Forall P args → P (BoundGenericType d args)) →
  (∀ children, Forall P children → P (OtherType children)) →
  ∀ ty, P ty.
Proof.
  intros Hn Ha Hb Ho. fix IH 1. intros [d|d u|d args|cs].
  - apply Hn.
  - apply Ha, IH.
  - apply Hb. induction args as [|a args IHargs]; constructor;
      [apply IH|apply IHargs].
  - apply Ho. induction cs as [|c cs IHcs]; constructor;
      [apply IH|apply IHcs].
Qed.

Lemma walkTy_plain cfg ty :
  mentionsBoundGeneric ty = false →
  ∀ nd, (walkTy cfg ty nd).2 = nd ∧
        Forall (λ r, r.2 = nd) (walkTy cfg ty nd).1.
Proof.
  induction ty as [d|d u IH|d args _|cs IH] using Ty_ind_nested;
    simpl; intros Hm nd.
  - split; [done|]. by constructor.
  - destruct (_ && _); [|by apply IH].
    split; [done|]. by constructor.
  - done.
  - induction IH as [|c cs Hc _ IHcs]; simpl in *; [by split|].
    apply orb_false_iff in Hm as [Hm1 Hm2].
    destruct (Hc Hm1 nd) as [E1 F1]. rewrite E1.
    destruct (IHcs Hm2) as [E2 F2]. split; [done|].
    apply Forall_app. by split.
Qed.

(** X18. A full definition is demanded only through bound generic
    types: in the walk of a type in which no bound generic type occurs,
    every declaration is reported as needing only its name. *)
Theorem walk_plain_needs_name cfg ty D nd :
  mentionsBoundGeneric ty = false →
  (D, nd) ∈ ReferencedTypeFinder_walk cfg ty → nd = false.
Proof.
  intros Hm HD. destruct (walkTy_plain cfg ty Hm false) as [_ HF].
  rewrite Forall_forall in HF. by apply (HF (D, nd)).
Qed.

(** ** What is printed, and when *)

Lemma require_satisfied cfg D σ σ' :
  require cfg D σ = Ok (true, σ') → (stateOf σ' D).1 = Defined.
Proof. intros [(_ & _ & ?)|(? & _)]%require_schedule; done. Qed.

Lemma requireProtocols_satisfied cfg mustBeObjC protos acc σ σ' :
  requireProtocols cfg mustBeObjC protos acc σ = Ok (true, σ') →
  acc = true ∧
  ∀ P, P ∈ protos → shouldInclude (printer cfg) P = true →
       (stateOf σ' P).1 = Defined.
Proof.
  revert acc σ. induction protos as [|Q protos IH]; intros acc σ; simpl.
  - intros [= -> <-]. split; [done|]. by intros P ?%elem_of_nil.
  - destruct (shouldInclude (printer cfg) Q) eqn:Hi.
    + destruct (mustBeObjC && _); [done|]. intros H.
      apply bind_Ok in H as (ok & σ1 & E & H).
      pose proof (requireProtocols_advances _ _ _ _ _ _ _ H) as A.
      apply IH in H as [[-> ->]%andb_true_iff HP]. split; [done|].
      intros P [->|HP']%elem_of_cons Hinc; [|by apply HP].
      eapply extends_Defined; [apply A|]. by eapply require_satisfied.
    + intros H. apply IH in H as [-> HP]. split; [done|].
      intros P [->|HP']%elem_of_cons Hinc; [congruence|by apply HP].
Qed.

Lemma elem_of_included cfg P protos :
  P ∈ List.filter (shouldInclude (printer cfg)) protos ↔
  P ∈ protos ∧ shouldInclude (printer cfg) P = true.
Proof. by rewrite list_elem_of_In, filter_In, <- list_elem_of_In. Qed.

Section Printed.
Context (cfg : Config).

Lemma writeClass_printedBy CD σ b σ' :
  kind (decls cfg CD) = KClass →
  writeClass cfg CD σ = Ok (b, σ') → printedBy cfg CD σ σ'.
Proof.
  intros Hk H. unfold writeClass in H.
  apply bind_Ok in H as (imp & σ1 & E & H).
  pose proof (addImport_advances _ _ _ _ _ E) as A1.
  destruct imp.
  { run_W H. left. apply A1. }
  apply addImport_false in E as [Hl ->]; [|done].
  apply bind_Ok in H as (? & ? & [= <- <-] & H).
  destruct (bool_decide ((stateOf σ CD).1 = Defined)).
  { run_W H. by left. }
  apply bind_Ok in H as (sat1 & σ2 & E2 & H).
  apply bind_Ok in H as (sat2 & σ3 & E3 & H).
  assert (advances cfg σ σ2) as A2.
  { destruct (superclassDecl (decls cfg CD));
      [by eapply require_advances|by run_W E2]. }
  assert (advances cfg σ2 σ3) as A3.
  { destruct (negb _); [by eapply requireProtocols_advances|by run_W E3]. }
  destruct sat2; simpl in H; [|run_W H; left; by rewrite (adv_printed _ _ _ A3),
                                 (adv_printed _ _ _ A2)].
  apply bind_Ok in H as (ok & σ4 & E4 & H).
  pose proof (forwardDeclareMemberTypes_advances _ _ _ _ _ _ E4) as A4.
  run_W H. right. split_and!; [|done|].
  - rewrite !printedDecls_app. simpl. rewrite app_nil_r.
    unfold printedDecls at 1. simpl.
    change (omap printedDecl (os σ4)) with (printedDecls σ4).
    by rewrite (adv_printed _ _ _ A4), (adv_printed _ _ _ A3),
      (adv_printed _ _ _ A2).
  - intros R HR HlR. unfold requirementsOf in HR. rewrite Hk in HR.
    assert (sat1 = true ∧
            (bool_decide (outputLangMode cfg = Cxx) = false →
             ∀ P, P ∈ localProtocols (decls cfg CD) →
                  shouldInclude (printer cfg) P = true →
                  (stateOf σ3 P).1 = Defined)) as [-> Hprot].
    { destruct (bool_decide (outputLangMode cfg = Cxx)); simpl in E3.
      - run_W E3. by split.
      - apply requireProtocols_satisfied in E3 as [-> ?]. by split. }
    apply elem_of_app in HR as [HR|HR].
    + destruct (superclassDecl (decls cfg CD)) as [S|]; simpl in HR;
        [|by apply elem_of_nil in HR].
      apply list_elem_of_singleton in HR as ->.
      apply (adv_localDefined _ _ _ A2); [done|].
      by eapply require_satisfied.
    + destruct (bool_decide (outputLangMode cfg = Cxx));
        [by apply elem_of_nil in HR|].
      apply elem_of_included in HR as [HR Hinc].
      apply (adv_localDefined _ _ _ A2); [done|].
      apply (adv_localDefined _ _ _ A3); [done|]. by apply Hprot.
Qed.

Lemma writeProtocol_printedBy PD σ b σ' :
  kind (decls cfg PD) = KProtocol →
  writeProtocol cfg PD σ = Ok (b, σ') → printedBy cfg PD σ σ'.
Proof.
  intros Hk H. unfold writeProtocol in H.
  apply bind_Ok in H as (imp & σ1 & E & H).
  pose proof (addImport_advances _ _ _ _ _ E) as A1.
  destruct imp.
  { run_W H. left. apply A1. }
  apply addImport_false in E as [Hl ->]; [|done].
  apply bind_Ok in H as (? & ? & [= <- <-] & H).
  destruct (bool_decide ((stateOf σ PD).1 = Defined)).
  { run_W H. by left. }
  apply bind_Ok in H as (sat & σ2 & E2 & H).
  pose proof (requireProtocols_advances _ _ _ _ _ _ _ E2) as A2.
  destruct sat; simpl in H; [|run_W H; left; apply A2].
  apply bind_Ok in H as (ok & σ3 & E3 & H).
  pose proof (forwardDeclareMemberTypes_advances _ _ _ _ _ _ E3) as A3.
  destruct ok; simpl in H;
    [|run_W H; left; by rewrite (adv_printed _ _ _ A3),
                          (adv_printed _ _ _ A2)].
  run_W H. right. split_and!; [|done|].
  - rewrite !printedDecls_app. simpl. rewrite app_nil_r.
    unfold printedDecls at 1. simpl.
    change (omap printedDecl (os σ3)) with (printedDecls σ3).
    by rewrite (adv_printed _ _ _ A3), (adv_printed _ _ _ A2).
  - intros R HR HlR. unfold requirementsOf in HR. rewrite Hk in HR.
    apply elem_of_included in HR as [HR Hinc].
    apply requireProtocols_satisfied in E2 as [_ Hprot].
    apply (adv_localDefined _ _ _ A2); [done|]. by apply Hprot.
Qed.

Lemma writeExtension_printedBy ED σ b σ' :
  kind (decls cfg ED) = KExtension →
  writeExtension cfg ED σ = Ok (b, σ') → printedBy cfg ED σ σ'.
Proof.
  intros Hk H. unfold writeExtension in H.
  destruct (isEmptyExtensionDecl (printer cfg) ED).
  { run_W H. by left. }
  destruct (selfClassDecl (decls cfg ED)) as [CD|] eqn:Hself; [|done].
  apply bind_Ok in H as (sat1 & σ2 & E2 & H).
  apply bind_Ok in H as (sat2 & σ3 & E3 & H).
  pose proof (require_advances _ _ _ _ _ E2) as A2.
  pose proof (requireProtocols_advances _ _ _ _ _ _ _ E3) as A3.
  destruct sat2; simpl in H;
    [|run_W H; left; by rewrite (adv_printed _ _ _ A3),
                          (adv_printed _ _ _ A2)].
  apply bind_Ok in H as (ok & σ4 & E4 & H).
  pose proof (forwardDeclareMemberTypes_advances _ _ _ _ _ _ E4) as A4.
  destruct ok; simpl in H;
    [|run_W H; left; by rewrite (adv_printed _ _ _ A4),
                          (adv_printed _ _ _ A3), (adv_printed _ _ _ A2)].
  run_W H. right. split_and!; [|done|].
  - rewrite !printedDecls_app. simpl. rewrite app_nil_r.
    by rewrite (adv_printed _ _ _ A4), (adv_printed _ _ _ A3),
      (adv_printed _ _ _ A2).
  - intros R HR HlR. unfold requirementsOf in HR. rewrite Hk, Hself in HR.
    apply requireProtocols_satisfied in E3 as [-> Hprot].
    apply elem_of_app in HR as [HR|HR].
    + simpl in HR. apply list_elem_of_singleton in HR as ->.
      apply (adv_localDefined _ _ _ A2); [done|].
      by eapply require_satisfied.
    + apply elem_of_included in HR as [HR Hinc].
      apply (adv_localDefined _ _ _ A2); [done|].
      apply (adv_localDefined _ _ _ A3); [done|]. by apply Hprot.
Qed.

Lemma printedBy_plain D σ b σ' :
  requirementsOf cfg D = [] →
  (¬ isLocal cfg D → printedDecls σ' = printedDecls σ) →
  advances cfg σ σ' ∨ (b = true ∧ printsDecl cfg D σ σ') →
  printedBy cfg D σ σ'.
Proof.
  intros Hreq Hfor [A|[_ P]]; [left; apply A|].
  destruct (decide (moduleContext (decls cfg D) = M cfg)) as [Hl|Hl].
  - right. split_and!; [apply P|done|].
    rewrite Hreq. by intros R ?%elem_of_nil.
  - left. by apply Hfor.
Qed.

Lemma writeEnum_foreign ED σ b σ' :
  ¬ isLocal cfg ED → writeEnum cfg ED σ = Ok (b, σ') →
  printedDecls σ' = printedDecls σ.
Proof.
  intros Hl H. unfold writeEnum in H.
  apply bind_Ok in H as (imp & σ1 & E & H).
  pose proof (addImport_advances _ _ _ _ _ E) as A1.
  destruct imp; [run_W H; apply A1|].
  by apply addImport_false in E as [? _].
Qed.

Lemma writeStruct_foreign SD σ b σ' :
  ¬ isLocal cfg SD → writeStruct cfg SD σ = Ok (b, σ') →
  printedDecls σ' = printedDecls σ.
Proof.
  intros Hl H. unfold writeStruct in H.
  apply bind_Ok in H as (imp & σ1 & E & H).
  pose proof (addImport_advances _ _ _ _ _ E) as A1.
  destruct imp; [run_W H; apply A1|].
  by apply addImport_false in E as [? _].
Qed.

Lemma writeFunc_foreign FD σ b σ' :
  ¬ isLocal cfg FD → writeFunc cfg FD σ = Ok (b, σ') →
  printedDecls σ' = printedDecls σ.
Proof.
  intros Hl H. unfold writeFunc in H.
  apply bind_Ok in H as (imp & σ1 & E & H).
  pose proof (addImport_advances _ _ _ _ _ E) as A1.
  destruct imp; [run_W H; apply A1|].
  by apply addImport_false in E as [? _].
Qed.

Lemma writeDecl_printedBy D σ b σ' :
  writeDecl cfg D σ = Ok (b, σ') → printedBy cfg D σ σ'.
Proof.
  intros H. unfold writeDecl in H.
  destruct (kind (decls cfg D)) eqn:Hk.
  all: try (by eapply writeClass_printedBy).
  all: try (eapply printedBy_plain;
            [by unfold requirementsOf; rewrite Hk
            |intros ?; by eapply writeEnum_foreign
            |by eapply writeEnum_writes]).
  all: destruct (bool_decide (outputLangMode cfg = Cxx)) eqn:Emode;
    simpl in H.
  all: try (run_W H; by left).
  all: try (by eapply writeProtocol_printedBy).
  all: try (by eapply writeExtension_printedBy).
  all: try (eapply printedBy_plain;
            [by unfold requirementsOf; rewrite Hk
            |intros ?; by eapply writeStruct_foreign
            |by eapply writeStruct_writes]).
  all: try (eapply printedBy_plain;
            [by unfold requirementsOf; rewrite Hk
            |intros ?; by eapply writeFunc_foreign
            |by eapply writeFunc_writes]).
Qed.

End Printed.

Lemma snoc_split {A} (l1 : list A) x l2 p y :
  l1 ++ x :: l2 = p ++ [y] →
  (l2 = [] ∧ l1 = p ∧ x = y) ∨ (∃ l2', l2 = l2' ++ [y] ∧ p = l1 ++ x :: l2').
Proof.
  destruct l2 as [|z l2 _] using rev_ind.
  - intros H. apply app_inj_tail in H as [-> ->]. by left.
  - intros H. right. exists l2.
    change (x :: l2 ++ [z]) with ((x :: l2) ++ [z]) in H.
    rewrite app_assoc in H. apply app_inj_tail in H as [<- ->]. done.
Qed.

Lemma drainStep_printedBy cfg D σ σ1 :
  drainStep cfg D σ = Ok ((), σ1) →
  ∃ σ', printedBy cfg D σ σ' ∧ printedDecls σ1 = printedDecls σ'.
Proof.
  intros H. unfold drainStep in H.
  apply bind_Ok in H as (success & σ' & E & H).
  exists σ'. split; [by eapply writeDecl_printedBy|].
  destruct success; [|by run_W H].
  apply bind_Ok in H as (? & ? & [= <- <-] & H).
  destruct (unsnoc _) as [[front back]|]; [|done].
  destruct (bool_decide _); [|done]. run_W H.
  unfold printedDecls. simpl. rewrite omap_app. simpl.
  by rewrite app_nil_r.
Qed.

(** Every declaration in the output of the loop was printed by a call
    of its writer, in a state that satisfied the invariant of the
    loop. *)
Lemma drainSteps_printed cfg top (Q : list DeclId → DeclId → Prop) :
  (∀ σ D, PassInvariant cfg top σ →
          (kind (decls cfg D) ≠ KExtension → isLocal cfg D) →
          (∀ R, R ∈ requirementsOf cfg D → isLocal cfg R →
                (stateOf σ R).1 = Defined) →
          Q (printedDecls σ) D) →
  ∀ n σ0 σ,
    PassInvariant cfg top σ0 →
    (∀ l1 D l2, printedDecls σ0 = l1 ++ D :: l2 → Q l1 D) →
    drainSteps cfg n σ0 = Ok σ →
    ∀ l1 D l2, printedDecls σ = l1 ++ D :: l2 → Q l1 D.
Proof.
  intros Hstep. induction n as [|n IH]; intros σ0 σ Hinv H0; simpl.
  { by intros [= <-]. }
  destruct (unsnoc (declsToWrite σ0)) as [[front D']|] eqn:Eu;
    [|by intros [= <-]].
  destruct (drainStep cfg D' σ0) as [[[] σ1]|] eqn:E; [|done].
  destruct (drainStep_invariant _ _ _ _ _ _ Eu Hinv E) as [Hinv1 _].
  apply (IH σ1 σ Hinv1).
  apply drainStep_printedBy in E as (σ' & [Hsame|(Happ & Hloc & Hreq)] & ->).
  - by rewrite Hsame.
  - rewrite Happ. intros l1 D l2 Heq. symmetry in Heq.
    apply snoc_split in Heq as [(-> & -> & ->)|(l2' & -> & Heq)].
    + by apply Hstep.
    + by eapply H0.
Qed.

Lemma passState_printed cfg (Q : list DeclId → DeclId → Prop) n σ :
  (∀ top σ D, PassInvariant cfg top σ →
          (kind (decls cfg D) ≠ KExtension → isLocal cfg D) →
          (∀ R, R ∈ requirementsOf cfg D → isLocal cfg R →
                (stateOf σ R).1 = Defined) →
          Q (printedDecls σ) D) →
  passState cfg n = Ok σ →
  ∀ l1 D l2, printedDecls σ = l1 ++ D :: l2 → Q l1 D.
Proof.
  intros Hstep H. unfold passState in H.
  destruct (passStart cfg) as [σ0|] eqn:Es; [|done].
  pose proof (passStart_invariant _ _ Es) as (top & _ & Hinv).
  apply (drainSteps_printed cfg top Q (Hstep top) n σ0 σ Hinv); [|done].
  assert (os σ0 = []) as Hos.
  { unfold passStart in Es.
    destruct (sortedTopLevelDecls cfg) as [sorted|]; [|done].
    destruct (recordStructExtensions cfg _) as [[[] σa]|] eqn:Er; [|done].
    injection Es as <-.
    by apply recordStructExtensions_same in Er as (-> & _). }
  unfold printedDecls. rewrite Hos. simpl. intros l1 D l2 Heq.
  by destruct l1.
Qed.

(** X19. No declaration of another module is ever printed: in the
    output of a pass that completes, every printed declaration other
    than an extension belongs to the module that is being emitted. *)
Theorem write_prints_local cfg fuel σ D :
  write cfg fuel = Some (Ok σ) →
  D ∈ printedDecls σ → kind (decls cfg D) ≠ KExtension →
  moduleContext (decls cfg D) = M cfg.
Proof.
  intros Hw HD Hk.
  apply write_passState in Hw as (σ1 & Hpass & _ & Hprinted & _).
  rewrite Hprinted in HD. apply list_elem_of_split in HD as (l1 & l2 & Heq).
  apply (passState_printed cfg
           (λ _ D, kind (decls cfg D) ≠ KExtension → isLocal cfg D)
           fuel σ1 ltac:(auto) Hpass l1 D l2 Heq Hk).
Qed.

(** X20. The output respects the order of requirements: in the output
    of a pass that completes, a class comes after its local superclass
    and, in an Objective-C header, after the local protocols it adopts;
    a protocol comes after the local protocols it inherits; an
    extension comes after its local class and the local protocols it
    adopts (protocols counted when the printer includes them). *)
Theorem write_dependency_order cfg fuel σ l1 D l2 R :
  write cfg fuel = Some (Ok σ) →
  printedDecls σ = l1 ++ D :: l2 →
  R ∈ requirementsOf cfg D →
  moduleContext (decls cfg R) = M cfg →
  isLedgerKind (kind (decls cfg R)) = true →
  R ∈ l1.
Proof.
  intros Hw Heq HR Hl Hk.
  apply write_passState in Hw as (σ1 & Hpass & _ & Hprinted & _).
  rewrite Hprinted in Heq.
  assert (∀ top σ0 D0, PassInvariant cfg top σ0 →
            (kind (decls cfg D0) ≠ KExtension → isLocal cfg D0) →
            (∀ R, R ∈ requirementsOf cfg D0 → isLocal cfg R →
                  (stateOf σ0 R).1 = Defined) →
            ∀ R, R ∈ requirementsOf cfg D0 → isLocal cfg R →
                 isLedgerKind (kind (decls cfg R)) = true →
                 R ∈ printedDecls σ0) as Hstep.
  { intros top σ0 D0 Hinv _ Hreq R0 HR0 Hl0 Hk0.
    apply (inv_defined_printed _ _ _ Hinv); auto. }
  exact (passState_printed cfg
           (λ l1 D, ∀ R, R ∈ requirementsOf cfg D → isLocal cfg R →
                         isLedgerKind (kind (decls cfg R)) = true → R ∈ l1)
           fuel σ1 Hstep Hpass l1 D l2 Heq R HR Hl Hk).
Qed.

(** ** Where imports and delayed members come from *)

Section PassFrame.
Context (cfg : Config) (R : relation ModuleWriter) `{!PreOrder R}.
Context (R_frame : ∀ σ σ', imports σ' = imports σ →
                           delayedMembers σ' = delayedMembers σ → R σ σ').
Context (R_addImport : ∀ D, preserves R (addImport cfg D)).
Context (R_delay : ∀ σ m, delayableMember cfg m →
                          R σ (with_delayedMembers (set_insert m) σ)).

Ltac frame_step :=
  first
    [ solve [auto 1]
    | apply R_addImport
    | apply (preserves_ret R)
    | apply preserves_abort
    | apply (preserves_get R)
    | apply (preserves_bind R); [|intros ?]
    | apply (preserves_forEach R); intros ?
    | apply (preserves_modify R); intros ?; by apply R_frame
    | match goal with
      | |- preserves _ (if ?b then _ else _) => destruct b eqn:?
      | |- preserves _ (match ?x with _ => _ end) => destruct x eqn:?
      end ].

Lemma tryRequire_frame D : preserves R (tryRequire cfg D).
Proof. unfold tryRequire, setSeen. repeat frame_step. Qed.

Lemma require_frame D : preserves R (require cfg D).
Proof. unfold require, setSeen. repeat frame_step. Qed.

Lemma forwardDeclare_frame NTD Printer :
  preserves R (forwardDeclare cfg NTD Printer).
Proof. unfold forwardDeclare, emit, setSeen. repeat frame_step. Qed.

Lemma forwardDeclareType_frame_R TD : preserves R (forwardDeclareType cfg TD).
Proof.
  pose proof forwardDeclare_frame.
  unfold forwardDeclareType, forwardDeclareClass, forwardDeclareProtocol,
    forwardDeclareEnum, forwardDeclareCxxValueTypeIfNeeded,
    emitReferencedClangTypeMetadata, emit.
  repeat frame_step; auto.
Qed.

Lemma memberTypeCallback_frame container fl nd TD :
  preserves R (memberTypeCallback cfg container fl nd TD).
Proof.
  pose proof forwardDeclareType_frame_R. pose proof tryRequire_frame.
  pose proof require_frame.
  unfold memberTypeCallback. cbv zeta. repeat frame_step; auto.
Qed.

Lemma walkCallbacks_frame container reports fl :
  preserves R (walkCallbacks cfg container reports fl).
Proof.
  revert fl. induction reports as [|[TD nd] reports IH]; intros fl; simpl.
  - frame_step.
  - apply (preserves_bind R); [apply memberTypeCallback_frame|intros ?].
    apply IH.
Qed.

Lemma forMembers_frame ms container hadAny nested :
  (kind (decls cfg container) = KClass →
   ∀ m, m ∈ ms → m ∈ members (decls cfg container)) →
  preserves R (forMembers cfg ms container hadAny nested).
Proof.
  revert hadAny nested.
  induction ms as [|member ms IH]; intros hadAny nested Hsub;
    simpl.
  - frame_step.
  - assert (kind (decls cfg container) = KClass →
            ∀ m, m ∈ ms → m ∈ members (decls cfg container))
      as Hsub' by (intros Hk m Hm; apply Hsub; [done|by right]).
    destruct (negb (isValueDecl _) || negb (shouldInclude _ _)) eqn:Hvi;
      [by apply IH|].
    apply orb_false_iff in Hvi as [Hv%negb_false_iff Hi%negb_false_iff].
    destruct (isTypeDecl _) eqn:Ht; [by apply IH|].
    apply (preserves_bind R); [apply walkCallbacks_frame|intros fl].
    apply (preserves_bind R); [|intros ?; by apply IH].
    destruct (needsToBeIndividuallyDelayed fl); [|frame_step].
    destruct (bool_decide _) eqn:Hk; [|frame_step].
    apply bool_decide_eq_true in Hk.
    apply (preserves_modify R). intros σ. apply R_delay.
    exists container. split_and!; try done. apply Hsub; [done|by left].
Qed.

Lemma forwardDeclareMemberTypes_frame ms container :
  (kind (decls cfg container) = KClass →
   ∀ m, m ∈ ms → m ∈ members (decls cfg container)) →
  preserves R (forwardDeclareMemberTypes cfg ms container).
Proof.
  intros Hsub. unfold forwardDeclareMemberTypes, insertBeforeBack.
  pose proof (λ h n, forMembers_frame ms container h n Hsub).
  repeat frame_step; auto.
Qed.

Lemma requireProtocols_frame mustBeObjC protos acc :
  preserves R (requireProtocols cfg mustBeObjC protos acc).
Proof.
  revert acc. induction protos as [|P protos IH]; intros acc; simpl.
  - frame_step.
  - pose proof require_frame. repeat frame_step; auto.
Qed.

Lemma writeDecl_frame D : preserves R (writeDecl cfg D).
Proof.
  pose proof require_frame. pose proof requireProtocols_frame.
  pose proof forwardDeclareType_frame_R.
  pose proof forwardDeclare_frame.
  assert (∀ D', preserves R
            (forwardDeclareMemberTypes cfg (members (decls cfg D')) D'))
    as Hown by (intros D'; by apply forwardDeclareMemberTypes_frame).
  unfold writeDecl. destruct (kind (decls cfg D)) eqn:Hk.
  all: unfold writeEnum, writeClass, writeFunc, writeStruct, writeProtocol,
         writeExtension, forwardDeclareCxxValueTypeIfNeeded, emit, setSeen.
  all: repeat frame_step; auto.
  all: apply forwardDeclareMemberTypes_frame; congruence.
Qed.

Lemma drainSteps_frame n σ σ' : drainSteps cfg n σ = Ok σ' → R σ σ'.
Proof.
  revert σ. induction n as [|n IH]; intros σ; simpl.
  { intros [= <-]. reflexivity. }
  destruct (unsnoc (declsToWrite σ)) as [[front D]|];
    [|intros [= <-]; reflexivity].
  destruct (drainStep cfg D σ) as [[[] σ1]|] eqn:E; [|done].
  intros H. etrans; [|by apply IH].
  revert E. pose proof writeDecl_frame.
  unfold drainStep, emit. repeat frame_step; auto.
Qed.

Lemma write_frame fuel σ :
  write cfg fuel = Some (Ok σ) → R initialWriter σ.
Proof.
  unfold write, writeDecls.
  destruct (sortedDecls cfg (topLevelDecls cfg)) as [sorted|]; [|done].
  destruct (recordStructExtensions cfg _) as [[[] σ0]|] eqn:Er; [|done].
  destruct (drain cfg fuel σ0) as [[σ1|]|] eqn:Ed; [|done..].
  destruct (finishWrite cfg σ1) as [[[] σ2]|] eqn:Ef; [|done].
  intros [= <-].
  apply recordStructExtensions_same in Er as (_ & Hi & _ & _ & _ & Hd & _).
  apply drain_drainSteps in Ed as [Ed _]. apply drainSteps_frame in Ed.
  etrans; [by apply R_frame|]. etrans; [exact Ed|].
  revert Ef. unfold finishWrite, printDelayedMembers, emit.
  repeat frame_step.
Qed.

End PassFrame.

#[local] Instance provenance_preorder cfg : PreOrder (provenance cfg).
Proof.
  split.
  - intros σ. split; auto.
  - intros σ1 σ2 σ3 [Hi1 Hd1] [Hi2 Hd2]. split.
    + intros i Hi. destruct (Hi2 i Hi); auto.
    + intros m Hm. destruct (Hd2 m Hm); auto.
Qed.

Lemma nearestExplicitModule_explicit c c' :
  nearestExplicitModule c = Some c' → cmIsExplicit c' = true.
Proof.
  induction c as [name e|name e parent IH]; simpl.
  - destruct e; [|done]. by intros [= <-].
  - destruct e; [by intros [= <-]|]. apply IH.
Qed.

Lemma provenance_frame cfg σ σ' :
  imports σ' = imports σ → delayedMembers σ' = delayedMembers σ →
  provenance cfg σ σ'.
Proof. intros Hi Hd. split; intros x; rewrite ?Hi, ?Hd; auto. Qed.

Lemma addImport_provenance cfg D :
  preserves (provenance cfg) (addImport cfg D).
Proof.
  intros σ b σ' H. unfold addImport in H.
  destruct (bool_decide (moduleContext (decls cfg D) = M cfg)) eqn:Hm;
    [run_W H; reflexivity|].
  apply bool_decide_eq_false in Hm.
  destruct (isStdlibModule _) eqn:Hs;
    [run_W H; by apply provenance_frame|].
  destruct (isBuiltinModule _) eqn:Hb; [run_W H; reflexivity|].
  destruct (bool_decide (modName _ = _)) eqn:Hsimd; [run_W H; reflexivity|].
  apply bool_decide_eq_false in Hsimd.
  destruct (match clangNode (decls cfg D) with
            | Some (Some c) => nearestExplicitModule c
            | _ => None
            end) as [c|] eqn:Hc.
  - run_W H. split; [|by left]. simpl. intros i [->|?]%elem_of_set_insert;
      [right|by left]. simpl.
    destruct (clangNode (decls cfg D)) as [[c0|]|]; try done.
    by eapply nearestExplicitModule_explicit.
  - destruct (_ && _) eqn:Hcxx; [run_W H; reflexivity|].
    run_W H. split; [|by left]. simpl. intros i [->|?]%elem_of_set_insert;
      [right|by left]. simpl. split_and!; try done.
    intros Hmode. rewrite bool_decide_eq_true_2 in Hcxx by done.
    simpl in Hcxx. apply orb_false_iff in Hcxx as [_ Hn].
    by apply bool_decide_eq_false in Hn.
Qed.

Lemma provenance_delay cfg σ m :
  delayableMember cfg m →
  provenance cfg σ (with_delayedMembers (set_insert m) σ).
Proof.
  intros Hm. split; [by left|]. simpl.
  intros m' [->|?]%elem_of_set_insert; [by right|by left].
Qed.

Lemma write_provenance cfg fuel σ :
  write cfg fuel = Some (Ok σ) → provenance cfg initialWriter σ.
Proof.
  apply (write_frame cfg (provenance cfg)).
  - apply provenance_frame.
  - apply addImport_provenance.
  - apply provenance_delay.
Qed.

(** X21. What a pass imports: every entry of the import set after a
    pass that completes is an explicit Clang module, or a Swift module
    other than the module that is emitted, the standard library,
    [Builtin] and [simd], and in a C++ header other than the Clang
    header module as well. *)
Theorem write_imports cfg fuel σ i :
  write cfg fuel = Some (Ok σ) → i ∈ imports σ → allowedImport cfg i.
Proof.
  intros [Hi _]%write_provenance Hin.
  destruct (Hi i Hin) as [Hn|?]; [|done]. by apply elem_of_nil in Hn.
Qed.

(** X22. Only members of classes are delayed individually: every member
    handed to [printAdHocCategory] after a pass that completes is an
    included value member of a class, and not a type. *)
Theorem write_delayedMembers cfg fuel σ m :
  write cfg fuel = Some (Ok σ) → m ∈ delayedMembers σ →
  delayableMember cfg m.
Proof.
  intros [_ Hd]%write_provenance Hin.
  destruct (Hd m Hin) as [Hn|?]; [|done]. by apply elem_of_nil in Hn.
Qed.

(** ** Members of classes that are delayed *)

Lemma tryRequire_true cfg D σ σ' :
  tryRequire cfg D σ = Ok (true, σ') → (stateOf σ' D).1 = Defined.
Proof.
  intros H. unfold tryRequire in H.
  apply bind_Ok in H as (imp & σ1 & E & H). destruct imp; run_W H.
  - unfold stateOf. simpl. by rewrite lookup_insert_eq.
  - by apply bool_decide_eq_true in H.
Qed.

Section ClassMembers.
Context (cfg : Config) (container : DeclId).
Context (Hclass : kind (decls cfg container) = KClass).

Lemma memberTypeCallback_class fl nd TD σ fl' σ' :
  memberTypeCallback cfg container fl nd TD σ = Ok (fl', σ') →
  (needsToBeIndividuallyDelayed fl = true →
   needsToBeIndividuallyDelayed fl' = true) ∧
  (hadAnyDelayedMembers fl = true → hadAnyDelayedMembers fl' = true) ∧
  (nd = true → TD ≠ container →
   isNominalTypeDecl (kind (decls cfg (bridged cfg TD))) = true →
   (stateOf σ' (bridged cfg TD)).1 ≠ Defined →
   needsToBeIndividuallyDelayed fl' = true ∧
   hadAnyDelayedMembers fl' = true).
Proof.
  unfold memberTypeCallback.
  destruct (bool_decide (TD = container)) eqn:Eq.
  { apply bool_decide_eq_true in Eq. intros [= <- <-]. by split_and!. }
  cbv zeta.
  change (if negb (bool_decide (outputLangMode cfg = Cxx))
          then getObjCTypeDecl (printer cfg) TD else TD) with (bridged cfg TD).
  destruct nd; simpl.
  - destruct (isNominalTypeDecl _) eqn:Hn.
    + rewrite Hclass. intros H. apply bind_Ok in H as (ok & σ1 & E & H).
      run_W H. destruct ok.
      * split_and!; try done. intros _ _ _ Hnd.
        by apply tryRequire_true in E.
      * by split_and!.
    + intros H. apply bind_Ok in H as (? & σ1 & E & H). run_W H.
      by split_and!.
  - intros H. apply bind_Ok in H as (? & σ1 & E & H). run_W H.
    by split_and!.
Qed.

Lemma walkCallbacks_class reports fl σ fl' σ' :
  walkCallbacks cfg container reports fl σ = Ok (fl', σ') →
  (needsToBeIndividuallyDelayed fl = true →
   needsToBeIndividuallyDelayed fl' = true) ∧
  (hadAnyDelayedMembers fl = true → hadAnyDelayedMembers fl' = true) ∧
  (∀ TD, (TD, true) ∈ reports → TD ≠ container →
     isNominalTypeDecl (kind (decls cfg (bridged cfg TD))) = true →
     (stateOf σ' (bridged cfg TD)).1 ≠ Defined →
     needsToBeIndividuallyDelayed fl' = true ∧
     hadAnyDelayedMembers fl' = true).
Proof.
  revert fl σ. induction reports as [|[TD0 nd] reports IH]; intros fl σ;
    simpl.
  - intros [= <- <-]. split_and!; try done. by intros TD ?%elem_of_nil.
  - intros H. apply bind_Ok in H as (fl1 & σ1 & E & H).
    pose proof (walkCallbacks_advances _ _ _ _ _ _ _ H) as A.
    apply memberTypeCallback_class in E as (Hn1 & Ha1 & Hd1).
    apply IH in H as (Hn2 & Ha2 & Hd2).
    split_and!; [auto..|].
    intros TD [[= <- <-]|Hin]%elem_of_cons Hne Hnom Hnd;
      [|by apply (Hd2 TD)].
    destruct Hd1 as [? ?]; auto.
    intros Hdef. apply Hnd. eapply extends_Defined; [apply A|done].
Qed.

Lemma forMembers_class members hadAny nested σ r σ' :
  forMembers cfg members container hadAny nested σ = Ok (r, σ') →
  (hadAny = true → r.1 = true) ∧
  ∀ member TD,
    member ∈ members →
    isValueDecl (kind (decls cfg member)) = true →
    shouldInclude (printer cfg) member = true →
    isTypeDecl (kind (decls cfg member)) = false →
    (TD, true) ∈ ReferencedTypeFinder_walk cfg
                   (interfaceType (decls cfg member)) →
    TD ≠ container →
    isNominalTypeDecl (kind (decls cfg (bridged cfg TD))) = true →
    (stateOf σ' (bridged cfg TD)).1 ≠ Defined →
    member ∈ delayedMembers σ' ∧ r.1 = true.
Proof.
  revert hadAny nested σ.
  induction members as [|m members IH]; intros hadAny nested σ; simpl.
  - intros [= <- <-]. split; [done|]. by intros member TD ?%elem_of_nil.
  - destruct (negb (isValueDecl _) || negb (shouldInclude _ _)) eqn:Hvi.
    { intros H. apply IH in H as [Hany Hd]. split; [done|].
      intros member TD [->|Hin]%elem_of_cons Hv Hi; [|by apply (Hd member TD)].
      by rewrite Hv, Hi in Hvi. }
    destruct (isTypeDecl _) eqn:Ht.
    { intros H. apply IH in H as [Hany Hd]. split; [done|].
      intros member TD [->|Hin]%elem_of_cons Hv Hi Ht';
        [|by apply (Hd member TD)].
      congruence. }
    intros H. apply bind_Ok in H as (fl & σ1 & E & H).
    apply bind_Ok in H as (? & σ2 & E2 & H).
    pose proof (forMembers_advances _ _ _ _ _ _ _ _ H) as A.
    apply walkCallbacks_class in E as (_ & Ha & Hd1). simpl in Ha.
    apply IH in H as [Hany Hd]. split; [auto|].
    intros member TD [->|Hin]%elem_of_cons Hv Hi Ht' Hw Hne Hnom Hnd;
      [|by apply (Hd member TD)].
    assert ((stateOf σ1 (bridged cfg TD)).1 ≠ Defined) as Hnd1.
    { intros Hdef. apply Hnd. eapply extends_Defined; [apply A|].
      destruct (needsToBeIndividuallyDelayed fl);
        [destruct (bool_decide _)|]; by run_W E2. }
    destruct (Hd1 TD Hw Hne Hnom Hnd1) as [Efl Eany].
    rewrite Efl in E2. rewrite bool_decide_eq_true_2 in E2 by done.
    run_W E2. split; [|auto].
    apply (ext_delayedMembers _ _ (adv_extends _ _ _ A)). simpl.
    apply elem_of_set_insert. by left.
Qed.

End ClassMembers.

(** X23. A member of a class is delayed rather than the class: when a
    member of the class (an included value member that is no type)
    mentions, where a full definition is needed, a nominal type other
    than the class that is still not [Defined] when
    [forwardDeclareMemberTypes] returns, that member is among the
    delayed members, and the call reports that members were delayed. *)
Theorem forwardDeclareMemberTypes_delays cfg members CD σ b σ' member TD :
  kind (decls cfg CD) = KClass →
  forwardDeclareMemberTypes cfg members CD σ = Ok (b, σ') →
  member ∈ members →
  isValueDecl (kind (decls cfg member)) = true →
  shouldInclude (printer cfg) member = true →
  isTypeDecl (kind (decls cfg member)) = false →
  (TD, true) ∈ ReferencedTypeFinder_walk cfg
                 (interfaceType (decls cfg member)) →
  TD ≠ CD →
  isNominalTypeDecl (kind (decls cfg (bridged cfg TD))) = true →
  (stateOf σ' (bridged cfg TD)).1 ≠ Defined →
  member ∈ delayedMembers σ' ∧ b = false.
Proof.
  intros Hk H Hin Hv Hi Ht Hw Hne Hnom Hnd.
  unfold forwardDeclareMemberTypes in H.
  destruct (negb _); [done|].
  apply bind_Ok in H as (r & σ1 & E & H).
  apply bind_Ok in H as (? & σ2 & E2 & H). run_W H.
  assert (delayedMembers σ' = delayedMembers σ1 ∧
          ∀ D, stateOf σ' D = stateOf σ1 D) as [Hdm Hs].
  { unfold insertBeforeBack in E2.
    apply bind_Ok in E2 as (? & ? & [= <- <-] & E2).
    destruct (unsnoc _) as [[front back]|]; by run_W E2. }
  rewrite Hs in Hnd.
  destruct (forMembers_class cfg CD Hk _ _ _ _ _ _ E) as [_ Hd].
  destruct (Hd member TD Hin Hv Hi Ht Hw Hne Hnom Hnd) as [? ->].
  by rewrite Hdm.
Qed.

(** ** When [forwardDeclareType] can be called *)

Lemma forwardDeclare_Ok cfg NTD Printer σ :
  ∃ σ', forwardDeclare cfg NTD Printer σ = Ok ((), σ').
Proof.
  unfold forwardDeclare, bind, get, emit, setSeen, modify.
  destruct (_ && _); [by eexists|].
  destruct (stateOf σ NTD).2; by eexists.
Qed.

Lemma addImport_result cfg D σ :
  ∃ σ', addImport cfg D σ =
        Ok (negb (bool_decide (moduleContext (decls cfg D) = M cfg)), σ').
Proof.
  unfold addImport. destruct (bool_decide _); simpl; [by eexists|].
  repeat case_match; by eexists.
Qed.

(** X24. Whether [forwardDeclareType] returns depends on the
    declaration alone, not on the writer. In a C++ header it always
    returns. In an Objective-C header it returns for every class; for a
    protocol that is [@objc] or the [Error] protocol; for a type alias
    that is not generic or is imported with a Clang node; for any other
    declaration of another module; for a local enum that is [@objc] or
    has a Clang node; and for a local struct of the standard library.
    In every other case an assertion fails. *)
Theorem forwardDeclareType_defined cfg TD σ :
  (∃ σ', forwardDeclareType cfg TD σ = Ok ((), σ')) ↔
  (outputLangMode cfg = Cxx ∨
   let d := decls cfg TD in
   let foreign := moduleContext d ≠ M cfg in
   match kind d with
   | KClass => True
   | KProtocol => isObjC d = true ∨ isErrorProtocol d = true
   | KTypeAlias =>
       (hasClangNode d = true ∧ foreign) ∨ isGeneric d = false
   | KEnum => foreign ∨ isObjC d = true ∨ hasClangNode d = true
   | KStruct => foreign ∨ isStdlibModule (moduleContext d) = true
   | _ => foreign
   end).
Proof.
  unfold forwardDeclareType.
  destruct (bool_decide (outputLangMode cfg = Cxx)) eqn:Emode.
  { apply bool_decide_eq_true in Emode. split; [by left|]. intros _.
    destruct (_ || _); [|by eexists].
    unfold bind. destruct (addImport_Ok cfg TD σ) as (imp & σ1 & ->).
    destruct imp; simpl.
    - destruct (_ && _); [|by eexists].
      unfold emitReferencedClangTypeMetadata, bind, get, emit, modify.
      destruct (bool_decide _); by eexists.
    - apply forwardDeclare_Ok. }
  apply bool_decide_eq_false in Emode.
  assert (∀ P : Prop, (outputLangMode cfg = Cxx ∨ P) ↔ P) as Hor
    by (intros P; tauto).
  rewrite Hor. cbv zeta.
  destruct (addImport_result cfg TD σ) as (σi & Ei).
  destruct (bool_decide (moduleContext (decls cfg TD) = M cfg)) eqn:El;
    [apply bool_decide_eq_true in El|apply bool_decide_eq_false in El];
    simpl in Ei.
  all: destruct (kind (decls cfg TD)) eqn:Hk.
  all: unfold bind, forwardDeclareClass, forwardDeclareProtocol,
         forwardDeclareEnum; rewrite ?Ei; simpl.
  all: try (split; [by intros [? ?]|]; by intros ?).
  all: try (split; [by intros _|]; intros _; by eexists).
  all: try (destruct (_ || _ || _); simpl; rewrite ?Ei;
            [split; [done|]; intros _; by eexists|];
            split; [done|]; intros _;
            destruct (forwardDeclare_Ok cfg TD
                        [OStr "@class "; ONameForObjC TD; OStr (";" +:+ endl)]
                        σ) as [σ' ->]; by eexists).
  all: try (destruct (isObjC (decls cfg TD)),
                     (isErrorProtocol (decls cfg TD)); simpl;
            try (split; [by intros [? ?]|]; by intros [?|?]);
            (split; [auto|]; intros _; apply forwardDeclare_Ok)).
  all: try (destruct (isObjC (decls cfg TD)),
                     (hasClangNode (decls cfg TD)); simpl;
            try (split; [by intros [? ?]|]; by intros [?|[?|?]]);
            (split; [auto|]; intros _; apply forwardDeclare_Ok)).
  all: try (destruct (isStdlibModule _); simpl;
            [split; [auto|]; intros _; by eexists
            |split; [by intros [? ?]|]; by intros [?|?]]).
  all: try (destruct (hasClangNode (decls cfg TD)); rewrite ?Ei; simpl;
            destruct (isGeneric (decls cfg TD)); simpl;
            try (split; [by intros [? ?]|]; by intros [[? ?]|?]);
            (split; [auto|]; intros _; by eexists)).
  all: split; [done|]; intros _.
  all: destruct (_ || _ || _); unfold ret, bind; simpl;
    [rewrite Ei; by eexists|].
  all: destruct (forwardDeclare_Ok cfg TD
                   [OStr "@class "; ONameForObjC TD; OStr (";" +:+ endl)] σ)
         as [σ' E]; unfold bind in E; rewrite E; by eexists.
Qed.

(** ** Containers that are delayed wholesale *)

#[local] Instance sameDelayed_preorder :
  PreOrder (λ σ σ' : ModuleWriter, delayedMembers σ' = delayedMembers σ).
Proof. split; [done|]. intros σ1 σ2 σ3 H1 H2. congruence. Qed.

Lemma addImport_sameDelayed cfg D :
  preserves (λ σ σ', delayedMembers σ' = delayedMembers σ) (addImport cfg D).
Proof.
  intros σ b σ' H. unfold addImport in H.
  repeat (case_match; run_W H); done.
Qed.

Section Wholesale.
Context (cfg : Config) (container : DeclId).
Context (Hkind : kind (decls cfg container) ≠ KClass).

Lemma memberTypeCallback_wholesale fl nd TD σ fl' σ' :
  memberTypeCallback cfg container fl nd TD σ = Ok (fl', σ') →
  needsToBeIndividuallyDelayed fl' = needsToBeIndividuallyDelayed fl.
Proof.
  unfold memberTypeCallback.
  destruct (bool_decide (TD = container)); [by intros [= <- <-]|].
  cbv zeta. intros H.
  repeat (case_match; try done;
          try (apply bind_Ok in H as (? & ? & ? & H)); run_W H); done.
Qed.

Lemma walkCallbacks_wholesale reports fl σ fl' σ' :
  walkCallbacks cfg container reports fl σ = Ok (fl', σ') →
  needsToBeIndividuallyDelayed fl' = needsToBeIndividuallyDelayed fl.
Proof.
  revert fl σ. induction reports as [|[TD nd] reports IH]; intros fl σ;
    simpl.
  - by intros [= <- <-].
  - intros H. apply bind_Ok in H as (fl1 & σ1 & E & H).
    apply memberTypeCallback_wholesale in E. apply IH in H. congruence.
Qed.

Lemma forMembers_wholesale members hadAny nested σ r σ' :
  forMembers cfg members container hadAny nested σ = Ok (r, σ') →
  delayedMembers σ' = delayedMembers σ.
Proof.
  revert hadAny nested σ.
  induction members as [|m members IH]; intros hadAny nested σ; simpl.
  - by intros [= <- <-].
  - destruct (_ || _); [apply IH|].
    destruct (isTypeDecl _); [apply IH|].
    intros H. apply bind_Ok in H as (fl & σ1 & E & H).
    apply bind_Ok in H as (? & σ2 & E2 & H).
    apply walkCallbacks_wholesale in E as Hfl. simpl in Hfl.
    rewrite Hfl in E2. run_W E2. apply IH in H. rewrite H.
    revert E.
    apply (walkCallbacks_frame cfg
             (λ σ σ', delayedMembers σ' = delayedMembers σ)).
    + by intros.
    + apply addImport_sameDelayed.
Qed.

End Wholesale.

(** X25. A container that is not a class is delayed wholesale, never
    member by member: [forwardDeclareMemberTypes] leaves the delayed
    members as they are (so the assertion that only members of classes
    are delayed individually holds), and it answers [true] exactly when
    [require] pushed nothing, that is when the stack grew by the nested
    types alone; for a struct or an enum it always does. *)
Theorem forwardDeclareMemberTypes_wholesale cfg members container σ b σ' :
  kind (decls cfg container) ≠ KClass →
  forwardDeclareMemberTypes cfg members container σ = Ok (b, σ') →
  delayedMembers σ' = delayedMembers σ ∧
  (b = true ↔
   length (declsToWrite σ') =
   length (declsToWrite σ) + length (scheduledNestedTypes cfg members)) ∧
  (kind (decls cfg container) ≠ KProtocol →
   kind (decls cfg container) ≠ KExtension → b = true).
Proof.
  intros Hk H.
  pose proof (forwardDeclareMemberTypes_schedule _ _ _ _ _ _ H)
    as (pushed & front & back & Hfb & Hst & _ & _ & Hnone & Hb).
  specialize (Hb Hk). split_and!.
  - unfold forwardDeclareMemberTypes in H. destruct (negb _); [done|].
    apply bind_Ok in H as (r & σ1 & E & H).
    apply bind_Ok in H as (? & σ2 & E2 & H). run_W H.
    apply forMembers_wholesale in E; [|done]. rewrite <- E.
    unfold insertBeforeBack in E2.
    apply bind_Ok in E2 as (? & ? & [= <- <-] & E2).
    destruct (unsnoc _) as [[f k]|]; by run_W E2.
  - apply (f_equal length) in Hfb. rewrite !length_app in Hfb.
    simpl in Hfb. rewrite Hst, !length_app, length_rev. simpl.
    rewrite Hb. rewrite bool_decide_eq_true. split.
    + intros ->. simpl in Hfb. lia.
    + intros Hlen. destruct pushed; [done|]. simpl in Hfb. lia.
  - intros Hp He. rewrite Hb, (Hnone Hp He). done.
Qed.

(** ** Requests are delivered *)

Section ScheduleFrame.
Context (cfg : Config) (R : relation ModuleWriter) `{!PreOrder R}.
Context (R_same : ∀ σ σ', sameSchedule σ σ' → R σ σ').
Context (R_require : ∀ D, preserves R (require cfg D)).
Context (R_tryRequire : ∀ D, preserves R (tryRequire cfg D)).
Context (R_insert : ∀ σ front back xs,
           unsnoc (declsToWrite σ) = Some (front, back) →
           R σ (with_declsToWrite (λ _, front ++ xs ++ [back]) σ)).
Context (R_defined : ∀ σ D, R σ (with_seenTypes (insert D (Defined, true)) σ)).

Lemma addImport_sched D : preserves R (addImport cfg D).
Proof. intros σ b σ' H. by apply R_same, (addImport_sameSchedule cfg D σ b). Qed.

Lemma forwardDeclareType_sched TD : preserves R (forwardDeclareType cfg TD).
Proof.
  intros σ b σ' H. by apply R_same, (forwardDeclareType_sameSchedule cfg TD σ b).
Qed.

Lemma forwardDeclareCxx_sched NTD :
  preserves R (forwardDeclareCxxValueTypeIfNeeded cfg NTD).
Proof.
  intros σ b σ' H.
  by apply R_same, (forwardDeclareCxxValueTypeIfNeeded_sameSchedule cfg NTD σ b).
Qed.

Ltac sched_frame_step :=
  first
    [ solve [auto 1]
    | apply addImport_sched
    | apply forwardDeclareType_sched
    | apply forwardDeclareCxx_sched
    | apply (preserves_ret R)
    | apply preserves_abort
    | apply (preserves_get R)
    | apply (preserves_bind R); [|intros ?]
    | apply (preserves_forEach R); intros ?
    | apply (preserves_modify R); intros ?;
      first [ apply R_defined | apply R_same; by split ]
    | match goal with
      | |- preserves _ (if ?b then _ else _) => destruct b eqn:?
      | |- preserves _ (match ?x with _ => _ end) => destruct x eqn:?
      end ].

Lemma memberTypeCallback_sched container fl nd TD :
  preserves R (memberTypeCallback cfg container fl nd TD).
Proof.
  unfold memberTypeCallback. cbv zeta. repeat sched_frame_step.
Qed.

Lemma walkCallbacks_sched container reports fl :
  preserves R (walkCallbacks cfg container reports fl).
Proof.
  revert fl. induction reports as [|[TD nd] reports IH]; intros fl; simpl.
  - sched_frame_step.
  - apply (preserves_bind R); [apply memberTypeCallback_sched|intros ?].
    apply IH.
Qed.

Lemma forMembers_sched members container hadAny nested :
  preserves R (forMembers cfg members container hadAny nested).
Proof.
  revert hadAny nested.
  induction members as [|member members IH]; intros hadAny nested; simpl.
  - sched_frame_step.
  - pose proof walkCallbacks_sched. repeat sched_frame_step.
Qed.

Lemma forwardDeclareMemberTypes_sched members container :
  preserves R (forwardDeclareMemberTypes cfg members container).
Proof.
  unfold forwardDeclareMemberTypes.
  pose proof forMembers_sched.
  destruct (negb _); [apply preserves_abort|].
  apply (preserves_bind R); [auto|intros r].
  apply (preserves_bind R); [|intros ?; apply (preserves_ret R)].
  unfold insertBeforeBack. intros σ u σ' Hins.
  apply bind_Ok in Hins as (? & ? & [= <- <-] & Hins).
  destruct (unsnoc (declsToWrite σ)) as [[front back]|] eqn:E; [|done].
  run_W Hins. by apply R_insert.
Qed.

Lemma requireProtocols_sched mustBeObjC protos acc :
  preserves R (requireProtocols cfg mustBeObjC protos acc).
Proof.
  revert acc. induction protos as [|P protos IH]; intros acc; simpl.
  - sched_frame_step.
  - repeat sched_frame_step.
Qed.

Lemma writeDecl_sched D : preserves R (writeDecl cfg D).
Proof.
  pose proof requireProtocols_sched.
  pose proof forwardDeclareMemberTypes_sched.
  unfold writeDecl. destruct (kind (decls cfg D)) eqn:Hk.
  all: unfold writeEnum, writeClass, writeFunc, writeStruct, writeProtocol,
         writeExtension, emit, setSeen.
  all: repeat sched_frame_step.
Qed.

End ScheduleFrame.

#[local] Instance requestsKept_preorder cfg : PreOrder (requestsKept cfg).
Proof.
  split.
  - intros σ. split; auto.
  - intros σ1 σ2 σ3 [Hs1 Hr1] [Hs2 Hr2]. split; [auto|].
    intros D HD. destruct (Hr2 D HD) as [H2|?]; [|by right].
    destruct (Hr1 D H2) as [?|[? ?]]; [by left|right; auto].
Qed.

Lemma requestsKept_same cfg σ σ' : sameSchedule σ σ' → requestsKept cfg σ σ'.
Proof.
  intros [Hst Hs]. split.
  - intros D. by rewrite Hst.
  - intros D HD. left. by rewrite <- Hs.
Qed.

Lemma require_requestsKept cfg D :
  preserves (requestsKept cfg) (require cfg D).
Proof.
  intros σ b σ' H. unfold require in H.
  apply bind_Ok in H as (imp & σ1 & E & H).
  pose proof (addImport_sameSchedule _ _ _ _ _ E) as HS.
  etrans; [by apply requestsKept_same|]. clear HS.
  destruct imp.
  - run_W H. split; [done|]. intros D'. unfold stateOf. simpl.
    destruct (decide (D = D')) as [<-|Hne].
    + by rewrite lookup_insert_eq.
    + rewrite lookup_insert_ne by done. by left.
  - apply addImport_false in E as [Hl ->]; [|done].
    apply bind_Ok in H as (? & ? & [= <- <-] & H).
    assert (requestsKept cfg σ
              (with_declsToWrite (λ l, l ++ [D])
                 (with_seenTypes
                    (insert D (DefinitionRequested, (stateOf σ D).2)) σ)))
      as Hpush.
    { split; simpl.
      - intros D' HD'. apply elem_of_app. by left.
      - intros D'. unfold stateOf at 1. simpl.
        destruct (decide (D = D')) as [<-|Hne].
        + intros _. right. split; [done|]. apply elem_of_app. right.
          by apply list_elem_of_singleton.
        + rewrite lookup_insert_ne by done. by left. }
    destruct (stateOf σ D).1 eqn:Est; by run_W H.
Qed.

Lemma tryRequire_requestsKept cfg D :
  preserves (requestsKept cfg) (tryRequire cfg D).
Proof.
  intros σ b σ' H. unfold tryRequire in H.
  apply bind_Ok in H as (imp & σ1 & E & H).
  pose proof (addImport_sameSchedule _ _ _ _ _ E) as HS.
  etrans; [by apply requestsKept_same|]. clear HS.
  destruct imp; run_W H; [|reflexivity].
  split; [done|]. intros D'. unfold stateOf. simpl.
  destruct (decide (D = D')) as [<-|Hne].
  - by rewrite lookup_insert_eq.
  - rewrite lookup_insert_ne by done. by left.
Qed.

Lemma writeDecl_requestsKept cfg D :
  preserves (requestsKept cfg) (writeDecl cfg D).
Proof.
  apply (writeDecl_sched cfg (requestsKept cfg)).
  - apply requestsKept_same.
  - apply require_requestsKept.
  - apply tryRequire_requestsKept.
  - intros σ front back xs Hu. apply unsnoc_Some in Hu. split; simpl.
    + intros D'. rewrite Hu, !elem_of_app. tauto.
    + intros D' HD'. by left.
  - intros σ D0. split; [done|]. intros D'. unfold stateOf. simpl.
    destruct (decide (D0 = D')) as [<-|Hne].
    + by rewrite lookup_insert_eq.
    + rewrite lookup_insert_ne by done. by left.
Qed.

Lemma drainStep_requestsPending cfg D front σ σ1 :
  unsnoc (declsToWrite σ) = Some (front, D) →
  requestsPending cfg σ →
  drainStep cfg D σ = Ok ((), σ1) →
  requestsPending cfg σ1.
Proof.
  intros Hu HJ H. unfold drainStep in H.
  apply bind_Ok in H as (success & σ' & E & H).
  pose proof (writeDecl_requestsKept _ _ _ _ _ E) as [Hstack Hreq].
  pose proof (writeDecl_writes _ _ _ _ _ E) as [_ Hproc].
  assert (requestsPending cfg σ') as HJ'.
  { intros X HX Hm. destruct (Hreq X HX) as [Hold|?]; [|done].
    destruct (HJ X Hold Hm). auto. }
  destruct success; [|by run_W H].
  apply bind_Ok in H as (? & ? & [= <- <-] & H).
  destruct (unsnoc (declsToWrite σ')) as [[front' back]|] eqn:Eu'; [|done].
  destruct (bool_decide (back = D)) eqn:Eb; [|done].
  apply bool_decide_eq_true in Eb as ->. run_W H.
  apply unsnoc_Some in Eu'.
  intros X HX Hm. change (stateOf _ X) with (stateOf σ' X) in HX.
  destruct (HJ' X HX Hm) as [Hl Hin]. split; [done|]. simpl.
  rewrite Eu', elem_of_app, list_elem_of_singleton in Hin.
  destruct Hin as [?| ->]; [done|].
  specialize (Hproc eq_refl Hm Hl). congruence.
Qed.

Lemma drainSteps_requestsPending cfg n σ σ' :
  requestsPending cfg σ → drainSteps cfg n σ = Ok σ' →
  requestsPending cfg σ'.
Proof.
  revert σ. induction n as [|n IH]; intros σ HJ; simpl.
  { by intros [= <-]. }
  destruct (unsnoc (declsToWrite σ)) as [[front D]|] eqn:Eu;
    [|by intros [= <-]].
  destruct (drainStep cfg D σ) as [[[] σ1]|] eqn:E; [|done].
  apply IH. by eapply drainStep_requestsPending.
Qed.

(** X26. Requests are delivered: after a pass that completes, no class
    or enum, and in an Objective-C header no protocol, is left
    [DefinitionRequested]; each has been defined or was never asked
    for. *)
Theorem write_requests_delivered cfg fuel σ D :
  write cfg fuel = Some (Ok σ) →
  mustDefine cfg D →
  (stateOf σ D).1 ≠ DefinitionRequested.
Proof.
  unfold write, writeDecls. intros H Hm Hreq.
  destruct (sortedDecls cfg (topLevelDecls cfg)) as [sorted|]; [|done].
  destruct (recordStructExtensions cfg _) as [[[] σ0]|] eqn:Er; [|done].
  destruct (drain cfg fuel σ0) as [[σ1|]|] eqn:Ed; [|done..].
  destruct (finishWrite cfg σ1) as [[[] σ2]|] eqn:Ef; [|done].
  injection H as <-.
  apply recordStructExtensions_same in Er as (_ & _ & Hseen & _).
  apply drain_drainSteps in Ed as [Ed Hempty].
  assert (requestsPending cfg σ0) as HJ0.
  { intros X HX. unfold stateOf in HX. by rewrite Hseen in HX. }
  pose proof (drainSteps_requestsPending _ _ _ _ HJ0 Ed) as HJ1.
  assert (stateOf σ2 D = stateOf σ1 D) as Hs.
  { unfold finishWrite, printDelayedMembers in Ef.
    apply bind_Ok in Ef as (? & σa & Ea & Ef).
    apply bind_Ok in Ea as (? & ? & [= <- <-] & Ea).
    destruct (delayedMembers σ1); run_W Ea; by run_W Ef. }
  rewrite Hs in Hreq. destruct (HJ1 D Hreq Hm) as [_ Hin].
  rewrite Hempty in Hin. by apply elem_of_nil in Hin.
Qed.

(** ** The further properties on the example modules *)

Lemma addImport_idempotent_witness :
  addImport (ex_cfg [] ObjC) 30
    (ex_after (addImport (ex_cfg [] ObjC) 30 initialWriter)) =
  Ok (true, ex_after (addImport (ex_cfg [] ObjC) 30 initialWriter)) ∧
  (true = false ↔
   moduleContext (decls (ex_cfg [] ObjC) 30) = M (ex_cfg [] ObjC)) ∧
  (true = false →
   ex_after (addImport (ex_cfg [] ObjC) 30 initialWriter) = initialWriter).
Proof.
  apply (addImport_idempotent (ex_cfg [] ObjC) 30 initialWriter true).
  vm_compute. reflexivity.
Defined.

Lemma forwardDeclare_once_witness :
  forwardDeclare (ex_cfg [] ObjC) 1 []
    (ex_after (forwardDeclare (ex_cfg [] ObjC) 1 [ONameForObjC 1]
                 initialWriter)) =
  Ok ((), ex_after (forwardDeclare (ex_cfg [] ObjC) 1 [ONameForObjC 1]
                      initialWriter)) ∧
  (os (ex_after (forwardDeclare (ex_cfg [] ObjC) 1 [ONameForObjC 1]
                   initialWriter)) = os initialWriter ∨
   os (ex_after (forwardDeclare (ex_cfg [] ObjC) 1 [ONameForObjC 1]
                   initialWriter)) = os initialWriter ++ [ONameForObjC 1] ∧
   (stateOf initialWriter 1).2 = false) ∧
  ∀ D, (stateOf (ex_after (forwardDeclare (ex_cfg [] ObjC) 1
                             [ONameForObjC 1] initialWriter)) D).1 =
       (stateOf initialWriter D).1.
Proof.
  apply (forwardDeclare_once (ex_cfg [] ObjC) 1 [ONameForObjC 1] []
           initialWriter ()).
  vm_compute. reflexivity.
Defined.

Lemma forwardDeclareType_idempotent_witness :
  forwardDeclareType (ex_cfg [] ObjC) 1
    (ex_after (forwardDeclareType (ex_cfg [] ObjC) 1 initialWriter)) =
  Ok ((), ex_after (forwardDeclareType (ex_cfg [] ObjC) 1 initialWriter)).
Proof.
  apply (forwardDeclareType_idempotent (ex_cfg [] ObjC) 1 initialWriter ()).
  vm_compute. reflexivity.
Defined.

Lemma forwardDeclareType_frame_witness :
  declsToWrite (ex_after (forwardDeclareType (ex_cfg [] ObjC) 6
                            (ex_requested 5))) =
  declsToWrite (ex_requested 5) ∧
  (∀ D, (stateOf (ex_after (forwardDeclareType (ex_cfg [] ObjC) 6
                              (ex_requested 5))) D).1 =
        (stateOf (ex_requested 5) D).1) ∧
  printedDecls (ex_after (forwardDeclareType (ex_cfg [] ObjC) 6
                            (ex_requested 5))) =
  printedDecls (ex_requested 5) ∧
  recordedExtensions (ex_after (forwardDeclareType (ex_cfg [] ObjC) 6
                                  (ex_requested 5))) =
  recordedExtensions (ex_requested 5) ∧
  os (ex_requested 5) `prefix_of`
    os (ex_after (forwardDeclareType (ex_cfg [] ObjC) 6 (ex_requested 5))) ∧
  (∀ i, i ∈ imports (ex_requested 5) →
        i ∈ imports (ex_after (forwardDeclareType (ex_cfg [] ObjC) 6
                                 (ex_requested 5)))).
Proof.
  apply (forwardDeclareType_frame (ex_cfg [] ObjC) 6 (ex_requested 5) ()).
  vm_compute. reflexivity.
Defined.

Lemma forwardDeclareType_class_witness :
  if isObjC (decls (ex_cfg [] ObjC) 30) &&
     negb (isForeignCFType (decls (ex_cfg [] ObjC) 30)) &&
     negb (isOSObject (decls (ex_cfg [] ObjC) 30))
  then
    ∃ σ', forwardDeclareType (ex_cfg [] ObjC) 30 initialWriter = Ok ((), σ') ∧
      imports σ' = imports initialWriter ∧
      dependsOnStdlib σ' = dependsOnStdlib initialWriter ∧
      os σ' = os initialWriter ++
              (if isStdlibModule (moduleContext (decls (ex_cfg [] ObjC) 30)) ||
                  (stateOf initialWriter 30).2
               then []
               else [OStr "@class "; ONameForObjC 30; OStr (";" +:+ endl)])
  else
    ∃ b σ', addImport (ex_cfg [] ObjC) 30 initialWriter = Ok (b, σ') ∧
      forwardDeclareType (ex_cfg [] ObjC) 30 initialWriter = Ok ((), σ') ∧
      os σ' = os initialWriter.
Proof.
  apply (forwardDeclareType_class (ex_cfg [] ObjC) 30 initialWriter);
    reflexivity.
Defined.

Lemma compareDecls_antisymmetric_witness :
  compareDecls (ex_cfg [] ObjC) 3 1 = Ok (- 1)%Z.
Proof.
  apply (compareDecls_antisymmetric (ex_cfg [] ObjC) 1 3 1%Z).
  vm_compute. reflexivity.
Defined.

Lemma writeFunc_prints_witness :
  true = true ∧
  printedDecls (ex_after (writeFunc (ex_cfg [] ObjC) 23 (ex_stack [23]))) =
    printedDecls (ex_stack [23]) ++
    (if bool_decide (moduleContext (decls (ex_cfg [] ObjC) 23) =
                     M (ex_cfg [] ObjC)) then [23] else []) ∧
  declsToWrite (ex_after (writeFunc (ex_cfg [] ObjC) 23 (ex_stack [23]))) =
  declsToWrite (ex_stack [23]) ∧
  ∀ D, (stateOf (ex_after (writeFunc (ex_cfg [] ObjC) 23 (ex_stack [23])))
          D).1 = (stateOf (ex_stack [23]) D).1.
Proof.
  apply (writeFunc_prints (ex_cfg [] ObjC) 23 (ex_stack [23]) true).
  vm_compute. reflexivity.
Defined.

Lemma writeStruct_prints_witness :
  true = true ∧
  printedDecls (ex_after (writeStruct (ex_shop [] Cxx) 3 (ex_stack [3]))) =
  printedDecls (ex_stack [3]) ++ [3] ∧
  ∀ D, (stateOf (ex_after (writeStruct (ex_shop [] Cxx) 3 (ex_stack [3])))
          D).1 = (stateOf (ex_stack [3]) D).1.
Proof.
  apply (writeStruct_prints (ex_shop [] Cxx) 3 (ex_stack [3]) true);
    [reflexivity..|]. vm_compute. reflexivity.
Defined.

Lemma writeDecl_again_witness :
  writeDecl (ex_cfg [] ObjC) 1
    (ex_after (writeDecl (ex_cfg [] ObjC) 1 (ex_stack [1]))) =
  Ok (true, ex_after (writeDecl (ex_cfg [] ObjC) 1 (ex_stack [1]))).
Proof.
  apply (writeDecl_again (ex_cfg [] ObjC) 1 (ex_stack [1])).
  - left. reflexivity.
  - vm_compute. reflexivity.
Defined.

Lemma writeProtocol_asserts_objc_witness :
  ∃ w, writeProtocol (ex_shop [] ObjC) 4 (ex_stack [4]) = Abort w.
Proof.
  apply (writeProtocol_asserts_objc (ex_shop [] ObjC) 4 5 (ex_stack [4]));
    try reflexivity.
  - unfold stateOf. simpl. discriminate.
  - simpl. by left.
Defined.

Lemma drainStep_stack_witness :
  ∃ σ2, drainStep (ex_cfg [] ObjC) 40 (ex_stack [40]) = Ok ((), σ2) ∧
    σ2 = ex_after (writeDecl (ex_cfg [] ObjC) 40 (ex_stack [40])) ∧
    ∃ L U,
      declsToWrite (ex_after (writeDecl (ex_cfg [] ObjC) 40 (ex_stack [40])))
        = [] ++ [40] ++ L ++ [U] ∧
      moduleContext (decls (ex_cfg [] ObjC) U) = M (ex_cfg [] ObjC) ∧
      (stateOf (ex_after (writeDecl (ex_cfg [] ObjC) 40 (ex_stack [40])))
         U).1 = DefinitionRequested.
Proof.
  apply (drainStep_stack (ex_cfg [] ObjC) [] 40 (ex_stack [40]) false).
  - reflexivity.
  - vm_compute. reflexivity.
Defined.

Lemma passStart_stack_witness :
  declsToWrite (ex_stack [3; 2; 12; 1]) ≡ₚ
    filteredTopLevelDecls (ex_cfg [1; 11; 12; 2; 3] ObjC) ∧
  (∀ D, D ∈ declsToWrite (ex_stack [3; 2; 12; 1])
        ↔ D ∈ topLevelDecls (ex_cfg [1; 11; 12; 2; 3] ObjC) ∧
          keptAtTopLevel (ex_cfg [1; 11; 12; 2; 3] ObjC) D) ∧
  os (ex_stack [3; 2; 12; 1]) = [] ∧
  imports (ex_stack [3; 2; 12; 1]) = [] ∧
  seenTypes (ex_stack [3; 2; 12; 1]) = ∅ ∧
  delayedMembers (ex_stack [3; 2; 12; 1]) = [].
Proof.
  apply (passStart_stack (ex_cfg [1; 11; 12; 2; 3] ObjC)
           (ex_stack [3; 2; 12; 1])).
  vm_compute. reflexivity.
Defined.

Lemma write_nothing_witness :
  ∃ σ, write (ex_cfg [11; 99] Cxx) 0 = Some (Ok σ) ∧
       os σ = [OOutOfLineDefinitions] ∧ imports σ = [] ∧
       dependsOnStdlib σ = false ∧ declsToWrite σ = [] ∧ seenTypes σ = ∅.
Proof.
  apply (write_nothing (ex_cfg [11; 99] Cxx) 0). reflexivity.
Defined.

Lemma walk_plain_needs_name_witness : false = false.
Proof.
  apply (walk_plain_needs_name (ex_cfg [] ObjC)
           (OtherType [NominalType 8; TypeAliasType 6 (NominalType 3)])
           3 false).
  - reflexivity.
  - vm_compute. apply list_elem_of_In. simpl. auto.
Defined.

Lemma write_prints_local_witness :
  moduleContext (decls (ex_cfg [5; 40; 1; 3] ObjC) 41) =
  M (ex_cfg [5; 40; 1; 3] ObjC).
Proof.
  apply (write_prints_local (ex_cfg [5; 40; 1; 3] ObjC) 20
           (ex_pass [5; 40; 1; 3] ObjC) 41).
  - vm_compute. reflexivity.
  - apply list_elem_of_In. vm_compute. auto.
  - simpl. discriminate.
Defined.

Lemma write_dependency_order_witness : 1 ∈ [1; 41; 43].
Proof.
  apply (write_dependency_order (ex_cfg [5; 40; 1; 3] ObjC) 20
           (ex_pass [5; 40; 1; 3] ObjC) [1; 41; 43] 40 [3; 6; 5] 1).
  - vm_compute. reflexivity.
  - vm_compute. reflexivity.
  - apply list_elem_of_In. vm_compute. auto.
  - reflexivity.
  - reflexivity.
Defined.

Lemma write_imports_witness :
  allowedImport (ex_cfg [5; 40; 1; 3] ObjC) (ImportClang ex_FoundationClang).
Proof.
  apply (write_imports (ex_cfg [5; 40; 1; 3] ObjC) 20
           (ex_pass [5; 40; 1; 3] ObjC)).
  - vm_compute. reflexivity.
  - apply list_elem_of_In. vm_compute. auto.
Defined.

Lemma write_delayedMembers_witness :
  delayableMember (ex_shop [1; 2] ObjC) 10.
Proof.
  apply (write_delayedMembers (ex_shop [1; 2] ObjC) 20
           (ex_shopPass [1; 2] ObjC)).
  - vm_compute. reflexivity.
  - apply list_elem_of_In. vm_compute. auto.
Defined.

Lemma forwardDeclareMemberTypes_delays_witness :
  10 ∈ delayedMembers
         (ex_after (forwardDeclareMemberTypes (ex_shop [] ObjC) [10] 1
                      (ex_stack [1]))) ∧
  false = false.
Proof.
  apply (forwardDeclareMemberTypes_delays (ex_shop [] ObjC) [10] 1
           (ex_stack [1]) false _ 10 2).
  - reflexivity.
  - vm_compute. reflexivity.
  - apply list_elem_of_In. simpl. auto.
  - reflexivity.
  - reflexivity.
  - reflexivity.
  - apply list_elem_of_In. vm_compute. auto.
  - discriminate.
  - reflexivity.
  - vm_compute. discriminate.
Defined.

Lemma forwardDeclareMemberTypes_wholesale_witness :
  delayedMembers
    (ex_after (forwardDeclareMemberTypes (ex_cfg [] ObjC) [22] 5
                 (ex_requested 5))) =
  delayedMembers (ex_requested 5) ∧
  (false = true ↔
   length (declsToWrite
             (ex_after (forwardDeclareMemberTypes (ex_cfg [] ObjC) [22] 5
                          (ex_requested 5)))) =
   length (declsToWrite (ex_requested 5)) +
   length (scheduledNestedTypes (ex_cfg [] ObjC) [22])) ∧
  (kind (decls (ex_cfg [] ObjC) 5) ≠ KProtocol →
   kind (decls (ex_cfg [] ObjC) 5) ≠ KExtension → false = true).
Proof.
  apply (forwardDeclareMemberTypes_wholesale (ex_cfg [] ObjC) [22] 5
           (ex_requested 5) false).
  - simpl. discriminate.
  - vm_compute. reflexivity.
Defined.

Lemma write_requests_delivered_witness :
  (stateOf (ex_pass [5; 40; 1; 3] ObjC) 6).1 ≠ DefinitionRequested.
Proof.
  apply (write_requests_delivered (ex_cfg [5; 40; 1; 3] ObjC) 20).
  - vm_compute. reflexivity.
  - right; right. split; reflexivity.
Defined.
